(** * Request-metadata detection (src/lib/detect.ts)

    A shallow embedding of the detection module: client IP extraction
    from proxy headers, device classification, region codes, header
    re-decoding, geolocation with its lazily opened database handle, and
    the IP blocklist.  JavaScript values are modelled as the code has
    them: strings are sequences of UTF-16 code units, [null]/[undefined]
    are [None], numbers carry NaN and the infinities, exceptions are an
    explicit outcome. *)

From Stdlib Require Import NArith ZArith QArith String Ascii List Lia Bool Lqa.
From stdpp Require Import base option list gmap.

Local Open Scope N_scope.

(** ** JavaScript strings *)

(** A JavaScript string is a sequence of UTF-16 code units. *)
Abbreviation jsstring := (list N) (only parsing).

(** String literals of the source, written as Rocq strings. *)
Definition js (s : string) : jsstring :=
  map N_of_ascii (list_ascii_of_string s).

Module JS.

(** Truthiness of a value of type [string | null | undefined]: only a
    non-empty string is truthy. *)
Definition truthy (o : option jsstring) : bool :=
  match o with
  | Some (_ :: _) => true
  | _ => false
  end.

(** [s.split(sep)] for a one-character separator.  The result always
    has at least one element; the empty string splits to [[""]]. *)
Fixpoint split (sep : N) (s : jsstring) : list jsstring :=
  match s with
  | [] => [[]]
  | c :: t =>
      if c =? sep then [] :: split sep t
      else match split sep t with
           | [] => [[c]]
           | h :: r => (c :: h) :: r
           end
  end.

(** ECMAScript WhiteSpace and LineTerminator code units, the ones
    [String.prototype.trim] removes. *)
Definition is_whitespace (c : N) : bool :=
  ((9 <=? c) && (c <=? 13)) || (c =? 32) || (c =? 160) || (c =? 5760)
  || ((8192 <=? c) && (c <=? 8202)) || (c =? 8232) || (c =? 8233)
  || (c =? 8239) || (c =? 8287) || (c =? 12288) || (c =? 65279).

Fixpoint trimStart (s : jsstring) : jsstring :=
  match s with
  | c :: t => if is_whitespace c then trimStart t else s
  | [] => []
  end.

Definition trimEnd (s : jsstring) : jsstring := rev (trimStart (rev s)).

Definition trim (s : jsstring) : jsstring := trimEnd (trimStart s).

(** [s.indexOf(c)] for a one-character needle: [-1] when absent. *)
Fixpoint indexOf (c : N) (s : jsstring) : Z :=
  match s with
  | [] => (-1)%Z
  | d :: t =>
      if d =? c then 0%Z
      else let i := indexOf c t in
           if (i <? 0)%Z then (-1)%Z else (i + 1)%Z
  end.

(** [s.includes(c)] for a one-character needle. *)
Definition includes (c : N) (s : jsstring) : bool :=
  existsb (N.eqb c) s.

(** Byte-lowercasing of header names (only A-Z change). *)
Definition lower_unit (c : N) : N :=
  if (65 <=? c) && (c <=? 90) then c + 32 else c.

Definition toLowerCase (s : jsstring) : jsstring := map lower_unit s.

End JS.

(** ** Numbers *)

(** A JavaScript number, as far as comparisons see it: NaN, the two
    infinities, or a finite value (every finite double is a rational). *)
Inductive jsnum :=
| NaN
| NegInfinity
| Finite (q : Q)
| PosInfinity.

Module Num.

(** [a < b] on numbers; any comparison with NaN is false. *)
Definition lt (a b : jsnum) : bool :=
  match a, b with
  | NaN, _ | _, NaN => false
  | _, NegInfinity => false
  | NegInfinity, _ => true
  | PosInfinity, _ => false
  | Finite _, PosInfinity => true
  | Finite x, Finite y => negb (Qle_bool y x)
  end.

(** [a > b] is [b < a]. *)
Definition gt (a b : jsnum) : bool := lt b a.

(** [a >= b]: false when either is NaN, otherwise not [a < b]. *)
Definition ge (a b : jsnum) : bool :=
  match a, b with
  | NaN, _ | _, NaN => false
  | _, _ => negb (lt a b)
  end.

Definition of_Z (z : Z) : jsnum := Finite (inject_Z z).

End Num.

(** ** Regular expressions

    A small backtracking matcher, enough for the one pattern of the
    module.  [rmatch r s] lists the suffixes of [s] left after a match of
    [r] at the start of [s], in the order a backtracking engine tries
    them (greedy alternatives first). *)

Inductive regex :=
| REps
| RChar (ok : N -> bool)
| RSeq (r1 r2 : regex)
| ROpt (r : regex)
| RPlus (r : regex).

Fixpoint iter_plus (step : jsstring -> list jsstring) (fuel : nat)
    (s : jsstring) : list jsstring :=
  match fuel with
  | O => []
  | S f => flat_map (fun s' => iter_plus step f s' ++ [s']) (step s)
  end.

Fixpoint rmatch (r : regex) (s : jsstring) : list jsstring :=
  match r with
  | REps => [s]
  | RChar ok =>
      match s with
      | c :: t => if ok c then [t] else []
      | [] => []
      end
  | RSeq a b => flat_map (rmatch b) (rmatch a s)
  | ROpt a => rmatch a s ++ [s]
  | RPlus a => iter_plus (rmatch a) (length s) s
  end.

Fixpoint rlit (s : jsstring) : regex :=
  match s with
  | [] => REps
  | c :: t => RSeq (RChar (N.eqb c)) (rlit t)
  end.

(** A pattern of the shape [pre(grp)]: the text captured by the group of
    the first successful match starting exactly at [s]. *)
Definition match_here (pre grp : regex) (s : jsstring) : option jsstring :=
  head (flat_map
          (fun r1 => map (fun r2 => take (length r1 - length r2)%nat r1)
                         (rmatch grp r1))
          (rmatch pre s)).

(** [s.match(/pre(grp)/)] without the global flag: the leftmost match;
    the result is capture group 1, or [None] for [null]. *)
Fixpoint regex_exec (pre grp : regex) (s : jsstring) : option jsstring :=
  match match_here pre grp s with
  | Some cap => Some cap
  | None =>
      match s with
      | [] => None
      | _ :: t => regex_exec pre grp t
      end
  end.

(** The character class [[0-9a-fA-F:.]]. *)
Definition is_hex_colon_dot (c : N) : bool :=
  ((48 <=? c) && (c <=? 57)) || ((97 <=? c) && (c <=? 102))
  || ((65 <=? c) && (c <=? 70)) || (c =? 58) || (c =? 46).

(** The pattern [/for=(\[?[0-9a-fA-F:.]+\]?)/] of [getIpAddress]. *)
Definition FOR_prefix : regex := rlit (js "for=").
Definition FOR_group : regex :=
  RSeq (ROpt (RChar (N.eqb 91)))
       (RSeq (RPlus (RChar is_hex_colon_dot)) (ROpt (RChar (N.eqb 93)))).

Definition match_for (ip : jsstring) : option jsstring :=
  regex_exec FOR_prefix FOR_group ip.

(** ** Request headers and configuration *)

(** A [Headers] object: names are stored lower-cased and looked up
    case-insensitively; [get] yields [null] for a header that is not
    there, and the (possibly empty) value otherwise.  [Headers_get] is
    [get] for a name that is a header name; for any other name [get]
    throws, which is the subject of [Headers_get_call] further down. *)
Record Headers := { entries : gmap (list N) (list N) }.

Definition Headers_get (h : Headers) (name : jsstring) : option jsstring :=
  entries h !! JS.toLowerCase name.

(** The part of [process.env] the module reads. *)
Record Env := {
  CLIENT_IP_HEADER : option jsstring;
  SKIP_LOCATION_HEADERS : option jsstring;
  GEOLITE_DB_PATH : option jsstring;
  IGNORE_IP : option jsstring
}.

(** The values imported from [./constants].  That module is outside the
    code modelled here, so its values are parameters of the development. *)
Class Constants := {
  DESKTOP_OS : list jsstring;
  MOBILE_OS : list jsstring;
  DESKTOP_SCREEN_WIDTH : jsnum;
  LAPTOP_SCREEN_WIDTH : jsnum;
  MOBILE_SCREEN_WIDTH : jsnum;
  IP_ADDRESS_HEADERS : list jsstring
}.

(** ** getIpAddress *)

(** The [for] loop over [IP_ADDRESS_HEADERS] (step 4). *)
Fixpoint scan_ip_headers (headers : Headers) (names : list jsstring)
    : option jsstring :=
  match names with
  | [] => None
  | name :: rest =>
      let ip := Headers_get headers name in
      if JS.truthy ip then
        if decide (name = js "forwarded") then
          match match_for (default [] ip) with
          | Some cap => Some cap
          | None => ip
          end
        else ip
      else scan_ip_headers headers rest
  end.

(** The value [getIpAddress(headers)] returns.  Its lookups are
    [Headers_get], so this is the function for a configuration and a
    fallback list whose names are header names; the call itself, with
    the exception of a lookup by any other name, is [getIpAddress_call]
    further down, which returns this value whenever it returns. *)
Definition getIpAddress `{Constants} (env : Env) (headers : Headers)
    : option jsstring :=
  let cfIp := Headers_get headers (js "cf-connecting-ip") in
  if JS.truthy cfIp then cfIp
  else
    let customHeader := CLIENT_IP_HEADER env in
    if JS.truthy customHeader
       && JS.truthy (Headers_get headers (default [] customHeader))
    then Headers_get headers (default [] customHeader)
    else
      let forwardedFor := Headers_get headers (js "x-forwarded-for") in
      if JS.truthy forwardedFor then
        JS.trim <$> head (JS.split 44 (default [] forwardedFor))
      else scan_ip_headers headers IP_ADDRESS_HEADERS.

(** ** The runtime and the libraries the module calls

    What the JavaScript runtime and the imported packages compute is not
    code of the module; it is taken as an interface. *)

Definition is_digit (c : N) : bool := (48 <=? c) && (c <=? 57).

(** The value of a string of decimal digits. *)
Definition decimal_value (ds : jsstring) : Z :=
  fold_left (fun acc c => (10 * acc + (Z.of_N c - 48))%Z) ds 0%Z.

(** The runtime: unary plus on a string ([+width]), the UTF-8 decoding of
    a byte buffer ([Buffer#toString('utf-8')]), the working directory and
    the two [path] functions used for the default database file.  A
    decimal integer of at most fifteen digits converts to exactly its
    value. *)
Class Runtime := {
  toNumber : jsstring -> jsnum;
  utf8_decode : list N -> jsstring;
  cwd : jsstring;
  path_join : jsstring -> jsstring -> jsstring;
  path_resolve : jsstring -> jsstring -> jsstring;
  toNumber_decimal :
    forall ds, ds <> [] -> forallb is_digit ds = true ->
               (length ds <= 15)%nat ->
               toNumber ds = Num.of_Z (decimal_value ds)
}.

(** ** getDevice *)

Inductive device := laptop | desktop | tablet | mobile.

(** [Array.prototype.includes] on an array of strings. *)
Definition includes_str (l : list jsstring) (s : jsstring) : bool :=
  bool_decide (s ∈ l).

(** The first element of [screen.split('x')]. *)
Definition screen_width (screen : jsstring) : jsstring :=
  default [] (head (JS.split 120 screen)).

Definition getDevice `{Constants} `{Runtime}
    (screen : option jsstring) (os : jsstring) : option device :=
  if negb (JS.truthy screen) then None
  else
    let width := screen_width (default [] screen) in
    if includes_str DESKTOP_OS os then
      if bool_decide (os = js "Chrome OS")
         || Num.lt (toNumber width) DESKTOP_SCREEN_WIDTH
      then Some laptop
      else Some desktop
    else if includes_str MOBILE_OS os then
      if bool_decide (os = js "Amazon OS")
         || Num.gt (toNumber width) MOBILE_SCREEN_WIDTH
      then Some tablet
      else Some mobile
    else if Num.ge (toNumber width) DESKTOP_SCREEN_WIDTH then Some desktop
    else if Num.ge (toNumber width) LAPTOP_SCREEN_WIDTH then Some laptop
    else if Num.ge (toNumber width) MOBILE_SCREEN_WIDTH then Some tablet
    else Some mobile.

(** ** getRegionCode and decodeHeader *)

Definition getRegionCode (country region : option jsstring)
    : option jsstring :=
  if negb (JS.truthy country) || negb (JS.truthy region) then None
  else
    let c := default [] country in
    let r := default [] region in
    if JS.includes 45 r then Some r else Some (c ++ js "-" ++ r).

(** [Buffer.from(s, 'latin1')]: one byte per code unit, its low 8 bits. *)
Definition latin1_bytes (s : jsstring) : list N :=
  map (fun c => N.land c 255) s.

Definition decodeHeader `{Runtime} (s : option jsstring) : option jsstring :=
  match s with
  | None => None
  | Some v => Some (utf8_decode (latin1_bytes v))
  end.

(** ** getLocation *)

(** The shape of a city record of the geo database, as far as the module
    reads it; every level may be missing. *)
Module Maxmind.
Record CodeRecord := { iso_code : option jsstring }.
Record Names := { en : option jsstring }.
Record CityRecord := { names : option Names }.
Record CityResponse := {
  country : option CodeRecord;
  registered_country : option CodeRecord;
  subdivisions : option (list CodeRecord);
  city : option CityRecord
}.
End Maxmind.

(** The packages behind [getLocation]: the locality test of
    [is-localhost-ip], and [maxmind]'s [open] (which may fail) and
    [Reader#get] ([None] is [null]: no record for the address). *)
Class GeoLib := {
  isLocalhost : jsstring -> bool;
  reader : Type;
  maxmind_open : jsstring -> option reader;
  reader_get : reader -> jsstring -> option Maxmind.CityResponse
}.

(** A call either returns a value or throws. *)
Inductive outcome (A : Type) :=
| Return (a : A)
| Throw.
Arguments Return {A} a.
Arguments Throw {A}.

(** What the module does to the database: files opened, addresses
    looked up. *)
Inductive db_event :=
| DbOpen (path : jsstring)
| DbGet (ip : jsstring).

(** The process-wide state: [global[MAXMIND]] and the history of
    database operations. *)
Record World `{GeoLib} := {
  global_MAXMIND : option reader;
  db_log : list db_event
}.

Record Location := {
  country : option jsstring;
  region : option jsstring;
  city : option jsstring
}.

(** The three header reads and the object built from them, shared by
    the Cloudflare and the Vercel branch. *)
Definition header_location `{Runtime} (headers : Headers)
    (countryName regionName cityName : jsstring) : Location :=
  let country := decodeHeader (Headers_get headers countryName) in
  let region := decodeHeader (Headers_get headers regionName) in
  let city := decodeHeader (Headers_get headers cityName) in
  {| country := country;
     region := getRegionCode country region;
     city := city |}.

(** The block guarded by [!hasPayloadIP && !process.env.SKIP_LOCATION_HEADERS]:
    [Some] when one of its two branches returns. *)
Definition location_from_headers `{Runtime} (env : Env) (headers : Headers)
    (hasPayloadIP : bool) : option Location :=
  if negb hasPayloadIP && negb (JS.truthy (SKIP_LOCATION_HEADERS env)) then
    if JS.truthy (Headers_get headers (js "cf-ipcountry")) then
      Some (header_location headers (js "cf-ipcountry")
              (js "cf-region-code") (js "cf-ipcity"))
    else if JS.truthy (Headers_get headers (js "x-vercel-ip-country")) then
      Some (header_location headers (js "x-vercel-ip-country")
              (js "x-vercel-ip-country-region") (js "x-vercel-ip-city"))
    else None
  else None.

Definition db_path `{Runtime} (env : Env) : jsstring :=
  if JS.truthy (GEOLITE_DB_PATH env) then default [] (GEOLITE_DB_PATH env)
  else path_resolve (path_join cwd (js "geo")) (js "GeoLite2-City.mmdb").

(** [if (!global[MAXMIND]) global[MAXMIND] = await maxmind.open(...)],
    run without interruption. *)
Definition ensure_open `{Runtime} `{GeoLib} (env : Env) (w : World)
    : outcome reader * World :=
  match global_MAXMIND w with
  | Some r => (Return r, w)
  | None =>
      let p := db_path env in
      let log := db_log w ++ [DbOpen p] in
      match maxmind_open p with
      | Some r => (Return r, {| global_MAXMIND := Some r; db_log := log |})
      | None => (Throw, {| global_MAXMIND := None; db_log := log |})
      end
  end.

(** [ip?.split(':')[0]] *)
Definition cleanIp (ip : jsstring) : jsstring :=
  default [] (head (JS.split 58 ip)).

(** Optional chaining [o?.f] and nullish coalescing [a ?? b]. *)
Definition chain {A B : Type} (o : option A) (f : A -> option B) : option B :=
  match o with
  | Some a => f a
  | None => None
  end.

Definition nullish {A : Type} (a b : option A) : option A :=
  match a with
  | Some _ => a
  | None => b
  end.

(** The object built from a database record. *)
Definition record_location (result : Maxmind.CityResponse) : Location :=
  let country :=
    nullish (chain (Maxmind.country result) Maxmind.iso_code)
            (chain (Maxmind.registered_country result) Maxmind.iso_code) in
  let region :=
    chain (chain (Maxmind.subdivisions result) head) Maxmind.iso_code in
  let city :=
    chain (chain (Maxmind.city result) Maxmind.names) Maxmind.en in
  {| country := country;
     region := getRegionCode country region;
     city := city |}.

Definition getLocation `{Runtime} `{GeoLib} (env : Env) (ip : jsstring)
    (headers : Headers) (hasPayloadIP : bool) (w : World)
    : outcome (option Location) * World :=
  if isLocalhost ip then (Return None, w)
  else
    match location_from_headers env headers hasPayloadIP with
    | Some loc => (Return (Some loc), w)
    | None =>
        match ensure_open env w with
        | (Throw, w') => (Throw, w')
        | (Return r, w') =>
            let w'' := {| global_MAXMIND := global_MAXMIND w';
                          db_log := db_log w' ++ [DbGet (cleanIp ip)] |} in
            match reader_get r (cleanIp ip) with
            | Some result => (Return (Some (record_location result)), w'')
            | None => (Return None, w'')
            end
        end
    end.

(** ** hasBlockedIp *)

Inductive ipkind := ipv4 | ipv6.

(** The part of [ipaddr.js] the blocklist uses.  [parse] and [parseCIDR]
    throw on text they cannot read ([None]); [address_match] is
    [addr.match(range)] for an address and a range of the same kind. *)
Class IpAddrLib := {
  address : Type;
  parse : jsstring -> option address;
  parseCIDR : jsstring -> option (address * N);
  kind : address -> ipkind;
  address_match : address -> address * N -> bool
}.

#[global] Instance ipkind_eq_dec : EqDecision ipkind.
Proof. solve_decision. Defined.

(** The values [hasBlockedIp] can return. *)
Inductive jsvalue :=
| VBool (b : bool)
| VUndefined
| VString (s : jsstring).

(** The arrow function given to [ips.find]: [true], or nothing
    ([false] here), or an exception from the parsers. *)
Definition blocks `{IpAddrLib} (clientIp ip : jsstring) : outcome bool :=
  if bool_decide (ip = clientIp) then Return true
  else if (0 <? JS.indexOf 47 ip)%Z then
    match parse clientIp with
    | None => Throw
    | Some addr =>
        match parseCIDR ip with
        | None => Throw
        | Some range =>
            if bool_decide (kind addr = kind (fst range))
               && address_match addr range
            then Return true
            else Return false
        end
    end
  else Return false.

(** [ips.find(callback)]: the first element the callback accepts, or
    [undefined]; an exception in the callback ends the search. *)
Fixpoint find_blocked `{IpAddrLib} (clientIp : jsstring) (ips : list jsstring)
    : outcome jsvalue :=
  match ips with
  | [] => Return VUndefined
  | ip :: rest =>
      match blocks clientIp ip with
      | Throw => Throw
      | Return true => Return (VString ip)
      | Return false => find_blocked clientIp rest
      end
  end.

Definition hasBlockedIp `{IpAddrLib} (env : Env) (clientIp : jsstring)
    : outcome jsvalue :=
  let ignoreIps := IGNORE_IP env in
  if JS.truthy ignoreIps then
    let ips := map JS.trim (JS.split 44 (default [] ignoreIps)) in
    find_blocked clientIp ips
  else Return (VBool false).

(** ** The database handle under interleaved calls

    [getLocation] is an [async] function: between its [await]s a call
    runs alone, and at an [await] other calls may run.  For the handle
    the relevant code is

      if (!global[MAXMIND]) { global[MAXMIND] = await maxmind.open(...) }
      ... global[MAXMIND].get(cleanIp)

    so a call goes through two uninterrupted pieces.  The first tests
    the handle: if it is set the call looks up with it and is done; if
    not, the call starts [maxmind.open] and is suspended at the [await].
    The second piece, when the open has completed, stores the new reader
    in [global[MAXMIND]] and looks up with it.  Every [maxmind.open]
    yields a reader of its own; readers are numbered in the order their
    opens were started.  These are the runs in which no open is
    rejected; [Handle] further down has the rejected opens as well. *)
Module Init.

Inductive call :=
| Waiting                (* has not reached the test of the handle *)
| Opening (r : nat)      (* suspended at [await maxmind.open(...)] *)
| Using (r : nat).       (* has done its lookup, with reader [r] *)

Record state := {
  handle : option nat;   (* global[MAXMIND] *)
  opens : nat;           (* how many times [maxmind.open] was called *)
  calls : list call
}.

Definition init (n : nat) : state :=
  {| handle := None; opens := 0; calls := replicate n Waiting |}.

(** Call [i] runs its next piece. *)
Definition step (s : state) (i : nat) : state :=
  match calls s !! i with
  | Some Waiting =>
      match handle s with
      | Some r =>
          {| handle := handle s; opens := opens s;
             calls := <[i := Using r]> (calls s) |}
      | None =>
          {| handle := None; opens := S (opens s);
             calls := <[i := Opening (opens s)]> (calls s) |}
      end
  | Some (Opening r) =>
      {| handle := Some r; opens := opens s;
         calls := <[i := Using r]> (calls s) |}
  | _ => s
  end.

(** A schedule names, piece by piece, the call that runs next. *)
Definition run (schedule : list nat) (s : state) : state :=
  fold_left step schedule s.

(** Calls handled one after the other: each runs both of its pieces
    before the next starts. *)
Definition sequential (n : nat) : list nat :=
  flat_map (fun i => [i; i]) (seq 0 n).

Definition is_waiting (c : call) : bool :=
  match c with Waiting => true | _ => false end.

Definition weight (c : call) : nat := if is_waiting c then 1 else 0.

(** The number of calls that have not yet tested the handle. *)
Fixpoint waiting (l : list call) : nat :=
  match l with
  | [] => 0
  | c :: t => (weight c + waiting t)%nat
  end.

(** What every reachable state satisfies, [n] being the number of calls:
    opens are bounded by the calls that have passed the test, every
    reader in use came from an open, and a call is past its lookup only
    when the handle is set. *)
Record invariant (n : nat) (s : state) : Prop := {
  inv_length : length (calls s) = n;
  inv_opens : (opens s + waiting (calls s) <= n)%nat;
  inv_reader : forall i r,
    calls s !! i = Some (Opening r) \/ calls s !! i = Some (Using r) ->
    (r < opens s)%nat;
  inv_handle : forall r, handle s = Some r -> (r < opens s)%nat;
  inv_used : forall i r, calls s !! i = Some (Using r) -> is_Some (handle s)
}.

End Init.

(** ** A concrete environment

    One choice of constants, runtime and libraries on which the model
    runs: used for the examples. *)
Module Sample.

(** Thresholds 1920 / 1024 / 479, the operating systems the browser
    detector reports, and the usual proxy headers. *)
#[export] Instance constants : Constants := {|
  DESKTOP_OS :=
    map js ["BeOS"; "Chrome OS"; "Linux"; "Mac OS"; "Open BSD"; "OS/2";
            "QNX"; "Sun OS"; "Windows 10"; "Windows 2000"; "Windows 3.11";
            "Windows 7"; "Windows 8"; "Windows 8.1"; "Windows 95";
            "Windows 98"; "Windows ME"; "Windows Server 2003";
            "Windows Vista"; "Windows XP"]%string;
  MOBILE_OS :=
    map js ["Amazon OS"; "Android OS"; "BlackBerry OS"; "iOS";
            "Windows Mobile"]%string;
  DESKTOP_SCREEN_WIDTH := Num.of_Z 1920;
  LAPTOP_SCREEN_WIDTH := Num.of_Z 1024;
  MOBILE_SCREEN_WIDTH := Num.of_Z 479;
  IP_ADDRESS_HEADERS :=
    map js ["cf-connecting-ip"; "x-client-ip"; "x-forwarded-for";
            "do-connecting-ip"; "fastly-client-ip"; "true-client-ip";
            "x-real-ip"; "x-cluster-client-ip"; "x-forwarded";
            "forwarded"; "x-appengine-user-ip"]%string
|}.

(** Unary plus, for the strings the examples use: a decimal integer,
    possibly surrounded by blanks, is its value; a blank string is [0];
    anything else is read as NaN. *)
Definition toNumber (s : jsstring) : jsnum :=
  if forallb is_digit s && negb (bool_decide (s = []))
  then Num.of_Z (decimal_value s)
  else match JS.trim s with
       | [] => Num.of_Z 0
       | t => if forallb is_digit t then Num.of_Z (decimal_value t) else NaN
       end.

(** UTF-8 decoding into UTF-16 code units; an ill-formed sequence
    becomes U+FFFD and decoding resumes at the offending byte. *)
Definition in_range (lo hi b : N) : bool := (lo <=? b) && (b <=? hi).

Definition utf16 (cp : N) : list N :=
  if cp <? 65536 then [cp]
  else [55296 + (cp - 65536) / 1024; 56320 + (cp - 65536) mod 1024].

Definition second_lo (b0 : N) : N :=
  if b0 =? 224 then 160 else if b0 =? 240 then 144 else 128.
Definition second_hi (b0 : N) : N :=
  if b0 =? 237 then 159 else if b0 =? 244 then 143 else 191.

Fixpoint utf8_decode (bs : list N) : jsstring :=
  match bs with
  | [] => []
  | b0 :: t0 =>
      if b0 <? 128 then b0 :: utf8_decode t0
      else if in_range 194 223 b0 then
        match t0 with
        | b1 :: t1 =>
            if in_range 128 191 b1
            then ((b0 - 192) * 64 + (b1 - 128)) :: utf8_decode t1
            else 65533 :: utf8_decode t0
        | [] => [65533]
        end
      else if in_range 224 239 b0 then
        match t0 with
        | b1 :: t1 =>
            if in_range (second_lo b0) (second_hi b0) b1 then
              match t1 with
              | b2 :: t2 =>
                  if in_range 128 191 b2
                  then ((b0 - 224) * 4096 + (b1 - 128) * 64 + (b2 - 128))
                         :: utf8_decode t2
                  else 65533 :: utf8_decode t1
              | [] => [65533]
              end
            else 65533 :: utf8_decode t0
        | [] => [65533]
        end
      else if in_range 240 244 b0 then
        match t0 with
        | b1 :: t1 =>
            if in_range (second_lo b0) (second_hi b0) b1 then
              match t1 with
              | b2 :: t2 =>
                  if in_range 128 191 b2 then
                    match t2 with
                    | b3 :: t3 =>
                        if in_range 128 191 b3
                        then utf16 ((b0 - 240) * 262144 + (b1 - 128) * 4096
                                    + (b2 - 128) * 64 + (b3 - 128))
                               ++ utf8_decode t3
                        else 65533 :: utf8_decode t2
                    | [] => [65533]
                    end
                  else 65533 :: utf8_decode t1
              | [] => [65533]
              end
            else 65533 :: utf8_decode t0
        | [] => [65533]
        end
      else 65533 :: utf8_decode t0
  end.

Definition path_join (a b : jsstring) : jsstring := a ++ js "/" ++ b.

#[export] Instance runtime : Runtime.
Proof.
  refine (Build_Runtime toNumber utf8_decode (js "/app") path_join path_join _).
  intros ds Hne Hd _. unfold toNumber.
  rewrite Hd. now rewrite bool_decide_false.
Defined.

(** Dotted-decimal IPv4 only: four parts of one to three digits, each
    at most 255 and without a leading zero. *)
Definition octet (s : jsstring) : option N :=
  match s with
  | [] => None
  | c :: t =>
      if forallb is_digit s && (length s <=? 3)%nat
         && (negb (c =? 48) || bool_decide (t = []))
         && (decimal_value s <=? 255)%Z
      then Some (Z.to_N (decimal_value s))
      else None
  end.

Definition parse4 (s : jsstring) : option N :=
  match map octet (JS.split 46 s) with
  | [Some a; Some b; Some c; Some d] =>
      Some (((a * 256 + b) * 256 + c) * 256 + d)
  | _ => None
  end.

Definition parseCIDR4 (s : jsstring) : option (N * N) :=
  match JS.split 47 s with
  | [a; bits] =>
      match parse4 a with
      | Some addr =>
          if negb (bool_decide (bits = [])) && forallb is_digit bits
             && (length bits <=? 2)%nat && (decimal_value bits <=? 32)%Z
          then Some (addr, Z.to_N (decimal_value bits))
          else None
      | None => None
      end
  | _ => None
  end.

(** The leading [bits] bits of the two addresses agree. *)
Definition match4 (a : N) (range : N * N) : bool :=
  N.shiftr a (32 - snd range) =? N.shiftr (fst range) (32 - snd range).

#[export] Instance ipaddr : IpAddrLib := {|
  address := N;
  parse := parse4;
  parseCIDR := parseCIDR4;
  kind := fun _ => ipv4;
  address_match := match4
|}.

(** A one-record database: 8.8.8.8 is in Mountain View, California. *)
Definition mountain_view : Maxmind.CityResponse := {|
  Maxmind.country := Some {| Maxmind.iso_code := Some (js "US") |};
  Maxmind.registered_country := Some {| Maxmind.iso_code := Some (js "US") |};
  Maxmind.subdivisions := Some [{| Maxmind.iso_code := Some (js "CA") |}];
  Maxmind.city :=
    Some {| Maxmind.names :=
              Some {| Maxmind.en := Some (js "Mountain View") |} |}
|}.

#[export] Instance geo : GeoLib := {|
  isLocalhost := fun ip =>
    bool_decide (ip ∈ map js ["127.0.0.1"; "::1"; "localhost"]%string);
  reader := unit;
  maxmind_open := fun _ => Some tt;
  reader_get := fun _ ip =>
    if bool_decide (ip = js "8.8.8.8") then Some mountain_view else None
|}.

Definition no_env : Env := {|
  CLIENT_IP_HEADER := None;
  SKIP_LOCATION_HEADERS := None;
  GEOLITE_DB_PATH := None;
  IGNORE_IP := None
|}.

(** A configuration with only a blocklist. *)
Definition blocklist (cfg : string) : Env := {|
  CLIENT_IP_HEADER := None;
  SKIP_LOCATION_HEADERS := None;
  GEOLITE_DB_PATH := None;
  IGNORE_IP := Some (js cfg)
|}.

Definition fresh `{GeoLib} : World :=
  {| global_MAXMIND := None; db_log := [] |}.

(** The state once the sample database is open. *)
Definition ready (log : list db_event) : @World geo :=
  @Build_World geo (Some tt) log.

(** Headers built from name/value pairs. *)
Definition headers (l : list (string * jsstring)) : Headers :=
  {| entries := list_to_map (map (fun p => (JS.toLowerCase (js (fst p)), snd p)) l) |}.

End Sample.

(** ** Vocabulary of the statements *)

(** A header is present with a non-empty value: what [if (headers.get(name))]
    tests. *)
Definition has_value (h : Headers) (name : jsstring) : Prop :=
  exists v, Headers_get h name = Some v /\ v <> [].

(** A custom client-IP header is configured and the request carries it
    with a non-empty value. *)
Definition custom_header_matches (env : Env) (h : Headers) : Prop :=
  exists name, CLIENT_IP_HEADER env = Some name /\ name <> []
               /\ has_value h name.

(** [first] is the text of [s] before its first [sep], or all of [s] when
    [s] holds no [sep]. *)
Definition first_entry (sep : N) (s first : jsstring) : Prop :=
  (sep ∉ first) /\ (s = first \/ exists tail, s = first ++ sep :: tail).

(** The text does not begin with a character accepted by [p]. *)
Definition starts_outside (p : N -> bool) (s : jsstring) : Prop :=
  match s with
  | [] => True
  | c :: _ => p c = false
  end.

(** The header value [for="[2001:db8::1]";proto=https]; code unit 34 is
    the double quote. *)
Definition forwarded_quoted : jsstring :=
  js "for=" ++ [34] ++ js "[2001:db8::1]" ++ [34] ++ js ";proto=https".

(** The three ways the evaluation of one blocklist entry can end.  The
    entry matches: it is the candidate itself, or it has a [/] after its
    first character, both texts parse, the kinds agree and the address
    lies in the range. *)
Definition entry_matches `{IpAddrLib} (clientIp e : jsstring) : Prop :=
  e = clientIp
  \/ ((0 < JS.indexOf 47 e)%Z
      /\ exists a r, parse clientIp = Some a /\ parseCIDR e = Some r
                     /\ kind a = kind (fst r) /\ address_match a r = true).

(** The entry is passed over: it differs from the candidate and is not
    a range, or it is a range of another kind or one that does not hold
    the address. *)
Definition entry_passes `{IpAddrLib} (clientIp e : jsstring) : Prop :=
  e <> clientIp
  /\ ((JS.indexOf 47 e <= 0)%Z
      \/ exists a r, parse clientIp = Some a /\ parseCIDR e = Some r
                     /\ (kind a <> kind (fst r) \/ address_match a r = false)).

(** The entry makes the parsers throw: it differs from the candidate,
    has a [/] after its first character, and the candidate or the entry
    cannot be parsed. *)
Definition entry_throws `{IpAddrLib} (clientIp e : jsstring) : Prop :=
  e <> clientIp /\ (0 < JS.indexOf 47 e)%Z
  /\ (parse clientIp = None \/ parseCIDR e = None).

(** ** getClientInfo *)

(** The client-supplied fields the module reads from the payload, each
    possibly missing. *)
Module Payload.
Record t := {
  userAgent : option jsstring;
  ip : option jsstring;
  screen : option jsstring
}.
End Payload.

(** The two functions of [detect-browser]; each yields [null] when it
    recognises nothing. *)
Class UserAgentLib := {
  browserName : option jsstring -> option jsstring;
  detectOS : option jsstring -> option jsstring
}.

(** [safeDecodeURIComponent] of [@/lib/url], a module outside the code
    modelled here: a function that does not throw. *)
Class UrlLib := {
  safeDecodeURIComponent : option jsstring -> option jsstring
}.

(** What the two geo packages do when [getLocation] is called without
    an address ([null]): the locality test, and [Reader#get] of
    [undefined], which may throw. *)
Class NullAddress `{GeoLib} := {
  isLocalhost_null : bool;
  reader_get_undefined : reader -> outcome (option Maxmind.CityResponse)
}.

(** [a || b] on values of type [string | null | undefined]. *)
Definition or_else (a b : option jsstring) : option jsstring :=
  if JS.truthy a then a else b.

(** [getLocation] called with [null]: the default [''] does not apply,
    [ip?.split(':')[0]] is [undefined], and the log, which records
    addresses, gets no entry for the lookup. *)
Definition getLocation_null `{Runtime} `{G : GeoLib} `{@NullAddress G}
    (env : Env) (headers : Headers) (hasPayloadIP : bool) (w : World)
    : outcome (option Location) * World :=
  if isLocalhost_null then (Return None, w)
  else
    match location_from_headers env headers hasPayloadIP with
    | Some loc => (Return (Some loc), w)
    | None =>
        match ensure_open env w with
        | (Throw, w') => (Throw, w')
        | (Return r, w') =>
            match reader_get_undefined r with
            | Throw => (Throw, w')
            | Return (Some result) => (Return (Some (record_location result)), w')
            | Return None => (Return None, w')
            end
        end
    end.

(** [getLocation(ip, ...)] for the value [getClientInfo] passes. *)
Definition getLocation_of `{Runtime} `{G : GeoLib} `{@NullAddress G}
    (env : Env) (ip : option jsstring) (headers : Headers)
    (hasPayloadIP : bool) (w : World)
    : outcome (option Location) * World :=
  match ip with
  | Some s => getLocation env s headers hasPayloadIP w
  | None => getLocation_null env headers hasPayloadIP w
  end.

(** [getDevice(screen, null)]: [null] is in neither list and equals no
    string, so only the width decides. *)
Definition getDevice_no_os `{Constants} `{Runtime}
    (screen : option jsstring) : option device :=
  if negb (JS.truthy screen) then None
  else
    let width := screen_width (default [] screen) in
    if Num.ge (toNumber width) DESKTOP_SCREEN_WIDTH then Some desktop
    else if Num.ge (toNumber width) LAPTOP_SCREEN_WIDTH then Some laptop
    else if Num.ge (toNumber width) MOBILE_SCREEN_WIDTH then Some tablet
    else Some mobile.

Definition getDevice_of `{Constants} `{Runtime}
    (screen : option jsstring) (os : option jsstring) : option device :=
  match os with
  | Some o => getDevice screen o
  | None => getDevice_no_os screen
  end.

(** The record [getClientInfo] returns. *)
Module ClientInfo.
Record t := {
  userAgent : option jsstring;
  browser : option jsstring;
  os : option jsstring;
  ip : option jsstring;
  country : option jsstring;
  region : option jsstring;
  city : option jsstring;
  device : option device
}.
End ClientInfo.

(** The address is the payload's, or else the value [getIpAddress]
    returns; a call in which that lookup throws (see [getIpAddress_call])
    throws as well and is not described here. *)
Definition getClientInfo `{Constants} `{Runtime} `{G : GeoLib}
    `{@NullAddress G} `{UserAgentLib} `{UrlLib}
    (env : Env) (headers : Headers) (payload : option Payload.t) (w : World)
    : outcome ClientInfo.t * World :=
  let userAgent :=
    or_else (chain payload Payload.userAgent)
            (Headers_get headers (js "user-agent")) in
  let ip := or_else (chain payload Payload.ip) (getIpAddress env headers) in
  match getLocation_of env ip headers
          (JS.truthy (chain payload Payload.ip)) w with
  | (Throw, w') => (Throw, w')
  | (Return location, w') =>
      let country := safeDecodeURIComponent (chain location country) in
      let region := safeDecodeURIComponent (chain location region) in
      let city := safeDecodeURIComponent (chain location city) in
      let browser := browserName userAgent in
      let os := detectOS userAgent in
      let device := getDevice_of (chain payload Payload.screen) os in
      (Return {| ClientInfo.userAgent := userAgent;
                 ClientInfo.browser := browser;
                 ClientInfo.os := os;
                 ClientInfo.ip := ip;
                 ClientInfo.country := country;
                 ClientInfo.region := region;
                 ClientInfo.city := city;
                 ClientInfo.device := device |}, w')
  end.

(** ** Vocabulary of the further statements *)

(** The least number of characters a match of [r] consumes. *)
Fixpoint min_len (r : regex) : nat :=
  match r with
  | REps => 0
  | RChar _ => 1
  | RSeq a b => min_len a + min_len b
  | ROpt _ => 0
  | RPlus a => min_len a
  end.

(** Some character test of [r] accepts [c]. *)
Fixpoint accepts_char (r : regex) (c : N) : bool :=
  match r with
  | REps => false
  | RChar ok => ok c
  | RSeq a b => accepts_char a c || accepts_char b c
  | ROpt a => accepts_char a c
  | RPlus a => accepts_char a c
  end.

(** The device classes in the order of the width thresholds. *)
Definition device_rank (d : option device) : nat :=
  match d with
  | None => 0
  | Some mobile => 1
  | Some tablet => 2
  | Some laptop => 3
  | Some desktop => 4
  end.

(** The handle is set to reader [r] and no call is suspended at an
    open. *)
Definition settled (r : nat) (s : Init.state) : Prop :=
  Init.handle s = Some r
  /\ forall i r', Init.calls s !! i <> Some (Init.Opening r').

(** How many times the log shows the database file being opened. *)
Fixpoint opens_in (log : list db_event) : nat :=
  match log with
  | [] => 0
  | DbOpen _ :: rest => S (opens_in rest)
  | DbGet _ :: rest => opens_in rest
  end.

(** A process handling calls of [getLocation] one after the other, each
    given by its address, its headers and its payload flag: the state
    after the last one.  A call that throws leaves its state behind like
    any other. *)
Fixpoint serve `{Runtime} `{GeoLib} (env : Env)
    (requests : list (jsstring * Headers * bool)) (w : World) : World :=
  match requests with
  | [] => w
  | (ip, headers, hasPayloadIP) :: rest =>
      serve env rest (snd (getLocation env ip headers hasPayloadIP w))
  end.

(** Sample instances for the libraries of [getClientInfo]: one user
    agent is recognised as Linux, texts are left as they are, and a
    lookup without an address throws. *)
Module SampleClient.

#[export] Instance user_agent : UserAgentLib := {|
  browserName := fun _ => None;
  detectOS := fun ua =>
    if bool_decide (ua = Some (js "Mozilla/5.0 (X11; Linux x86_64)"))
    then Some (js "Linux") else None
|}.

#[export] Instance url : UrlLib := {|
  safeDecodeURIComponent := fun s => s
|}.

#[export] Instance null_address : @NullAddress Sample.geo := {|
  isLocalhost_null := false;
  reader_get_undefined := fun _ => Throw
|}.

(** A database that cannot be opened. *)
#[export] Instance no_database : GeoLib := {|
  isLocalhost := fun ip =>
    bool_decide (ip ∈ map js ["127.0.0.1"; "::1"; "localhost"]%string);
  reader := unit;
  maxmind_open := fun _ => None;
  reader_get := fun _ _ => None
|}.

End SampleClient.

(** ** The exceptions of [Headers.get]

    [headers.get(name)] throws a [TypeError] unless [name] is a header
    name: a non-empty token of RFC 7230.  The names written in the module
    are tokens; the name read from [CLIENT_IP_HEADER] and the names of
    [IP_ADDRESS_HEADERS] need not be.  [getIpAddress] above is the value
    the function returns when none of its lookups throws; the call
    itself, lookups that throw included, is [getIpAddress_call]. *)

(** A token character: a digit, a letter, or one of
    [! # $ % & ' * + - . ^ _ ` | ~]. *)
Definition is_tchar (c : N) : bool :=
  ((48 <=? c) && (c <=? 57)) || ((65 <=? c) && (c <=? 90))
  || ((97 <=? c) && (c <=? 122))
  || existsb (N.eqb c)
       [33; 35; 36; 37; 38; 39; 42; 43; 45; 46; 94; 95; 96; 124; 126].

Definition is_header_name (name : jsstring) : bool :=
  negb (bool_decide (name = [])) && forallb is_tchar name.

(** [headers.get(name)] as a call. *)
Definition Headers_get_call (h : Headers) (name : jsstring)
    : outcome (option jsstring) :=
  if is_header_name name then Return (Headers_get h name) else Throw.

(** Sequencing of calls: an exception ends the evaluation. *)
Definition and_then {A B : Type} (o : outcome A) (f : A -> outcome B)
    : outcome B :=
  match o with
  | Return a => f a
  | Throw => Throw
  end.

(** The [for] loop over [IP_ADDRESS_HEADERS] (step 4). *)
Fixpoint scan_ip_headers_call (headers : Headers) (names : list jsstring)
    : outcome (option jsstring) :=
  match names with
  | [] => Return None
  | name :: rest =>
      and_then (Headers_get_call headers name) (fun ip =>
        if JS.truthy ip then
          if decide (name = js "forwarded") then
            match match_for (default [] ip) with
            | Some cap => Return (Some cap)
            | None => Return ip
            end
          else Return ip
        else scan_ip_headers_call headers rest)
  end.

(** [getIpAddress(headers)], every [headers.get] being a call that may
    throw; the second lookup of the configured header is the [return]
    of step 2. *)
Definition getIpAddress_call `{Constants} (env : Env) (headers : Headers)
    : outcome (option jsstring) :=
  and_then (Headers_get_call headers (js "cf-connecting-ip")) (fun cfIp =>
    if JS.truthy cfIp then Return cfIp
    else
      let customHeader := CLIENT_IP_HEADER env in
      and_then
        (if JS.truthy customHeader
         then Headers_get_call headers (default [] customHeader)
         else Return None)
        (fun found =>
           if JS.truthy found
           then Headers_get_call headers (default [] customHeader)
           else
             and_then (Headers_get_call headers (js "x-forwarded-for"))
               (fun forwardedFor =>
                  if JS.truthy forwardedFor then
                    Return (JS.trim <$>
                              head (JS.split 44 (default [] forwardedFor)))
                  else scan_ip_headers_call headers IP_ADDRESS_HEADERS))).

(** The test [customHeader && headers.get(customHeader)] is evaluated
    and is false: no header is configured, or the configured name is a
    header name for which the request has no non-empty value. *)
Definition custom_header_misses (env : Env) (h : Headers) : Prop :=
  JS.truthy (CLIENT_IP_HEADER env) = false
  \/ exists name, CLIENT_IP_HEADER env = Some name /\ name <> []
                  /\ is_header_name name = true /\ ~ has_value h name.

(** The loop passes over a header of the fallback list: the lookup does
    not throw and finds no non-empty value. *)
Definition passed_over (h : Headers) (name : jsstring) : Prop :=
  is_header_name name = true /\ ~ has_value h name.

(** [t] is [s] without the white space at its two ends. *)
Definition trimmed_of (s t : jsstring) : Prop :=
  exists lead trail,
    s = lead ++ t ++ trail
    /\ Forall (fun c => JS.is_whitespace c = true) lead
    /\ Forall (fun c => JS.is_whitespace c = true) trail
    /\ starts_outside JS.is_whitespace t
    /\ starts_outside JS.is_whitespace (rev t).

(** A match of [for=(\[?[0-9a-fA-F:.]+\]?)] can begin at the start of
    [s]: the text [for=], an optional opening bracket, and a character
    of the class. *)
Definition for_begins (s : jsstring) : Prop :=
  exists lb c rest,
    (lb = [] \/ lb = [91]) /\ is_hex_colon_dot c = true
    /\ s = js "for=" ++ lb ++ c :: rest.

(** No match begins at a position inside [a] when [m] follows [a]. *)
Definition no_match_within (a m : jsstring) : Prop :=
  forall a1 a2, a = a1 ++ a2 -> a2 <> [] -> ~ for_begins (a2 ++ m).

(** [s] without the prefix [l], when it begins with [l]. *)
Fixpoint strip_prefix (l s : jsstring) : option jsstring :=
  match l, s with
  | [], _ => Some s
  | c :: l', d :: s' => if c =? d then strip_prefix l' s' else None
  | _ :: _, [] => None
  end.

(** [for_begins] and [no_match_within] as tests, for the examples. *)
Definition for_begins_b (s : jsstring) : bool :=
  match strip_prefix (js "for=") s with
  | Some (c :: r) =>
      is_hex_colon_dot c
      || ((c =? 91) && match r with
                       | d :: _ => is_hex_colon_dot d
                       | [] => false
                       end)
  | _ => false
  end.

Fixpoint no_match_within_b (a m : jsstring) : bool :=
  match a with
  | [] => true
  | _ :: a' => negb (for_begins_b (a ++ m)) && no_match_within_b a' m
  end.

(** ** The order of the numbers

    [a < b] and [a <= b] as relations: NaN is comparable with nothing,
    the infinities lie below and above every finite number. *)
Inductive num_lt : jsnum -> jsnum -> Prop :=
| num_lt_finite a b : (a < b)%Q -> num_lt (Finite a) (Finite b)
| num_lt_neg_finite b : num_lt NegInfinity (Finite b)
| num_lt_neg_pos : num_lt NegInfinity PosInfinity
| num_lt_finite_pos a : num_lt (Finite a) PosInfinity.

Inductive num_le : jsnum -> jsnum -> Prop :=
| num_le_finite a b : (a <= b)%Q -> num_le (Finite a) (Finite b)
| num_le_neg b : b <> NaN -> num_le NegInfinity b
| num_le_pos a : a <> NaN -> num_le a PosInfinity.

(** ** The database handle when an open can fail

    The automaton of [Init], with the other way an [await maxmind.open]
    can end: the promise is rejected, the call throws, and
    [global[MAXMIND]] is left as it was.  [fails r] tells whether the
    open numbered [r] is rejected.  When an open succeeds the assignment
    [global[MAXMIND] = ...] is carried out whatever the handle holds at
    that moment. *)
Module Handle.

Inductive call :=
| Waiting                (* has not reached the test of the handle *)
| Opening (r : nat)      (* suspended at [await maxmind.open(...)] *)
| Using (r : nat)        (* has done its lookup, with reader [r] *)
| Failed.                (* has thrown: its open was rejected *)

Record state := {
  handle : option nat;   (* global[MAXMIND] *)
  opens : nat;           (* how many times [maxmind.open] was called *)
  calls : list call
}.

Definition init (n : nat) : state :=
  {| handle := None; opens := 0; calls := replicate n Waiting |}.

(** Call [i] runs its next piece. *)
Definition step (fails : nat -> bool) (s : state) (i : nat) : state :=
  match calls s !! i with
  | Some Waiting =>
      match handle s with
      | Some r =>
          {| handle := handle s; opens := opens s;
             calls := <[i := Using r]> (calls s) |}
      | None =>
          {| handle := None; opens := S (opens s);
             calls := <[i := Opening (opens s)]> (calls s) |}
      end
  | Some (Opening r) =>
      if fails r then
        {| handle := handle s; opens := opens s;
           calls := <[i := Failed]> (calls s) |}
      else
        {| handle := Some r; opens := opens s;
           calls := <[i := Using r]> (calls s) |}
  | _ => s
  end.

Definition run (fails : nat -> bool) (schedule : list nat) (s : state)
    : state :=
  fold_left (step fails) schedule s.

(** Calls handled one after the other. *)
Definition sequential (n : nat) : list nat :=
  flat_map (fun i => [i; i]) (seq 0 n).

Definition weight (c : call) : nat :=
  match c with Waiting => 1 | _ => 0 end.

(** The number of calls that have not yet tested the handle. *)
Fixpoint waiting (l : list call) : nat :=
  match l with
  | [] => 0
  | c :: t => (weight c + waiting t)%nat
  end.

(** What every reachable state satisfies, [n] being the number of
    calls. *)
Record invariant (fails : nat -> bool) (n : nat) (s : state) : Prop := {
  inv_length : length (calls s) = n;
  inv_opens : (opens s + waiting (calls s) <= n)%nat;
  inv_reader : forall i r,
    calls s !! i = Some (Opening r) \/ calls s !! i = Some (Using r) ->
    (r < opens s)%nat;
  inv_handle : forall r,
    handle s = Some r -> (r < opens s)%nat /\ fails r = false;
  inv_used : forall i r,
    calls s !! i = Some (Using r) -> fails r = false /\ is_Some (handle s)
}.

(** The automaton of [Init] seen as one in which no open fails. *)
Definition of_init_call (c : Init.call) : call :=
  match c with
  | Init.Waiting => Waiting
  | Init.Opening r => Opening r
  | Init.Using r => Using r
  end.

Definition of_init (s : Init.state) : state :=
  {| handle := Init.handle s; opens := Init.opens s;
     calls := of_init_call <$> Init.calls s |}.

End Handle.

(** The process state [w] and the state [s] of the automaton describe
    the same situation: the handle is set in both or in neither, and the
    file was opened as often as the automaton counts. *)
Definition agrees `{GeoLib} (w : World) (s : Handle.state) : Prop :=
  (global_MAXMIND w = None <-> Handle.handle s = None)
  /\ opens_in (db_log w) = Handle.opens s.

(** * Properties *)

(** ** Strings *)

Lemma truthy_true (o : option jsstring) :
  JS.truthy o = true <-> exists v, o = Some v /\ v <> [].
Proof.
  split.
  - destruct o as [[|c t]|]; simpl; try discriminate.
    intros _. exists (c :: t). split; [reflexivity | discriminate].
  - intros [v [-> Hv]]. destruct v; [contradiction | reflexivity].
Qed.

Lemma truthy_has_value h name :
  JS.truthy (Headers_get h name) = true <-> has_value h name.
Proof. apply truthy_true. Qed.

Lemma truthy_false_no_value h name :
  ~ has_value h name -> JS.truthy (Headers_get h name) = false.
Proof.
  intros Hn. destruct (JS.truthy _) eqn:E; [|reflexivity].
  apply truthy_has_value in E. contradiction.
Qed.

Lemma split_first_entry sep s :
  exists first rest, JS.split sep s = first :: rest /\ first_entry sep s first.
Proof.
  induction s as [|c t IH]; simpl.
  - exists [], []. split; [reflexivity|]. split; [apply not_elem_of_nil | now left].
  - destruct (N.eqb_spec c sep) as [->|Hne].
    + exists [], (JS.split sep t). split; [reflexivity|].
      split; [apply not_elem_of_nil | right; now exists t].
    + destruct IH as (first & rest & -> & Hnot & Hs).
      exists (c :: first), rest. split; [reflexivity|]. split.
      * rewrite elem_of_cons. intros [->|Hin]; [congruence | contradiction].
      * destruct Hs as [->|[tail ->]]; [now left | right; now exists tail].
Qed.

Lemma first_entry_unique sep s f1 f2 :
  first_entry sep s f1 -> first_entry sep s f2 -> f1 = f2.
Proof.
  revert s f2. induction f1 as [|c f1 IH]; intros s f2 [Hn1 H1] [Hn2 H2].
  - destruct f2 as [|d f2]; [reflexivity|]. exfalso.
    assert (Hd : d <> sep) by (intros ->; apply Hn2; left).
    destruct H1 as [->|[t1 ->]]; destruct H2 as [H2|[t2 H2]];
      simpl in H2; try discriminate; injection H2 as H2 _; congruence.
  - assert (Hc : c <> sep) by (intros ->; apply Hn1; left).
    destruct f2 as [|d f2].
    + exfalso. destruct H1 as [->|[t1 ->]]; destruct H2 as [H2|[t2 H2]];
        simpl in H2; try discriminate; injection H2 as H2 _; congruence.
    + assert (Hs : exists s', s = c :: s' /\ first_entry sep s' f1).
      { destruct H1 as [->|[t1 ->]].
        - exists f1. split; [reflexivity|]. split; [|now left].
          intros Hin. apply Hn1. now right.
        - exists (f1 ++ sep :: t1). split; [reflexivity|]. split.
          + intros Hin. apply Hn1. now right.
          + right. now exists t1. }
      destruct Hs as (s' & -> & Hf1).
      assert (Hf2 : c = d /\ first_entry sep s' f2).
      { destruct H2 as [H2|[t2 H2]]; simpl in H2; injection H2 as -> ->.
        - split; [reflexivity|]. split; [|now left].
          intros Hin. apply Hn2. now right.
        - split; [reflexivity|]. split.
          + intros Hin. apply Hn2. now right.
          + right. now exists t2. }
      destruct Hf2 as [-> Hf2]. f_equal. eapply IH; eassumption.
Qed.

(** ** getIpAddress *)

Section GetIpAddress.
Context {C : Constants}.
Variables (env : Env) (headers : Headers).

Lemma custom_test_matches :
  JS.truthy (CLIENT_IP_HEADER env)
  && JS.truthy (Headers_get headers (default [] (CLIENT_IP_HEADER env))) = true
  <-> custom_header_matches env headers.
Proof.
  rewrite andb_true_iff, truthy_true, truthy_has_value. split.
  - intros [(name & Hn & Hne) Hv]. rewrite Hn in Hv. now exists name.
  - intros (name & Hn & Hne & Hv). rewrite Hn. split; [now exists name | exact Hv].
Qed.

Lemma custom_test_fails :
  ~ custom_header_matches env headers ->
  JS.truthy (CLIENT_IP_HEADER env)
  && JS.truthy (Headers_get headers (default [] (CLIENT_IP_HEADER env))) = false.
Proof.
  intros Hn. destruct (_ && _) eqn:E; [|reflexivity].
  apply custom_test_matches in E. contradiction.
Qed.

(** Step 1: a non-empty [cf-connecting-ip] is returned as it is. *)
Lemma getIpAddress_cloudflare v :
  Headers_get headers (js "cf-connecting-ip") = Some v -> v <> [] ->
  getIpAddress env headers = Some v.
Proof.
  intros Hv Hne. unfold getIpAddress.
  assert (Ht : JS.truthy (Headers_get headers (js "cf-connecting-ip")) = true)
    by (apply truthy_true; eauto).
  now rewrite Ht.
Qed.

(** Step 2: otherwise a non-empty configured header is returned. *)
Lemma getIpAddress_custom name v :
  ~ has_value headers (js "cf-connecting-ip") ->
  CLIENT_IP_HEADER env = Some name -> name <> [] ->
  Headers_get headers name = Some v -> v <> [] ->
  getIpAddress env headers = Some v.
Proof.
  intros Hcf Hn Hne Hv Hve. unfold getIpAddress.
  rewrite (truthy_false_no_value _ _ Hcf).
  assert (Ht : custom_header_matches env headers)
    by (exists name; repeat split; try assumption; now exists v).
  apply custom_test_matches in Ht. rewrite Ht, Hn. exact Hv.
Qed.

(** Step 3: otherwise a non-empty [x-forwarded-for] gives its first
    entry, trimmed. *)
Lemma getIpAddress_forwarded_for v :
  ~ has_value headers (js "cf-connecting-ip") ->
  ~ custom_header_matches env headers ->
  Headers_get headers (js "x-forwarded-for") = Some v -> v <> [] ->
  exists first, first_entry 44 v first
                /\ getIpAddress env headers = Some (JS.trim first).
Proof.
  intros Hcf Hcu Hv Hne. unfold getIpAddress.
  rewrite (truthy_false_no_value _ _ Hcf), (custom_test_fails Hcu).
  assert (Ht : JS.truthy (Headers_get headers (js "x-forwarded-for")) = true)
    by (apply truthy_true; eauto).
  rewrite Ht, Hv. simpl default.
  destruct (split_first_entry 44 v) as (first & rest & Hs & Hf).
  exists first. split; [exact Hf|]. now rewrite Hs.
Qed.

(** Step 4 is reached when the first three steps found nothing. *)
Lemma getIpAddress_falls_back :
  ~ has_value headers (js "cf-connecting-ip") ->
  ~ custom_header_matches env headers ->
  ~ has_value headers (js "x-forwarded-for") ->
  getIpAddress env headers = scan_ip_headers headers IP_ADDRESS_HEADERS.
Proof.
  intros Hcf Hcu Hx. unfold getIpAddress.
  now rewrite (truthy_false_no_value _ _ Hcf), (custom_test_fails Hcu),
    (truthy_false_no_value _ _ Hx).
Qed.

Lemma scan_skips before names :
  Forall (fun n => ~ has_value headers n) before ->
  scan_ip_headers headers (before ++ names) = scan_ip_headers headers names.
Proof.
  induction 1 as [|n before Hn _ IH]; [reflexivity|].
  simpl. now rewrite (truthy_false_no_value _ _ Hn).
Qed.

Lemma scan_none names :
  Forall (fun n => ~ has_value headers n) names ->
  scan_ip_headers headers names = None.
Proof.
  intros Hall. rewrite <- (app_nil_r names). now rewrite scan_skips.
Qed.

Lemma scan_hit name rest v :
  Headers_get headers name = Some v -> v <> [] ->
  scan_ip_headers headers (name :: rest)
  = if decide (name = js "forwarded")
    then Some (default v (match_for v))
    else Some v.
Proof.
  intros Hv Hne. simpl.
  assert (Ht : JS.truthy (Headers_get headers name) = true)
    by (apply truthy_true; eauto).
  rewrite Ht, Hv. simpl default at 1.
  destruct (decide _); [|reflexivity]. now destruct (match_for v).
Qed.

End GetIpAddress.

(** ** The pattern of the [forwarded] header *)

Lemma rmatch_rlit l x : rmatch (rlit l) (l ++ x) = [x].
Proof.
  induction l as [|c l IH]; [reflexivity|].
  simpl. rewrite N.eqb_refl. simpl. rewrite IH. reflexivity.
Qed.

Lemma iter_plus_stuck p fuel tail :
  starts_outside p tail -> iter_plus (rmatch (RChar p)) fuel tail = [].
Proof.
  intros Ht. destruct fuel; [reflexivity|]. simpl.
  destruct tail as [|c t]; [reflexivity|]. simpl in Ht. now rewrite Ht.
Qed.

Lemma iter_plus_class_step p fuel c t :
  p c = true ->
  iter_plus (rmatch (RChar p)) (S fuel) (c :: t)
  = iter_plus (rmatch (RChar p)) fuel t ++ [t].
Proof. intros Hc. simpl. rewrite Hc. simpl. now rewrite app_nil_r. Qed.

(** A greedy [[class]+] first consumes the whole run of class
    characters. *)
Lemma iter_plus_class_head p body : forall fuel tail,
  body <> [] -> forallb p body = true -> starts_outside p tail ->
  (length body <= fuel)%nat ->
  head (iter_plus (rmatch (RChar p)) fuel (body ++ tail)) = Some tail.
Proof.
  induction body as [|c body IH]; intros fuel tail Hne Hall Hout Hlen;
    [contradiction|].
  simpl in Hall. apply andb_true_iff in Hall as [Hc Hall].
  destruct fuel as [|fuel]; [simpl in Hlen; lia|].
  change ((c :: body) ++ tail) with (c :: body ++ tail).
  rewrite (iter_plus_class_step _ _ _ _ Hc).
  destruct body as [|d body].
  - cbn [app]. now rewrite iter_plus_stuck.
  - assert (Hh : head (iter_plus (rmatch (RChar p)) fuel ((d :: body) ++ tail))
                 = Some tail).
    { apply IH; [discriminate | exact Hall | exact Hout | simpl in *; lia]. }
    destruct (iter_plus _ _ _) as [|y ys]; [discriminate|]. exact Hh.
Qed.

Lemma head_flat_map_cons {A B} (f : A -> list B) x xs y :
  head (f x) = Some y -> head (flat_map f (x :: xs)) = Some y.
Proof. simpl. destruct (f x); [discriminate | now intros]. Qed.

Lemma take_prefix_by_length (a b : jsstring) :
  take (length (a ++ b) - length b)%nat (a ++ b) = a.
Proof.
  rewrite length_app. replace (length a + length b - length b)%nat
    with (length a) by lia.
  now rewrite take_app_length.
Qed.

(** The group [\[?[0-9a-fA-F:.]+\]?] at the start of a text made of an
    optional opening bracket, a run of class characters and an optional
    closing bracket: the first match ends after that closing bracket. *)
Lemma FOR_group_head lb body rb rest :
  lb = [] \/ lb = [91] ->
  body <> [] -> forallb is_hex_colon_dot body = true ->
  rb = [93]
  \/ (rb = [] /\ starts_outside (fun c => is_hex_colon_dot c || (c =? 93)) rest) ->
  head (rmatch FOR_group (lb ++ body ++ rb ++ rest)) = Some rest.
Proof.
  intros Hlb Hne Hall Hrb.
  assert (Htail : starts_outside is_hex_colon_dot (rb ++ rest)).
  { destruct Hrb as [->|[-> Ho]]; [reflexivity|].
    destruct rest as [|c t]; [exact I|]. cbn [starts_outside app] in *.
    now apply orb_false_iff in Ho. }
  assert (Hclose : head (rmatch (ROpt (RChar (N.eqb 93))) (rb ++ rest))
                   = Some rest).
  { destruct Hrb as [->|[-> Ho]]; [reflexivity|].
    destruct rest as [|c t]; [reflexivity|]. cbn [starts_outside] in Ho.
    apply orb_false_iff in Ho as [_ Ho]. cbn [rmatch app].
    rewrite (N.eqb_sym 93 c), Ho. reflexivity. }
  assert (Hrun : head (rmatch (RSeq (RPlus (RChar is_hex_colon_dot))
                                    (ROpt (RChar (N.eqb 93))))
                              (body ++ rb ++ rest)) = Some rest).
  { change (head (flat_map (rmatch (ROpt (RChar (N.eqb 93))))
                    (iter_plus (rmatch (RChar is_hex_colon_dot))
                       (length (body ++ rb ++ rest)) (body ++ rb ++ rest)))
            = Some rest).
    pose proof (iter_plus_class_head is_hex_colon_dot body
                  (length (body ++ rb ++ rest)) (rb ++ rest) Hne Hall Htail) as Hh.
    rewrite length_app in Hh. specialize (Hh ltac:(lia)).
    rewrite <- length_app in Hh.
    destruct (iter_plus _ _ _) as [|y ys]; [discriminate|].
    injection Hh as ->. now apply head_flat_map_cons. }
  unfold FOR_group.
  change (head (flat_map (rmatch (RSeq (RPlus (RChar is_hex_colon_dot))
                                       (ROpt (RChar (N.eqb 93)))))
                  (rmatch (ROpt (RChar (N.eqb 91))) (lb ++ body ++ rb ++ rest)))
          = Some rest).
  destruct Hlb as [->| ->].
  - destruct body as [|c body]; [contradiction|].
    simpl in Hall. apply andb_true_iff in Hall as [Hc Hall'].
    assert (H91 : (91 =? c) = false).
    { apply N.eqb_neq. intros <-. discriminate Hc. }
    change ([] ++ (c :: body) ++ rb ++ rest) with (c :: body ++ rb ++ rest).
    cbn [rmatch]. rewrite H91. cbn [app].
    apply head_flat_map_cons. exact Hrun.
  - change ([91] ++ body ++ rb ++ rest) with (91 :: body ++ rb ++ rest).
    cbn [rmatch]. rewrite N.eqb_refl. cbn [app].
    apply head_flat_map_cons. exact Hrun.
Qed.

Lemma regex_exec_here pre grp s cap :
  match_here pre grp s = Some cap -> regex_exec pre grp s = Some cap.
Proof. intros Hm. destruct s; simpl; now rewrite Hm. Qed.

(** The capture of the pattern on such a text: brackets included. *)
Lemma match_for_capture lb body rb rest :
  lb = [] \/ lb = [91] ->
  body <> [] -> forallb is_hex_colon_dot body = true ->
  rb = [93]
  \/ (rb = [] /\ starts_outside (fun c => is_hex_colon_dot c || (c =? 93)) rest) ->
  match_for (js "for=" ++ lb ++ body ++ rb ++ rest) = Some (lb ++ body ++ rb).
Proof.
  intros Hlb Hne Hall Hrb.
  pose proof (FOR_group_head lb body rb rest Hlb Hne Hall Hrb) as Hh.
  assert (Hm : match_here FOR_prefix FOR_group
                 (js "for=" ++ lb ++ body ++ rb ++ rest)
               = Some (lb ++ body ++ rb)).
  { unfold match_here, FOR_prefix. rewrite rmatch_rlit.
    cbn [flat_map]. rewrite app_nil_r.
    destruct (rmatch FOR_group _) as [|y ys]; [discriminate|].
    injection Hh as ->. cbn [map head].
    f_equal. replace (lb ++ body ++ rb ++ rest)
      with ((lb ++ body ++ rb) ++ rest) by now rewrite <- !app_assoc.
    apply take_prefix_by_length. }
  now apply regex_exec_here.
Qed.

Lemma match_for_quoted : match_for forwarded_quoted = None.
Proof. vm_compute. reflexivity. Qed.

(** ** Concrete header sets *)

Lemma first_entry_here sep (first tail : jsstring) :
  Is_true (bool_decide (sep ∉ first)) ->
  first_entry sep (first ++ sep :: tail) first.
Proof.
  intros Hd. split; [now apply bool_decide_unpack in Hd | right; now exists tail].
Qed.

(** Closes [~ has_value h name] for concrete headers. *)
Ltac no_value :=
  let v := fresh "v" in
  let Hv := fresh "Hv" in
  let Hne := fresh "Hne" in
  intros (v & Hv & Hne); vm_compute in Hv;
  first [ discriminate Hv | injection Hv as <-; now apply Hne ].

(** ** getDevice *)

Section GetDevice.
Context {C : Constants} {R : Runtime}.

Lemma screen_width_prefix (w rest : jsstring) :
  120 ∉ w -> screen_width (w ++ 120 :: rest) = w.
Proof.
  intros Hw. unfold screen_width.
  destruct (split_first_entry 120 (w ++ 120 :: rest)) as (f & r & Hs & Hf).
  rewrite Hs. simpl. eapply first_entry_unique; [exact Hf|].
  split; [exact Hw | right; now exists rest].
Qed.

Lemma screen_width_whole (w : jsstring) : 120 ∉ w -> screen_width w = w.
Proof.
  intros Hw. unfold screen_width.
  destruct (split_first_entry 120 w) as (f & r & Hs & Hf).
  rewrite Hs. simpl. eapply first_entry_unique; [exact Hf|].
  split; [exact Hw | now left].
Qed.

Lemma getDevice_nonempty (screen os : jsstring) :
  screen <> [] ->
  getDevice (Some screen) os
  = let width := toNumber (screen_width screen) in
    if includes_str DESKTOP_OS os then
      if bool_decide (os = js "Chrome OS") || Num.lt width DESKTOP_SCREEN_WIDTH
      then Some laptop else Some desktop
    else if includes_str MOBILE_OS os then
      if bool_decide (os = js "Amazon OS") || Num.gt width MOBILE_SCREEN_WIDTH
      then Some tablet else Some mobile
    else if Num.ge width DESKTOP_SCREEN_WIDTH then Some desktop
    else if Num.ge width LAPTOP_SCREEN_WIDTH then Some laptop
    else if Num.ge width MOBILE_SCREEN_WIDTH then Some tablet
    else Some mobile.
Proof. intros Hne. destruct screen; [contradiction | reflexivity]. Qed.

Lemma includes_in (l : list jsstring) os : os ∈ l -> includes_str l os = true.
Proof. intros. now apply bool_decide_eq_true. Qed.

Lemma includes_out (l : list jsstring) os : os ∉ l -> includes_str l os = false.
Proof. intros. now apply bool_decide_eq_false. Qed.

Lemma ge_true_not_lt a b : Num.ge a b = true -> Num.lt a b = false.
Proof.
  unfold Num.ge. destruct a, b; try discriminate;
    intros H; now apply negb_true_iff in H.
Qed.

Lemma toNumber_literal (ds : string) (z : Z) :
  js ds <> [] -> forallb is_digit (js ds) = true ->
  (length (js ds) <= 15)%nat -> decimal_value (js ds) = z ->
  toNumber (js ds) = Num.of_Z z.
Proof. intros Hne Hd Hl <-. now apply toNumber_decimal. Qed.

End GetDevice.

(** Proves [sep ∉ s] for a closed string [s]. *)
Ltac not_in_literal := apply (bool_decide_unpack _); vm_compute; exact I.

(** The comparisons of the code are the order of the numbers. *)
Lemma lt_spec a b : Num.lt a b = true <-> num_lt a b.
Proof.
  split.
  - destruct a as [| |x|], b as [| |y|]; simpl; try discriminate;
      intros H; try constructor.
    apply negb_true_iff in H. apply Qnot_le_lt. intros Hle.
    apply Qle_bool_iff in Hle. congruence.
  - intros [x y Hxy| | |]; simpl; try reflexivity.
    apply negb_true_iff. destruct (Qle_bool y x) eqn:E; [|reflexivity].
    apply Qle_bool_iff in E. lra.
Qed.

Lemma gt_spec a b : Num.gt a b = true <-> num_lt b a.
Proof. apply lt_spec. Qed.

Lemma ge_spec a b : Num.ge a b = true <-> num_le b a.
Proof.
  split.
  - destruct a as [| |x|], b as [| |y|]; simpl; try discriminate; intros H;
      try (first [apply num_le_neg | apply num_le_pos]; discriminate).
    apply num_le_finite. rewrite negb_involutive in H.
    now apply Qle_bool_iff.
  - intros [y x Hyx|a' Ha|b' Hb].
    + simpl. rewrite negb_involutive. now apply Qle_bool_iff.
    + destruct a'; [contradiction | reflexivity..].
    + destruct b'; [contradiction | reflexivity..].
Qed.

Lemma num_le_not_lt a b : num_le b a -> ~ num_lt a b.
Proof.
  intros Hle Hlt. apply ge_spec in Hle. apply lt_spec in Hlt.
  apply ge_true_not_lt in Hle. congruence.
Qed.

Lemma num_le_literals (x y : Z) :
  (x <= y)%Z -> num_le (Num.of_Z x) (Num.of_Z y).
Proof. intros H. apply num_le_finite. now rewrite <- Zle_Qle. Qed.

Lemma num_lt_literals (x y : Z) :
  (x < y)%Z -> num_lt (Num.of_Z x) (Num.of_Z y).
Proof. intros H. apply num_lt_finite. now rewrite <- Zlt_Qlt. Qed.

Lemma num_lt_literals_inv (x y : Z) :
  num_lt (Num.of_Z x) (Num.of_Z y) -> (x < y)%Z.
Proof. intros H. inversion H; subst. now rewrite Zlt_Qlt. Qed.

(** C7: no screen, no device; otherwise the width is the number read
    from the text before the first [x], and the device follows from the
    family of the operating system and from where the width lies, in the
    order of the numbers, with respect to the thresholds, as the claim
    lists.  The four examples hold for every choice of constants in
    which Chrome OS is a desktop system, Amazon OS and iOS are mobile and
    not desktop systems, Windows is a desktop system or at least not a
    mobile one, the desktop threshold is at most 1920 and the mobile
    threshold is not below 375. *)
Theorem getDevice_classification {C : Constants} {R : Runtime} :
  (forall os, getDevice None os = None /\ getDevice (Some []) os = None)
  /\ (forall w rest, 120 ∉ w -> screen_width (w ++ 120 :: rest) = w)
  /\ (forall screen os, screen <> [] ->
      let width := toNumber (screen_width screen) in
      (os ∈ DESKTOP_OS ->
         (getDevice (Some screen) os = Some laptop
          <-> os = js "Chrome OS" \/ num_lt width DESKTOP_SCREEN_WIDTH)
         /\ (getDevice (Some screen) os = Some desktop
             <-> os <> js "Chrome OS" /\ ~ num_lt width DESKTOP_SCREEN_WIDTH))
      /\ (os ∉ DESKTOP_OS -> os ∈ MOBILE_OS ->
         (getDevice (Some screen) os = Some tablet
          <-> os = js "Amazon OS" \/ num_lt MOBILE_SCREEN_WIDTH width)
         /\ (getDevice (Some screen) os = Some mobile
             <-> os <> js "Amazon OS" /\ ~ num_lt MOBILE_SCREEN_WIDTH width))
      /\ (os ∉ DESKTOP_OS -> os ∉ MOBILE_OS ->
         (getDevice (Some screen) os = Some desktop
          <-> num_le DESKTOP_SCREEN_WIDTH width)
         /\ (getDevice (Some screen) os = Some laptop
             <-> ~ num_le DESKTOP_SCREEN_WIDTH width
                 /\ num_le LAPTOP_SCREEN_WIDTH width)
         /\ (getDevice (Some screen) os = Some tablet
             <-> ~ num_le DESKTOP_SCREEN_WIDTH width
                 /\ ~ num_le LAPTOP_SCREEN_WIDTH width
                 /\ num_le MOBILE_SCREEN_WIDTH width)
         /\ (getDevice (Some screen) os = Some mobile
             <-> ~ num_le DESKTOP_SCREEN_WIDTH width
                 /\ ~ num_le LAPTOP_SCREEN_WIDTH width
                 /\ ~ num_le MOBILE_SCREEN_WIDTH width)))
  /\ ((js "Windows" ∈ DESKTOP_OS \/ js "Windows" ∉ MOBILE_OS) ->
      num_le DESKTOP_SCREEN_WIDTH (Num.of_Z 1920) ->
      getDevice (Some (js "1920x1080")) (js "Windows") = Some desktop)
  /\ (js "iOS" ∉ DESKTOP_OS -> js "iOS" ∈ MOBILE_OS ->
      ~ num_lt MOBILE_SCREEN_WIDTH (Num.of_Z 375) ->
      getDevice (Some (js "375x667")) (js "iOS") = Some mobile)
  /\ (js "Amazon OS" ∉ DESKTOP_OS -> js "Amazon OS" ∈ MOBILE_OS ->
      getDevice (Some (js "1024x768")) (js "Amazon OS") = Some tablet)
  /\ (js "Chrome OS" ∈ DESKTOP_OS ->
      getDevice (Some (js "800x600")) (js "Chrome OS") = Some laptop).
Proof.
  split; [intros os; split; reflexivity|].
  split; [apply screen_width_prefix|].
  assert (Hgen : forall screen os, screen <> [] ->
      let width := toNumber (screen_width screen) in
      (os ∈ DESKTOP_OS ->
         (getDevice (Some screen) os = Some laptop
          <-> os = js "Chrome OS" \/ num_lt width DESKTOP_SCREEN_WIDTH)
         /\ (getDevice (Some screen) os = Some desktop
             <-> os <> js "Chrome OS" /\ ~ num_lt width DESKTOP_SCREEN_WIDTH))
      /\ (os ∉ DESKTOP_OS -> os ∈ MOBILE_OS ->
         (getDevice (Some screen) os = Some tablet
          <-> os = js "Amazon OS" \/ num_lt MOBILE_SCREEN_WIDTH width)
         /\ (getDevice (Some screen) os = Some mobile
             <-> os <> js "Amazon OS" /\ ~ num_lt MOBILE_SCREEN_WIDTH width))
      /\ (os ∉ DESKTOP_OS -> os ∉ MOBILE_OS ->
         (getDevice (Some screen) os = Some desktop
          <-> num_le DESKTOP_SCREEN_WIDTH width)
         /\ (getDevice (Some screen) os = Some laptop
             <-> ~ num_le DESKTOP_SCREEN_WIDTH width
                 /\ num_le LAPTOP_SCREEN_WIDTH width)
         /\ (getDevice (Some screen) os = Some tablet
             <-> ~ num_le DESKTOP_SCREEN_WIDTH width
                 /\ ~ num_le LAPTOP_SCREEN_WIDTH width
                 /\ num_le MOBILE_SCREEN_WIDTH width)
         /\ (getDevice (Some screen) os = Some mobile
             <-> ~ num_le DESKTOP_SCREEN_WIDTH width
                 /\ ~ num_le LAPTOP_SCREEN_WIDTH width
                 /\ ~ num_le MOBILE_SCREEN_WIDTH width))).
  { intros screen os Hne width. rewrite (getDevice_nonempty _ _ Hne).
    cbv zeta. subst width. split; [|split].
    - intros Hd. rewrite (includes_in _ _ Hd), <- lt_spec.
      destruct (bool_decide_reflect (os = js "Chrome OS")) as [Hos|Hos];
        destruct (Num.lt _ DESKTOP_SCREEN_WIDTH); cbn [orb];
        (split; split; intros H; intuition (discriminate || congruence)).
    - intros Hd Hm.
      rewrite (includes_out _ _ Hd), (includes_in _ _ Hm), <- gt_spec.
      destruct (bool_decide_reflect (os = js "Amazon OS")) as [Hos|Hos];
        destruct (Num.gt _ MOBILE_SCREEN_WIDTH); cbn [orb];
        (split; split; intros H; intuition (discriminate || congruence)).
    - intros Hd Hm.
      rewrite (includes_out _ _ Hd), (includes_out _ _ Hm), <- !ge_spec.
      destruct (Num.ge _ DESKTOP_SCREEN_WIDTH);
        destruct (Num.ge _ LAPTOP_SCREEN_WIDTH);
        destruct (Num.ge _ MOBILE_SCREEN_WIDTH);
        (split; [|split; [|split]]); split; intros H;
        intuition (discriminate || congruence). }
  split; [exact Hgen|].
  assert (Hw : forall (w h : string) z,
             120 ∉ js w -> js w <> [] -> forallb is_digit (js w) = true ->
             (length (js w) <= 15)%nat -> decimal_value (js w) = z ->
             toNumber (screen_width (js w ++ 120 :: js h)) = Num.of_Z z).
  { intros w h z Hx Hne Hd Hl Hz. rewrite (screen_width_prefix _ _ Hx).
    now apply toNumber_literal. }
  split; [|split; [|split]].
  - intros Hos Hle.
    destruct (Hgen (js "1920x1080") (js "Windows") ltac:(discriminate))
      as (Hdesk & _ & Hother).
    change (js "1920x1080") with (js "1920" ++ 120 :: js "1080") in *.
    assert (E : toNumber (screen_width (js "1920" ++ 120 :: js "1080"))
                = Num.of_Z 1920).
    { apply (Hw "1920"%string "1080"%string);
        [not_in_literal | discriminate | reflexivity | simpl; lia
         | reflexivity]. }
    rewrite E in Hdesk, Hother.
    destruct (decide (js "Windows" ∈ DESKTOP_OS)) as [Hin|Hout].
    + apply (proj2 (proj2 (Hdesk Hin))). split; [vm_compute; discriminate|].
      now apply num_le_not_lt.
    + destruct Hos as [Hin|Hm]; [contradiction|].
      now apply (proj2 (proj1 (Hother Hout Hm))).
  - intros Hd Hm Hgt.
    destruct (Hgen (js "375x667") (js "iOS") ltac:(discriminate))
      as (_ & Hmob & _).
    change (js "375x667") with (js "375" ++ 120 :: js "667") in *.
    assert (E : toNumber (screen_width (js "375" ++ 120 :: js "667"))
                = Num.of_Z 375).
    { apply (Hw "375"%string "667"%string);
        [not_in_literal | discriminate | reflexivity | simpl; lia
         | reflexivity]. }
    rewrite E in Hmob.
    apply (proj2 (proj2 (Hmob Hd Hm))).
    split; [vm_compute; discriminate | exact Hgt].
  - intros Hd Hm.
    destruct (Hgen (js "1024x768") (js "Amazon OS") ltac:(discriminate))
      as (_ & Hmob & _).
    apply (proj2 (proj1 (Hmob Hd Hm))). now left.
  - intros Hd.
    destruct (Hgen (js "800x600") (js "Chrome OS") ltac:(discriminate))
      as (Hdesk & _).
    apply (proj2 (proj1 (Hdesk Hd))). now left.
Qed.

Lemma getDevice_classification_witness :
  @getDevice Sample.constants Sample.runtime
    (Some (js "1920x1080")) (js "Windows") = Some desktop
  /\ @getDevice Sample.constants Sample.runtime
       (Some (js "375x667")) (js "iOS") = Some mobile
  /\ @getDevice Sample.constants Sample.runtime
       (Some (js "1024x768")) (js "Amazon OS") = Some tablet
  /\ @getDevice Sample.constants Sample.runtime
       (Some (js "800x600")) (js "Chrome OS") = Some laptop
  /\ @getDevice Sample.constants Sample.runtime
       (Some (js "800x600")) (js "Linux") = Some laptop
  /\ @getDevice Sample.constants Sample.runtime
       (Some (js "480x800")) (js "Android OS") = Some tablet.
Proof.
  pose proof (@getDevice_classification Sample.constants Sample.runtime)
    as (_ & _ & Hgen & Hwin & Hios & Hamazon & Hchrome).
  split; [|split; [|split; [|split; [|split]]]].
  - apply Hwin; [right; not_in_literal|]. now apply num_le_literals.
  - apply Hios; [not_in_literal | |].
    + apply (bool_decide_unpack _); vm_compute; exact I.
    + intros H. apply num_lt_literals_inv in H. lia.
  - apply Hamazon; [not_in_literal |].
    apply (bool_decide_unpack _); vm_compute; exact I.
  - apply Hchrome. apply (bool_decide_unpack _); vm_compute; exact I.
  - refine (proj2 (proj1 (proj1 (Hgen (js "800x600") (js "Linux") _) _)) _).
    + discriminate.
    + apply (bool_decide_unpack _); vm_compute; exact I.
    + right. apply (num_lt_literals 800 1920). lia.
  - refine (proj2 (proj1 (proj1 (proj2
              (Hgen (js "480x800") (js "Android OS") _)) _ _)) _).
    + discriminate.
    + not_in_literal.
    + apply (bool_decide_unpack _); vm_compute; exact I.
    + right. apply (num_lt_literals 479 480). lia.
Defined.

(** C10: a non-empty screen whose width does not read as a number still
    gets a device, without an exception: every comparison with a
    threshold is false, so a desktop system other than Chrome OS is a
    [desktop], a mobile system other than Amazon OS is a [mobile], and a
    system of neither family is a [mobile]. *)
Theorem getDevice_total_on_malformed_width
    {C : Constants} {R : Runtime} (screen os : jsstring) :
  screen <> [] ->
  toNumber (screen_width screen) = NaN ->
  (Num.lt (toNumber (screen_width screen)) DESKTOP_SCREEN_WIDTH = false
   /\ Num.gt (toNumber (screen_width screen)) MOBILE_SCREEN_WIDTH = false
   /\ Num.ge (toNumber (screen_width screen)) DESKTOP_SCREEN_WIDTH = false
   /\ Num.ge (toNumber (screen_width screen)) LAPTOP_SCREEN_WIDTH = false
   /\ Num.ge (toNumber (screen_width screen)) MOBILE_SCREEN_WIDTH = false)
  /\ exists d, getDevice (Some screen) os = Some d
     /\ (os ∈ DESKTOP_OS -> os <> js "Chrome OS" -> d = desktop)
     /\ (os ∉ DESKTOP_OS -> os ∈ MOBILE_OS -> os <> js "Amazon OS" -> d = mobile)
     /\ (os ∉ DESKTOP_OS -> os ∉ MOBILE_OS -> d = mobile).
Proof.
  intros Hne Hnan. rewrite Hnan.
  assert (Hlt : forall t, Num.lt NaN t = false) by reflexivity.
  assert (Hgt : forall t, Num.gt NaN t = false) by (now intros []).
  assert (Hge : forall t, Num.ge NaN t = false) by reflexivity.
  split; [now rewrite Hlt, Hgt, !Hge|].
  rewrite (getDevice_nonempty _ _ Hne). cbv zeta. rewrite Hnan.
  rewrite Hlt, Hgt, !Hge, !orb_false_r.
  destruct (includes_str DESKTOP_OS os) eqn:Ed;
    [|destruct (includes_str MOBILE_OS os) eqn:Em].
  - apply bool_decide_eq_true in Ed.
    destruct (decide (os = js "Chrome OS")) as [Hc|Hc].
    + rewrite (bool_decide_true _ Hc). exists laptop.
      repeat split; try contradiction; intros; contradiction.
    + rewrite (bool_decide_false _ Hc). exists desktop.
      repeat split; try reflexivity; intros; contradiction.
  - apply bool_decide_eq_false in Ed. apply bool_decide_eq_true in Em.
    destruct (decide (os = js "Amazon OS")) as [Ha|Ha].
    + rewrite (bool_decide_true _ Ha). exists tablet.
      repeat split; intros; contradiction.
    + rewrite (bool_decide_false _ Ha). exists mobile.
      repeat split; intros; try reflexivity; contradiction.
  - apply bool_decide_eq_false in Ed. apply bool_decide_eq_false in Em.
    exists mobile. repeat split; intros; try reflexivity; contradiction.
Qed.

Lemma getDevice_total_on_malformed_width_witness :
  exists d,
    @getDevice Sample.constants Sample.runtime
      (Some (js "widex600")) (js "Linux") = Some d
    /\ (js "Linux" ∈ @DESKTOP_OS Sample.constants ->
        js "Linux" <> js "Chrome OS" -> d = desktop)
    /\ (js "Linux" ∉ @DESKTOP_OS Sample.constants ->
        js "Linux" ∈ @MOBILE_OS Sample.constants ->
        js "Linux" <> js "Amazon OS" -> d = mobile)
    /\ (js "Linux" ∉ @DESKTOP_OS Sample.constants ->
        js "Linux" ∉ @MOBILE_OS Sample.constants -> d = mobile).
Proof.
  refine (proj2 (@getDevice_total_on_malformed_width
                   Sample.constants Sample.runtime
                   (js "widex600") (js "Linux") _ _)).
  - discriminate.
  - vm_compute. reflexivity.
Defined.

(** ** getRegionCode, decodeHeader and getLocation *)

Lemma getRegionCode_absent country region :
  JS.truthy country = false \/ JS.truthy region = false ->
  getRegionCode country region = None.
Proof.
  intros [H|H]; unfold getRegionCode; rewrite H; simpl;
    [reflexivity | now rewrite orb_true_r].
Qed.

Lemma getRegionCode_hyphenated c r :
  c <> [] -> 45 ∈ r -> getRegionCode (Some c) (Some r) = Some r.
Proof.
  intros Hc Hr. unfold getRegionCode.
  assert (Hi : JS.includes 45 r = true).
  { unfold JS.includes. apply existsb_exists. exists 45.
    split; [now apply list_elem_of_In | apply N.eqb_refl]. }
  destruct c; [contradiction|]. destruct r; [inversion Hr|].
  simpl JS.truthy. cbn [negb orb from_option]. unfold id. now rewrite Hi.
Qed.

Lemma getRegionCode_composed c r :
  c <> [] -> r <> [] -> 45 ∉ r ->
  getRegionCode (Some c) (Some r) = Some (c ++ js "-" ++ r).
Proof.
  intros Hc Hr Hn. unfold getRegionCode.
  assert (Hi : JS.includes 45 r = false).
  { unfold JS.includes. destruct (existsb _ r) eqn:E; [|reflexivity].
    apply existsb_exists in E as (x & Hx & He). apply N.eqb_eq in He. subst x.
    exfalso. apply Hn. now apply list_elem_of_In. }
  destruct c; [contradiction|]. destruct r; [contradiction|].
  simpl JS.truthy. cbn [negb orb from_option]. unfold id. now rewrite Hi.
Qed.

Lemma latin1_bytes_of_bytes s :
  Forall (fun c => c < 256) s -> latin1_bytes s = s.
Proof.
  induction 1 as [|c s Hc _ IH]; [reflexivity|].
  simpl. rewrite IH. f_equal.
  change 255 with (N.ones 8). rewrite N.land_ones. now apply N.mod_small.
Qed.

Lemma cleanIp_port (a port : jsstring) :
  58 ∉ a -> cleanIp (a ++ 58 :: port) = a.
Proof.
  intros Ha. unfold cleanIp.
  destruct (split_first_entry 58 (a ++ 58 :: port)) as (f & r & Hs & Hf).
  rewrite Hs. simpl. eapply first_entry_unique; [exact Hf|].
  split; [exact Ha | right; now exists port].
Qed.

Lemma cleanIp_no_colon (a : jsstring) : 58 ∉ a -> cleanIp a = a.
Proof.
  intros Ha. unfold cleanIp.
  destruct (split_first_entry 58 a) as (f & r & Hs & Hf).
  rewrite Hs. simpl. eapply first_entry_unique; [exact Hf|].
  split; [exact Ha | now left].
Qed.

Section GetLocation.
Context {R : Runtime} {G : GeoLib}.
Variables (env : Env) (ip : jsstring) (headers : Headers).

Lemma getLocation_local hasPayloadIP (w : World) :
  isLocalhost ip = true ->
  getLocation env ip headers hasPayloadIP w = (Return None, w).
Proof. intros Hl. unfold getLocation. now rewrite Hl. Qed.

(** The header block is skipped for a payload IP and when the skip
    variable is set to a non-empty value. *)
Lemma location_from_headers_gated hasPayloadIP :
  hasPayloadIP = true \/ JS.truthy (SKIP_LOCATION_HEADERS env) = true ->
  location_from_headers env headers hasPayloadIP = None.
Proof.
  intros [-> | Hs]; unfold location_from_headers; [reflexivity|].
  rewrite Hs. now rewrite andb_false_r.
Qed.

Lemma location_from_headers_cloudflare :
  JS.truthy (SKIP_LOCATION_HEADERS env) = false ->
  has_value headers (js "cf-ipcountry") ->
  location_from_headers env headers false
  = Some (header_location headers (js "cf-ipcountry")
            (js "cf-region-code") (js "cf-ipcity")).
Proof.
  intros Hs Hv. apply truthy_has_value in Hv.
  unfold location_from_headers. now rewrite Hs, Hv.
Qed.

(** The database branch with the handle already open. *)
Lemma getLocation_database hasPayloadIP (w : World) r :
  isLocalhost ip = false ->
  location_from_headers env headers hasPayloadIP = None ->
  global_MAXMIND w = Some r ->
  getLocation env ip headers hasPayloadIP w
  = (Return (record_location <$> reader_get r (cleanIp ip)),
     {| global_MAXMIND := Some r;
        db_log := db_log w ++ [DbGet (cleanIp ip)] |}).
Proof.
  intros Hl Hh Hg. unfold getLocation, ensure_open.
  rewrite Hl, Hh, Hg. simpl. rewrite Hg.
  now destruct (reader_get r (cleanIp ip)).
Qed.

(** The database branch on the first call: the file is opened first. *)
Lemma getLocation_database_first hasPayloadIP (w : World) r :
  isLocalhost ip = false ->
  location_from_headers env headers hasPayloadIP = None ->
  global_MAXMIND w = None ->
  maxmind_open (db_path env) = Some r ->
  getLocation env ip headers hasPayloadIP w
  = (Return (record_location <$> reader_get r (cleanIp ip)),
     {| global_MAXMIND := Some r;
        db_log := db_log w ++ [DbOpen (db_path env)] ++ [DbGet (cleanIp ip)] |}).
Proof.
  intros Hl Hh Hg Ho. unfold getLocation, ensure_open.
  rewrite Hl, Hh, Hg, Ho. simpl. rewrite <- app_assoc.
  now destruct (reader_get r (cleanIp ip)).
Qed.

End GetLocation.

(** What a database record yields: the primary country code, else the
    registered one; the region composed from the first subdivision; the
    English city name. *)
Lemma record_location_fields (result : Maxmind.CityResponse) :
  let primary := chain (Maxmind.country result) Maxmind.iso_code in
  let registered :=
    chain (Maxmind.registered_country result) Maxmind.iso_code in
  let subdivision :=
    chain (chain (Maxmind.subdivisions result) head) Maxmind.iso_code in
  (forall c, primary = Some c -> country (record_location result) = Some c)
  /\ (primary = None -> country (record_location result) = registered)
  /\ region (record_location result)
     = getRegionCode (country (record_location result)) subdivision
  /\ city (record_location result)
     = chain (chain (Maxmind.city result) Maxmind.names) Maxmind.en.
Proof.
  cbv zeta. unfold record_location. simpl. repeat split.
  - intros c ->. reflexivity.
  - intros ->. reflexivity.
Qed.

(** C6, as the code has it: for an address that is not local, not
    supplied by the payload, and with the skip variable unset or empty,
    a [cf-ipcountry] header with a non-empty value makes [getLocation]
    return at once, the database untouched: country and city are the
    [cf-ipcountry] and [cf-ipcity] values, the region is [getRegionCode]
    of the country and the [cf-region-code] value, each header value
    re-decoded on its own (its code units taken as bytes and read as
    UTF-8; a missing header stays missing).  For a payload address or a
    non-empty skip variable the headers have no influence on the
    result. *)
Theorem cloudflare_fast_path
    {R : Runtime} {G : GeoLib} (env : Env) (ip : jsstring)
    (headers : Headers) (w : World) :
  (forall v,
      isLocalhost ip = false ->
      JS.truthy (SKIP_LOCATION_HEADERS env) = false ->
      Headers_get headers (js "cf-ipcountry") = Some v -> v <> [] ->
      let country := Some (utf8_decode (latin1_bytes v)) in
      getLocation env ip headers false w
      = (Return (Some {|
           country := country;
           region := getRegionCode country
                       (decodeHeader (Headers_get headers (js "cf-region-code")));
           city := decodeHeader (Headers_get headers (js "cf-ipcity")) |}),
         w))
  /\ (forall s, decodeHeader (Some s) = Some (utf8_decode (latin1_bytes s)))
  /\ decodeHeader None = None
  /\ (forall s, Forall (fun c => c < 256) s -> latin1_bytes s = s)
  /\ (forall hasPayloadIP headers',
        hasPayloadIP = true \/ JS.truthy (SKIP_LOCATION_HEADERS env) = true ->
        getLocation env ip headers hasPayloadIP w
        = getLocation env ip headers' hasPayloadIP w).
Proof.
  split; [|split; [|split; [|split]]].
  - intros v Hl Hs Hv Hne country0.
    assert (Hh : has_value headers (js "cf-ipcountry")) by now exists v.
    unfold getLocation.
    rewrite Hl, (location_from_headers_cloudflare env headers Hs Hh).
    unfold header_location. rewrite Hv. reflexivity.
  - reflexivity.
  - reflexivity.
  - apply latin1_bytes_of_bytes.
  - intros hp headers' Hgate. unfold getLocation.
    now rewrite !(location_from_headers_gated env _ hp Hgate).
Qed.

Lemma cloudflare_fast_path_witness :
  @getLocation Sample.runtime Sample.geo Sample.no_env (js "8.8.8.8")
    (Sample.headers [("cf-ipcountry"%string, js "BR");
                     ("cf-region-code"%string, js "SP");
                     ("cf-ipcity"%string, js "S" ++ [195; 163] ++ js "o Paulo")])
    false Sample.fresh
  = (Return (Some {| country := Some (js "BR");
                     region := Some (js "BR-SP");
                     city := Some (js "S" ++ [227] ++ js "o Paulo") |}),
     Sample.fresh).
Proof.
  refine (proj1 (@cloudflare_fast_path Sample.runtime Sample.geo
                   Sample.no_env (js "8.8.8.8") _ Sample.fresh)
            (js "BR") _ _ _ _).
  - reflexivity.
  - reflexivity.
  - vm_compute. reflexivity.
  - discriminate.
Defined.

(** C6 as stated fails: with a [cf-ipcountry] header that is present but
    empty the call does not return from the headers; it opens the
    database and looks the address up. *)
Lemma present_empty_country_header_reaches_database :
  let headers := Sample.headers [("cf-ipcountry"%string, [])] in
  let result :=
    @getLocation Sample.runtime Sample.geo Sample.no_env
      (js "8.8.8.8") headers false Sample.fresh in
  Headers_get headers (js "cf-ipcountry") = Some []
  /\ @isLocalhost Sample.geo (js "8.8.8.8") = false
  /\ fst result = Return (Some (record_location Sample.mountain_view))
  /\ db_log (snd result)
     = [DbOpen (js "/app/geo/GeoLite2-City.mmdb"); DbGet (js "8.8.8.8")].
Proof. vm_compute. repeat split. Qed.

(** C3 at an IPv6 address: [ip.split(':')[0]] keeps only the text before
    the first colon, so the database is asked for [2001], not for the
    address. *)
Theorem ipv6_lookup_key_is_truncated
    {R : Runtime} {G : GeoLib} (env : Env) (headers : Headers)
    (hasPayloadIP : bool) (w : World) (r : reader) :
  isLocalhost (js "2001:db8::1") = false ->
  location_from_headers env headers hasPayloadIP = None ->
  global_MAXMIND w = Some r ->
  cleanIp (js "2001:db8::1") = js "2001"
  /\ getLocation env (js "2001:db8::1") headers hasPayloadIP w
     = (Return (record_location <$> reader_get r (js "2001")),
        {| global_MAXMIND := Some r;
           db_log := db_log w ++ [DbGet (js "2001")] |}).
Proof.
  intros Hl Hh Hg. split; [reflexivity|].
  now rewrite (getLocation_database env _ headers hasPayloadIP w r Hl Hh Hg).
Qed.

Lemma ipv6_lookup_key_is_truncated_witness :
  cleanIp (js "2001:db8::1") = js "2001"
  /\ @getLocation Sample.runtime Sample.geo Sample.no_env
       (js "2001:db8::1") (Sample.headers []) true (Sample.ready [])
     = (Return None, Sample.ready [DbGet (js "2001")]).
Proof.
  refine (@ipv6_lookup_key_is_truncated Sample.runtime Sample.geo
            Sample.no_env (Sample.headers []) true (Sample.ready []) tt
            _ _ _);
    reflexivity.
Defined.

(** ** hasBlockedIp *)

Section Blocklist.
Context {L : IpAddrLib}.
Variable clientIp : jsstring.

Lemma blocks_true e : blocks clientIp e = Return true <-> entry_matches clientIp e.
Proof.
  unfold blocks, entry_matches. case_bool_decide as He.
  - split; [now left | reflexivity].
  - destruct (0 <? JS.indexOf 47 e)%Z eqn:Ei.
    + apply Z.ltb_lt in Ei.
      destruct (parse clientIp) as [a|] eqn:Ea;
        [destruct (parseCIDR e) as [r|] eqn:Er|].
      * destruct (bool_decide (kind a = kind (fst r)) && address_match a r) eqn:Eb.
        -- apply andb_true_iff in Eb as [Hk Hm]. apply bool_decide_eq_true in Hk.
           split; [|reflexivity]. intros _. right. split; [exact Ei|].
           now exists a, r.
        -- split; [discriminate|]. intros [?|[_ (a' & r' & Ha & Hr & Hk & Hm)]];
             [contradiction|].
           injection Ha as <-. injection Hr as <-.
           apply andb_false_iff in Eb as [Hb|Hb];
             [apply bool_decide_eq_false in Hb; contradiction | congruence].
      * split; [discriminate|].
        intros [?|[_ (a' & r' & _ & Hr & _)]]; [contradiction | discriminate].
      * split; [discriminate|].
        intros [?|[_ (a' & r' & Ha & _)]]; [contradiction | discriminate].
    + apply Z.ltb_ge in Ei. split; [discriminate|].
      intros [?|[Hi _]]; [contradiction | lia].
Qed.

Lemma blocks_false e : blocks clientIp e = Return false <-> entry_passes clientIp e.
Proof.
  unfold blocks, entry_passes. case_bool_decide as He.
  - split; [discriminate | intros [Hne _]; contradiction].
  - destruct (0 <? JS.indexOf 47 e)%Z eqn:Ei.
    + apply Z.ltb_lt in Ei.
      destruct (parse clientIp) as [a|] eqn:Ea;
        [destruct (parseCIDR e) as [r|] eqn:Er|].
      * destruct (bool_decide (kind a = kind (fst r)) && address_match a r) eqn:Eb.
        -- apply andb_true_iff in Eb as [Hk Hm]. apply bool_decide_eq_true in Hk.
           split; [discriminate|].
           intros [_ [Hi|(a' & r' & Ha & Hr & Hno)]]; [lia|].
           injection Ha as <-. injection Hr as <-.
           destruct Hno; [contradiction | congruence].
        -- split; [|reflexivity]. intros _. split; [exact He|]. right.
           exists a, r. repeat split.
           apply andb_false_iff in Eb as [Hb|Hb];
             [left; now apply bool_decide_eq_false in Hb | now right].
      * split; [discriminate|].
        intros [_ [Hi|(a' & r' & _ & Hr & _)]]; [lia | discriminate].
      * split; [discriminate|].
        intros [_ [Hi|(a' & r' & Ha & _)]]; [lia | discriminate].
    + apply Z.ltb_ge in Ei. split; [|reflexivity].
      intros _. split; [exact He | now left].
Qed.

Lemma blocks_throw e : blocks clientIp e = Throw <-> entry_throws clientIp e.
Proof.
  unfold blocks, entry_throws. case_bool_decide as He.
  - split; [discriminate | intros [Hne _]; contradiction].
  - destruct (0 <? JS.indexOf 47 e)%Z eqn:Ei.
    + apply Z.ltb_lt in Ei.
      destruct (parse clientIp) as [a|] eqn:Ea;
        [destruct (parseCIDR e) as [r|] eqn:Er|].
      * split.
        -- now destruct (_ && _).
        -- intros (_ & _ & [?|?]); discriminate.
      * split; [|reflexivity]. intros _. repeat split; auto.
      * split; [|reflexivity]. intros _. repeat split; auto.
    + apply Z.ltb_ge in Ei. split; [discriminate|]. intros (_ & Hi & _). lia.
Qed.

Lemma find_blocked_entry ips e :
  find_blocked clientIp ips = Return (VString e)
  <-> exists pre post, ips = pre ++ e :: post
                       /\ Forall (entry_passes clientIp) pre
                       /\ entry_matches clientIp e.
Proof.
  induction ips as [|ip rest IH]; simpl.
  - split; [discriminate|]. intros (pre & post & Hl & _).
    destruct pre; discriminate.
  - destruct (blocks clientIp ip) as [[|]|] eqn:Eb.
    + apply blocks_true in Eb. split.
      * intros [= <-]. exists [], rest. repeat split; [constructor | exact Eb].
      * intros (pre & post & Hl & Hp & Hm). destruct pre as [|p pre].
        -- now injection Hl as ->.
        -- injection Hl as <- _. apply Forall_cons in Hp as [Hp _].
           apply blocks_false in Hp. apply blocks_true in Eb. congruence.
    + rewrite IH. apply blocks_false in Eb. split.
      * intros (pre & post & -> & Hp & Hm). exists (ip :: pre), post.
        repeat split; [now constructor | exact Hm].
      * intros (pre & post & Hl & Hp & Hm). destruct pre as [|p pre].
        -- injection Hl as <- _. apply blocks_true in Hm.
           apply blocks_false in Eb. congruence.
        -- injection Hl as <- ->. apply Forall_cons in Hp as [_ Hp].
           now exists pre, post.
    + split; [discriminate|].
      intros (pre & post & Hl & Hp & Hm). destruct pre as [|p pre].
      * injection Hl as <- _. apply blocks_true in Hm. congruence.
      * injection Hl as <- _. apply Forall_cons in Hp as [Hp _].
        apply blocks_false in Hp. congruence.
Qed.

Lemma find_blocked_undefined ips :
  find_blocked clientIp ips = Return VUndefined
  <-> Forall (entry_passes clientIp) ips.
Proof.
  induction ips as [|ip rest IH]; simpl.
  - split; [constructor | reflexivity].
  - destruct (blocks clientIp ip) as [[|]|] eqn:Eb.
    + split; [discriminate|]. intros Hall. apply Forall_cons in Hall as [Hp _].
      apply blocks_false in Hp. congruence.
    + rewrite IH. apply blocks_false in Eb. split.
      * intros Hr. now constructor.
      * intros Hall. now apply Forall_cons in Hall as [_ Hr].
    + split; [discriminate|]. intros Hall. apply Forall_cons in Hall as [Hp _].
      apply blocks_false in Hp. congruence.
Qed.

Lemma find_blocked_throw ips :
  find_blocked clientIp ips = Throw
  <-> exists pre e post, ips = pre ++ e :: post
                         /\ Forall (entry_passes clientIp) pre
                         /\ entry_throws clientIp e.
Proof.
  induction ips as [|ip rest IH]; simpl.
  - split; [discriminate|]. intros (pre & e & post & Hl & _).
    destruct pre; discriminate.
  - destruct (blocks clientIp ip) as [[|]|] eqn:Eb.
    + split; [discriminate|].
      intros (pre & e & post & Hl & Hp & Ht). destruct pre as [|p pre].
      * injection Hl as <- _. apply blocks_throw in Ht. congruence.
      * injection Hl as <- _. apply Forall_cons in Hp as [Hp _].
        apply blocks_false in Hp. congruence.
    + rewrite IH. apply blocks_false in Eb. split.
      * intros (pre & e & post & -> & Hp & Ht). exists (ip :: pre), e, post.
        repeat split; try apply Ht. now constructor.
      * intros (pre & e & post & Hl & Hp & Ht). destruct pre as [|p pre].
        -- injection Hl as <- _. apply blocks_throw in Ht.
           apply blocks_false in Eb. congruence.
        -- injection Hl as <- ->. apply Forall_cons in Hp as [_ Hp].
           now exists pre, e, post.
    + apply blocks_throw in Eb. split; [|reflexivity].
      intros _. exists [], ip, rest. repeat split; try apply Eb. constructor.
Qed.

Lemma find_blocked_not_bool ips b :
  find_blocked clientIp ips <> Return (VBool b).
Proof.
  induction ips as [|ip rest IH]; simpl; [discriminate|].
  destruct (blocks clientIp ip) as [[|]|]; [discriminate | exact IH | discriminate].
Qed.

Lemma hasBlockedIp_configured env cfg :
  IGNORE_IP env = Some cfg -> cfg <> [] ->
  hasBlockedIp env clientIp
  = find_blocked clientIp (map JS.trim (JS.split 44 cfg)).
Proof.
  intros Hc Hne. unfold hasBlockedIp. rewrite Hc.
  destruct cfg; [contradiction | reflexivity].
Qed.

End Blocklist.

(** C4, as the code has it: without a blocklist the result is [false].
    With one, the entries are the trimmed pieces between commas, and the
    result is the outcome of [find], never a boolean: the first entry
    that matches (the entry itself, a string) provided every entry before
    it was passed over; [undefined] when all entries are passed over; an
    exception when an entry is reached at which a parser fails.  An entry
    matches when it equals the candidate, or has a [/] after its first
    character and holds the candidate, both of the same kind; a range of
    the other kind is passed over.  So, given that the library reads
    [10.1.2.3] and [192.168.1.1] as addresses and [10.0.0.0/8] as a range
    of their kind holding the first and not the second, the entry
    [10.0.0.0/8] is returned for [10.1.2.3] and [undefined] for
    [192.168.1.1]; and the entry [1.2.3.4] is returned for the candidate
    [1.2.3.4] and [undefined] for any other. *)
Theorem hasBlockedIp_result
    {L : IpAddrLib} (env : Env) (clientIp : jsstring) :
  (JS.truthy (IGNORE_IP env) = false ->
   hasBlockedIp env clientIp = Return (VBool false))
  /\ (forall cfg, IGNORE_IP env = Some cfg -> cfg <> [] ->
      let ips := map JS.trim (JS.split 44 cfg) in
      (forall e, hasBlockedIp env clientIp = Return (VString e)
                 <-> exists pre post, ips = pre ++ e :: post
                       /\ Forall (entry_passes clientIp) pre
                       /\ entry_matches clientIp e)
      /\ (hasBlockedIp env clientIp = Return VUndefined
          <-> Forall (entry_passes clientIp) ips)
      /\ (hasBlockedIp env clientIp = Throw
          <-> exists pre e post, ips = pre ++ e :: post
                /\ Forall (entry_passes clientIp) pre
                /\ entry_throws clientIp e)
      /\ (forall b, hasBlockedIp env clientIp <> Return (VBool b)))
  /\ (IGNORE_IP env = Some (js "10.0.0.0/8") ->
      forall a r, parse clientIp = Some a ->
                  parseCIDR (js "10.0.0.0/8") = Some r ->
                  kind a = kind (fst r) ->
      (clientIp = js "10.1.2.3" -> address_match a r = true ->
       hasBlockedIp env clientIp = Return (VString (js "10.0.0.0/8")))
      /\ (clientIp = js "192.168.1.1" -> address_match a r = false ->
          hasBlockedIp env clientIp = Return VUndefined))
  /\ (IGNORE_IP env = Some (js "1.2.3.4") ->
      (clientIp = js "1.2.3.4" ->
       hasBlockedIp env clientIp = Return (VString (js "1.2.3.4")))
      /\ (clientIp <> js "1.2.3.4" ->
          hasBlockedIp env clientIp = Return VUndefined)).
Proof.
  split; [|split; [|split]].
  - intros Hf. unfold hasBlockedIp. now rewrite Hf.
  - intros cfg Hc Hne ips. subst ips.
    rewrite (hasBlockedIp_configured clientIp env cfg Hc Hne).
    split; [|split; [|split]].
    + intros e. apply find_blocked_entry.
    + apply find_blocked_undefined.
    + apply find_blocked_throw.
    + intros b. apply find_blocked_not_bool.
  - intros Hc a r Ha Hr Hk.
    rewrite (hasBlockedIp_configured clientIp env _ Hc ltac:(discriminate)).
    change (map JS.trim (JS.split 44 (js "10.0.0.0/8"))) with [js "10.0.0.0/8"].
    split.
    + intros Hip Hm. apply find_blocked_entry. exists [], [].
      repeat split; [constructor|]. right. split; [reflexivity|].
      now exists a, r.
    + intros Hip Hm. apply find_blocked_undefined.
      constructor; [|constructor]. split.
      * rewrite Hip. discriminate.
      * right. exists a, r. repeat split; try assumption. now right.
  - intros Hc.
    rewrite (hasBlockedIp_configured clientIp env _ Hc ltac:(discriminate)).
    change (map JS.trim (JS.split 44 (js "1.2.3.4"))) with [js "1.2.3.4"].
    split.
    + intros ->. apply find_blocked_entry. exists [], [].
      repeat split; [constructor | now left].
    + intros Hne. apply find_blocked_undefined.
      constructor; [|constructor]. split; [congruence|]. left.
      vm_compute. discriminate.
Qed.

Lemma hasBlockedIp_result_witness :
  @hasBlockedIp Sample.ipaddr (Sample.blocklist "10.0.0.0/8") (js "10.1.2.3")
  = Return (VString (js "10.0.0.0/8"))
  /\ @hasBlockedIp Sample.ipaddr (Sample.blocklist "10.0.0.0/8")
       (js "192.168.1.1")
     = Return VUndefined.
Proof.
  split.
  - refine (proj1 (proj1 (proj2 (proj2 (@hasBlockedIp_result Sample.ipaddr
              (Sample.blocklist "10.0.0.0/8") (js "10.1.2.3"))))
              eq_refl 167838211 (167772160, 8) _ _ _) eq_refl _);
      reflexivity.
  - refine (proj2 (proj1 (proj2 (proj2 (@hasBlockedIp_result Sample.ipaddr
              (Sample.blocklist "10.0.0.0/8") (js "192.168.1.1"))))
              eq_refl 3232235777 (167772160, 8) _ _ _) eq_refl _);
      reflexivity.
Defined.

(** C4 as stated fails: for the blocklist [1.2.3.4] the candidate
    [1.2.3.4] gets the entry itself, a string, not [true], and another
    candidate gets [undefined], not [false]; for the blocklist [1.2.3.4,]
    the empty candidate equals the empty last entry and gets that empty
    string, which is not even truthy; and a candidate that cannot be
    parsed gets an exception at the range [10.0.0.0/8], not a boolean. *)
Lemma hasBlockedIp_returns_the_entry :
  @hasBlockedIp Sample.ipaddr (Sample.blocklist "1.2.3.4") (js "1.2.3.4")
  = Return (VString (js "1.2.3.4"))
  /\ @hasBlockedIp Sample.ipaddr (Sample.blocklist "1.2.3.4") (js "1.2.3.4")
     <> Return (VBool true)
  /\ @hasBlockedIp Sample.ipaddr (Sample.blocklist "1.2.3.4") (js "5.6.7.8")
     = Return VUndefined
  /\ @hasBlockedIp Sample.ipaddr (Sample.blocklist "1.2.3.4") (js "5.6.7.8")
     <> Return (VBool false)
  /\ @hasBlockedIp Sample.ipaddr (Sample.blocklist "1.2.3.4,") []
     = Return (VString [])
  /\ @hasBlockedIp Sample.ipaddr (Sample.blocklist "10.0.0.0/8")
       (js "not-an-ip")
     = Throw.
Proof. vm_compute. repeat split; discriminate. Qed.

(** C2, as the code has it: nothing catches the parsers' exceptions.
    With a blocklist configured, the check throws exactly when an entry
    is reached (every entry before it passed over) that differs from the
    candidate, has a [/] after its first character, and the candidate or
    that entry cannot be parsed; the entries after it are not looked at,
    so whatever they are the check throws.  An entry without such a [/]
    is only compared as text and cannot make the check throw: a blocklist
    of such entries never throws, nor does anything when no blocklist is
    configured. *)
Theorem hasBlockedIp_parse_failure_aborts
    {L : IpAddrLib} (env : Env) (clientIp : jsstring) :
  (forall cfg, IGNORE_IP env = Some cfg -> cfg <> [] ->
     let ips := map JS.trim (JS.split 44 cfg) in
     (hasBlockedIp env clientIp = Throw
      <-> exists pre e post,
            ips = pre ++ e :: post
            /\ Forall (entry_passes clientIp) pre
            /\ entry_throws clientIp e)
     /\ (Forall (fun e => (JS.indexOf 47 e <= 0)%Z) ips ->
         hasBlockedIp env clientIp <> Throw))
  /\ (forall pre e post,
        Forall (entry_passes clientIp) pre -> entry_throws clientIp e ->
        find_blocked clientIp (pre ++ e :: post) = Throw)
  /\ (forall e, (JS.indexOf 47 e <= 0)%Z -> blocks clientIp e <> Throw)
  /\ (JS.truthy (IGNORE_IP env) = false -> hasBlockedIp env clientIp <> Throw).
Proof.
  split; [|split; [|split]].
  - intros cfg Hc Hne ips. subst ips.
    rewrite (hasBlockedIp_configured clientIp env cfg Hc Hne).
    split; [apply find_blocked_throw|].
    intros Hall Ht. apply find_blocked_throw in Ht
      as (pre & e & post & Hl & _ & _ & Hpos & _).
    rewrite Hl in Hall. apply Forall_app in Hall as [_ Hall].
    apply Forall_cons in Hall as [Hle _]. lia.
  - intros pre e post Hp Ht. apply find_blocked_throw. now exists pre, e, post.
  - intros e Hi Ht. apply blocks_throw in Ht as (_ & Hpos & _). lia.
  - intros Hf. unfold hasBlockedIp. rewrite Hf. discriminate.
Qed.

Lemma hasBlockedIp_parse_failure_aborts_witness :
  @hasBlockedIp Sample.ipaddr (Sample.blocklist "1.2.3.4, x/8, 10.0.0.0/8")
    (js "10.1.2.3")
  = Throw.
Proof.
  refine (proj2 (proj1 (proj1 (@hasBlockedIp_parse_failure_aborts Sample.ipaddr
            (Sample.blocklist "1.2.3.4, x/8, 10.0.0.0/8") (js "10.1.2.3"))
            (js "1.2.3.4, x/8, 10.0.0.0/8") eq_refl _)) _).
  - discriminate.
  - exists [js "1.2.3.4"], (js "x/8"), [js "10.0.0.0/8"].
    split; [reflexivity|]. split.
    + constructor; [|constructor]. split; [discriminate|]. left.
      vm_compute. discriminate.
    + split; [discriminate|]. split; [reflexivity|]. right. reflexivity.
Defined.

(** C2 as stated fails: the malformed entry [x/8] makes the check throw
    although the next entry, [10.0.0.0/8], holds the candidate; and a
    malformed candidate makes it throw at the first range although a
    later entry is that very text. *)
Lemma malformed_entry_aborts_the_check :
  @hasBlockedIp Sample.ipaddr (Sample.blocklist "x/8,10.0.0.0/8")
    (js "10.1.2.3") = Throw
  /\ @hasBlockedIp Sample.ipaddr (Sample.blocklist "10.0.0.0/8")
       (js "10.1.2.3") = Return (VString (js "10.0.0.0/8"))
  /\ @hasBlockedIp Sample.ipaddr (Sample.blocklist "10.0.0.0/8,not-an-ip")
       (js "not-an-ip") = Throw
  /\ @hasBlockedIp Sample.ipaddr (Sample.blocklist "not-an-ip")
       (js "not-an-ip") = Return (VString (js "not-an-ip")).
Proof. vm_compute. repeat split. Qed.

(** ** The database handle under interleaved calls *)

Module InitFacts.
Import Init.
Local Open Scope nat_scope.

Lemma waiting_replicate n : waiting (replicate n Waiting) = n.
Proof. induction n; simpl; congruence. Qed.

Lemma waiting_insert (l : list call) : forall i c c',
  l !! i = Some c ->
  (waiting (<[i := c']> l) + weight c = waiting l + weight c')%nat.
Proof.
  induction l as [|d l IH]; intros i c c' Hl; [destruct i; discriminate|].
  destruct i as [|i]; simpl in *.
  - injection Hl as ->. unfold weight. lia.
  - specialize (IH i c c' Hl). lia.
Qed.

Lemma invariant_init n : invariant n (init n).
Proof.
  split; simpl.
  - apply length_replicate.
  - rewrite waiting_replicate. lia.
  - intros i r [H|H]; apply lookup_replicate in H as [H _]; discriminate.
  - discriminate.
  - intros i r H. apply lookup_replicate in H as [H _]. discriminate.
Qed.

Lemma invariant_step n s i : invariant n s -> invariant n (step s i).
Proof.
  intros [Hlen Hop Hrd Hh Hu]. unfold step.
  destruct (calls s !! i) as [[| r | r]|] eqn:Ei;
    [destruct (handle s) as [h|] eqn:Eh | | |];
    try (split; assumption).
  - (* a waiting call finds the handle set *)
    pose proof (waiting_insert _ i _ (Using h) Ei) as Hw. unfold weight in Hw.
    simpl in Hw. split; simpl.
    + now rewrite length_insert.
    + lia.
    + intros j r [H|H]; destruct (decide (i = j)) as [->|Hne].
      * rewrite list_lookup_insert_eq in H by (apply lookup_lt_Some in Ei; lia).
        discriminate.
      * rewrite list_lookup_insert_ne in H by exact Hne. eapply Hrd; eauto.
      * rewrite list_lookup_insert_eq in H by (apply lookup_lt_Some in Ei; lia).
        injection H as <-. now apply Hh.
      * rewrite list_lookup_insert_ne in H by exact Hne. eapply Hrd; eauto.
    + intros r [= <-]. now apply Hh.
    + intros j r _. eauto.
  - (* a waiting call finds no handle and starts an open *)
    pose proof (waiting_insert _ i _ (Opening (opens s)) Ei) as Hw.
    unfold weight in Hw. simpl in Hw. split; simpl.
    + now rewrite length_insert.
    + lia.
    + intros j r [H|H]; destruct (decide (i = j)) as [->|Hne].
      * rewrite list_lookup_insert_eq in H by (apply lookup_lt_Some in Ei; lia).
        injection H as <-. lia.
      * rewrite list_lookup_insert_ne in H by exact Hne.
        assert (r < opens s)%nat by (eapply Hrd; eauto). lia.
      * rewrite list_lookup_insert_eq in H by (apply lookup_lt_Some in Ei; lia).
        discriminate.
      * rewrite list_lookup_insert_ne in H by exact Hne.
        assert (r < opens s)%nat by (eapply Hrd; eauto). lia.
    + discriminate.
    + intros j r H. destruct (decide (i = j)) as [->|Hne].
      * rewrite list_lookup_insert_eq in H by (apply lookup_lt_Some in Ei; lia).
        discriminate.
      * rewrite list_lookup_insert_ne in H by exact Hne.
        eapply Hu; eauto.
  - (* an open completes *)
    pose proof (waiting_insert _ i _ (Using r) Ei) as Hw. unfold weight in Hw.
    simpl in Hw. split; simpl.
    + now rewrite length_insert.
    + lia.
    + intros j r' [H|H]; destruct (decide (i = j)) as [->|Hne].
      * rewrite list_lookup_insert_eq in H by (apply lookup_lt_Some in Ei; lia).
        discriminate.
      * rewrite list_lookup_insert_ne in H by exact Hne. eapply Hrd; eauto.
      * rewrite list_lookup_insert_eq in H by (apply lookup_lt_Some in Ei; lia).
        injection H as <-. eapply Hrd; eauto.
      * rewrite list_lookup_insert_ne in H by exact Hne. eapply Hrd; eauto.
    + intros r' [= <-]. eapply Hrd; eauto.
    + intros j r' _. eauto.
Qed.

Lemma invariant_run n schedule : forall s,
  invariant n s -> invariant n (run schedule s).
Proof.
  induction schedule as [|i schedule IH]; intros s Hs; [exact Hs|].
  simpl. apply IH. now apply invariant_step.
Qed.

Lemma replicate_snoc {A} n (x : A) : replicate n x ++ [x] = replicate (S n) x.
Proof.
  induction n as [|n IH]; [reflexivity|].
  cbn [replicate app]. now rewrite IH.
Qed.

Lemma run_cons i schedule s : run (i :: schedule) s = run schedule (step s i).
Proof. reflexivity. Qed.

Lemma step_reuses s i r :
  calls s !! i = Some Waiting -> handle s = Some r ->
  step s i = {| handle := Some r; opens := opens s;
                calls := <[i := Using r]> (calls s) |}.
Proof. intros Hc Hh. unfold step. now rewrite Hc, Hh. Qed.

Lemma step_opens s i :
  calls s !! i = Some Waiting -> handle s = None ->
  step s i = {| handle := None; opens := S (opens s);
                calls := <[i := Opening (opens s)]> (calls s) |}.
Proof. intros Hc Hh. unfold step. now rewrite Hc, Hh. Qed.

Lemma step_completes s i r :
  calls s !! i = Some (Opening r) ->
  step s i = {| handle := Some r; opens := opens s;
                calls := <[i := Using r]> (calls s) |}.
Proof. intros Hc. unfold step. now rewrite Hc. Qed.

Lemma step_done s i r : calls s !! i = Some (Using r) -> step s i = s.
Proof. intros Hc. unfold step. now rewrite Hc. Qed.

(** Calls one after the other: the first opens, the others reuse. *)
Lemma sequential_from m : forall k,
  run (flat_map (fun i => [i; i]) (seq (S k) m))
    {| handle := Some 0; opens := 1;
       calls := replicate (S k) (Using 0) ++ replicate m Waiting |}
  = {| handle := Some 0; opens := 1; calls := replicate (S k + m) (Using 0) |}.
Proof.
  induction m as [|m IH]; intros k.
  - cbn [seq flat_map run fold_left]. now rewrite app_nil_r, Nat.add_0_r.
  - cbn [seq flat_map app]. rewrite run_cons.
    assert (Hl : (replicate (S k) (Using 0) ++ replicate (S m) Waiting) !! S k
                 = Some Waiting).
    { rewrite lookup_app_r by (rewrite length_replicate; lia).
      rewrite length_replicate, Nat.sub_diag. reflexivity. }
    assert (Hi : <[S k := Using 0]>
                   (replicate (S k) (Using 0) ++ replicate (S m) Waiting)
                 = replicate (S (S k)) (Using 0) ++ replicate m Waiting).
    { rewrite insert_app_r_alt by (rewrite length_replicate; lia).
      rewrite length_replicate, Nat.sub_diag.
      change (<[0 := Using 0]> (replicate (S m) Waiting))
        with ([Using 0] ++ replicate m Waiting).
      now rewrite app_assoc, replicate_snoc. }
    rewrite step_reuses with (r := 0) by (first [exact Hl | reflexivity]).
    cbn [calls handle opens]. rewrite Hi, run_cons.
    assert (Hl' : (replicate (S (S k)) (Using 0) ++ replicate m Waiting) !! S k
                  = Some (Using 0)).
    { rewrite lookup_app_l by (rewrite length_replicate; lia).
      apply lookup_replicate. split; [reflexivity | lia]. }
    rewrite step_done with (r := 0) by exact Hl'.
    rewrite IH. do 2 f_equal. lia.
Qed.

Lemma sequential_run n :
  0 < n ->
  run (sequential n) (init n)
  = {| handle := Some 0; opens := 1; calls := replicate n (Using 0) |}.
Proof.
  destruct n as [|m]; [lia|]. intros _.
  unfold sequential. cbn [seq flat_map app]. rewrite run_cons.
  rewrite step_opens by reflexivity. rewrite run_cons.
  rewrite step_completes with (r := 0) by reflexivity.
  exact (sequential_from m 0).
Qed.

(** Calls that all test the handle before any open has completed: each
    of them starts an open. *)
Lemma all_test_first_from m : forall k,
  run (seq k m)
    {| handle := None; opens := k;
       calls := (Opening <$> seq 0 k) ++ replicate m Waiting |}
  = {| handle := None; opens := k + m; calls := Opening <$> seq 0 (k + m) |}.
Proof.
  induction m as [|m IH]; intros k.
  - cbn [seq run fold_left]. now rewrite app_nil_r, Nat.add_0_r.
  - cbn [seq]. rewrite run_cons.
    assert (Hlen : length (Opening <$> seq 0 k) = k)
      by now rewrite length_fmap, length_seq.
    assert (Hl : ((Opening <$> seq 0 k) ++ replicate (S m) Waiting) !! k
                 = Some Waiting).
    { rewrite lookup_app_r by lia. now rewrite Hlen, Nat.sub_diag. }
    rewrite step_opens by (first [exact Hl | reflexivity]).
    cbn [calls handle opens].
    assert (Hi : <[k := Opening k]>
                   ((Opening <$> seq 0 k) ++ replicate (S m) Waiting)
                 = (Opening <$> seq 0 (S k)) ++ replicate m Waiting).
    { rewrite insert_app_r_alt by lia. rewrite Hlen, Nat.sub_diag.
      change (<[0 := Opening k]> (replicate (S m) Waiting))
        with ([Opening k] ++ replicate m Waiting).
      rewrite app_assoc. f_equal.
      rewrite seq_S, fmap_app. reflexivity. }
    rewrite Hi, IH. now replace (k + S m) with (S k + m) by lia.
Qed.

Lemma all_test_first n :
  run (seq 0 n) (init n)
  = {| handle := None; opens := n; calls := Opening <$> seq 0 n |}.
Proof. exact (all_test_first_from n 0). Qed.

End InitFacts.

(** * Further properties *)

(** ** What a match of the pattern consumes *)

Lemma forallb_weaken (p q : N -> bool) (l : list N) :
  (forall c, p c = true -> q c = true) ->
  forallb p l = true -> forallb q l = true.
Proof.
  intros Hpq. rewrite !forallb_forall. intros Hl c Hc. now apply Hpq, Hl.
Qed.

Lemma iter_plus_sound (step : list N -> list (list N)) (m : nat)
    (ok : N -> bool) :
  (forall s s', In s' (step s) ->
     exists p, s = p ++ s' /\ (m <= length p)%nat /\ forallb ok p = true) ->
  forall fuel s s', In s' (iter_plus step fuel s) ->
     exists p, s = p ++ s' /\ (m <= length p)%nat /\ forallb ok p = true.
Proof.
  intros Hstep. induction fuel as [|fuel IH]; intros s s' Hin.
  - destruct Hin.
  - simpl in Hin. apply in_flat_map in Hin as (s1 & Hs1 & Hin).
    apply Hstep in Hs1 as (p1 & -> & Hm & Hok).
    apply in_app_or in Hin as [Hin|Hin].
    + apply IH in Hin as (p2 & -> & _ & Hok2).
      exists (p1 ++ p2). rewrite <- app_assoc. split; [reflexivity|].
      rewrite length_app, forallb_app, Hok, Hok2. split; [lia | reflexivity].
    + destruct Hin as [<-|[]]. now exists p1.
Qed.

(** Every result of the matcher is what is left of the text after a
    prefix that is long enough for the pattern and made of characters
    the pattern accepts. *)
Lemma rmatch_sound r : forall s s',
  In s' (rmatch r s) ->
  exists p, s = p ++ s' /\ (min_len r <= length p)%nat
            /\ forallb (accepts_char r) p = true.
Proof.
  induction r as [|ok|a IHa b IHb|a IHa|a IHa]; intros s s' Hin.
  - destruct Hin as [<-|[]]. now exists [].
  - simpl in Hin. destruct s as [|c t]; [destruct Hin|].
    destruct (ok c) eqn:Hc; [|destruct Hin].
    destruct Hin as [<-|[]]. exists [c]. simpl.
    rewrite Hc. repeat split. lia.
  - simpl in Hin. apply in_flat_map in Hin as (s1 & Hs1 & Hin).
    apply IHa in Hs1 as (p1 & -> & Hm1 & Hok1).
    apply IHb in Hin as (p2 & -> & Hm2 & Hok2).
    exists (p1 ++ p2). rewrite <- app_assoc. split; [reflexivity|].
    rewrite length_app, forallb_app. simpl. split; [lia|].
    apply andb_true_iff. split.
    + eapply forallb_weaken; [|exact Hok1]. intros c Hc. now rewrite Hc.
    + eapply forallb_weaken; [|exact Hok2]. intros c Hc. rewrite Hc.
      apply orb_true_r.
  - simpl in Hin. apply in_app_or in Hin as [Hin|Hin].
    + apply IHa in Hin as (p & -> & _ & Hok). exists p. simpl.
      repeat split; [lia | exact Hok].
    + destruct Hin as [<-|[]]. exists []. simpl. repeat split. lia.
  - simpl in Hin. simpl.
    eapply (iter_plus_sound (rmatch a) (min_len a) (accepts_char a));
      [exact IHa | exact Hin].
Qed.

(** The capture of a match is a piece of the text, long enough for the
    group and made of characters the group accepts. *)
Lemma regex_exec_sound pre grp : forall s cap,
  regex_exec pre grp s = Some cap ->
  (exists a b, s = a ++ cap ++ b)
  /\ (min_len grp <= length cap)%nat
  /\ forallb (accepts_char grp) cap = true.
Proof.
  assert (Hhere : forall s cap, match_here pre grp s = Some cap ->
            (exists a b, s = a ++ cap ++ b)
            /\ (min_len grp <= length cap)%nat
            /\ forallb (accepts_char grp) cap = true).
  { intros s cap Hm. unfold match_here in Hm.
    apply head_Some_elem_of, list_elem_of_In, in_flat_map in Hm
      as (r1 & Hr1 & Hm).
    apply in_map_iff in Hm as (r2 & <- & Hr2).
    apply rmatch_sound in Hr1 as (p1 & -> & _ & _).
    apply rmatch_sound in Hr2 as (p2 & -> & Hlen & Hok).
    rewrite take_prefix_by_length. split; [now exists p1, r2|].
    split; assumption. }
  induction s as [|c t IH]; intros cap Hx; simpl in Hx.
  - destruct (match_here pre grp []) eqn:E; [|discriminate].
    injection Hx as ->. now apply Hhere.
  - destruct (match_here pre grp (c :: t)) eqn:E.
    + injection Hx as ->. now apply Hhere.
    + apply IH in Hx as ((a & b & ->) & Hlen & Hok).
      split; [now exists (c :: a), b|]. split; assumption.
Qed.

(** The text [match_for] captures is never empty, is a piece of the
    header value, and holds only hexadecimal digits, colons, dots and
    brackets. *)
Lemma match_for_shape v cap :
  match_for v = Some cap ->
  cap <> []
  /\ (exists a b, v = a ++ cap ++ b)
  /\ Forall (fun c => is_hex_colon_dot c = true \/ c = 91 \/ c = 93) cap.
Proof.
  intros Hm. apply regex_exec_sound in Hm as (Hpiece & Hlen & Hok).
  split; [|split; [exact Hpiece|]].
  - intros ->. simpl in Hlen. lia.
  - apply Forall_forall. intros c Hc.
    rewrite forallb_forall in Hok. apply list_elem_of_In, Hok in Hc.
    unfold FOR_group in Hc. cbn [accepts_char] in Hc.
    apply orb_true_iff in Hc as [Hc|Hc].
    + apply N.eqb_eq in Hc. now right; left.
    + apply orb_true_iff in Hc as [Hc|Hc]; [now left|].
      apply N.eqb_eq in Hc. now right; right.
Qed.

(** ** Trimming *)

Lemma trimStart_elem s x : x ∈ JS.trimStart s -> x ∈ s.
Proof.
  induction s as [|c t IH]; simpl; [trivial|].
  destruct (JS.is_whitespace c); [|trivial].
  intros Hx. right. now apply IH.
Qed.

Lemma trimStart_head s : starts_outside JS.is_whitespace (JS.trimStart s).
Proof.
  induction s as [|c t IH]; simpl; [exact I|].
  destruct (JS.is_whitespace c) eqn:Hc; [exact IH | exact Hc].
Qed.

Lemma trimStart_keeps_last l c :
  JS.is_whitespace c = false ->
  exists q, JS.trimStart (l ++ [c]) = q ++ [c].
Proof.
  intros Hc. induction l as [|d l IH]; simpl.
  - rewrite Hc. now exists [].
  - destruct (JS.is_whitespace d); [exact IH|]. now exists (d :: l).
Qed.

Lemma elem_of_rev (l : list N) x : x ∈ rev l <-> x ∈ l.
Proof. rewrite !list_elem_of_In. symmetry. apply in_rev. Qed.

Lemma trim_elem s x : x ∈ JS.trim s -> x ∈ s.
Proof.
  unfold JS.trim, JS.trimEnd. intros Hx.
  apply (proj1 (elem_of_rev _ _)), trimStart_elem in Hx.
  apply (proj1 (elem_of_rev _ _)) in Hx. now apply trimStart_elem.
Qed.

(** A trimmed text neither begins nor ends with white space. *)
Lemma trim_ends s :
  starts_outside JS.is_whitespace (JS.trim s)
  /\ starts_outside JS.is_whitespace (rev (JS.trim s)).
Proof.
  unfold JS.trim, JS.trimEnd. split.
  - pose proof (trimStart_head s) as Hh.
    destruct (JS.trimStart s) as [|c t]; [exact I|]. simpl in Hh.
    simpl rev. destruct (trimStart_keeps_last (rev t) c Hh) as (q & ->).
    rewrite rev_app_distr. simpl. exact Hh.
  - rewrite rev_involutive. apply trimStart_head.
Qed.

(** ** More about getIpAddress *)

Section MoreGetIpAddress.
Context {C : Constants}.
Variables (env : Env) (headers : Headers).

Lemma has_value_dec name : has_value headers name \/ ~ has_value headers name.
Proof.
  destruct (JS.truthy (Headers_get headers name)) eqn:E.
  - left. now apply truthy_has_value.
  - right. intros Hv. apply truthy_has_value in Hv. congruence.
Qed.

Lemma custom_header_matches_dec :
  custom_header_matches env headers \/ ~ custom_header_matches env headers.
Proof.
  destruct (JS.truthy (CLIENT_IP_HEADER env)
            && JS.truthy (Headers_get headers
                            (default [] (CLIENT_IP_HEADER env)))) eqn:E.
  - left. now apply custom_test_matches.
  - right. intros Hm. apply custom_test_matches in Hm. congruence.
Qed.

(** What the loop over the fallback headers returns is never empty. *)
Lemma scan_some_nonempty names res :
  scan_ip_headers headers names = Some res -> res <> [].
Proof.
  induction names as [|name rest IH]; simpl; [discriminate|].
  destruct (JS.truthy (Headers_get headers name)) eqn:Ht; [|exact IH].
  apply truthy_true in Ht as (v & Hv & Hne). rewrite Hv. simpl.
  destruct (decide _).
  - destruct (match_for v) as [cap|] eqn:Hm.
    + intros [= <-]. now apply match_for_shape in Hm as [Hcap _].
    + intros [= <-]. exact Hne.
  - intros [= <-]. exact Hne.
Qed.

Lemma scan_none_all names :
  scan_ip_headers headers names = None ->
  Forall (fun n => ~ has_value headers n) names.
Proof.
  induction names as [|name rest IH]; simpl; [constructor|].
  destruct (JS.truthy (Headers_get headers name)) eqn:Ht.
  - apply truthy_true in Ht as (v & Hv & Hne). rewrite Hv. simpl.
    destruct (decide _); [destruct (match_for v)|]; discriminate.
  - intros Hs. constructor; [|now apply IH].
    intros Hv. apply truthy_has_value in Hv. congruence.
Qed.

End MoreGetIpAddress.

(** X2: the only way to an empty address is [x-forwarded-for].  When
    [getIpAddress] returns the empty string, [cf-connecting-ip] and the
    configured header did not match, and [x-forwarded-for] has a
    non-empty value whose first entry is blank. *)
Theorem empty_address_only_from_forwarded_for
    {C : Constants} (env : Env) (headers : Headers) :
  getIpAddress env headers = Some [] ->
  ~ has_value headers (js "cf-connecting-ip")
  /\ ~ custom_header_matches env headers
  /\ exists v first,
       Headers_get headers (js "x-forwarded-for") = Some v /\ v <> []
       /\ first_entry 44 v first /\ JS.trim first = [].
Proof.
  intros Hres.
  destruct (has_value_dec headers (js "cf-connecting-ip")) as [(v & Hv & Hne)|Hcf].
  { rewrite (getIpAddress_cloudflare env headers v Hv Hne) in Hres.
    injection Hres as ->. contradiction. }
  destruct (custom_header_matches_dec env headers)
    as [(name & Hn & Hnn & v & Hv & Hne)|Hcu].
  { rewrite (getIpAddress_custom env headers name v Hcf Hn Hnn Hv Hne) in Hres.
    injection Hres as ->. contradiction. }
  destruct (has_value_dec headers (js "x-forwarded-for")) as [(v & Hv & Hne)|Hx].
  - destruct (getIpAddress_forwarded_for env headers v Hcf Hcu Hv Hne)
      as (first & Hf & Hr). rewrite Hr in Hres. injection Hres as Ht.
    repeat split; try assumption. now exists v, first.
  - rewrite (getIpAddress_falls_back env headers Hcf Hcu Hx) in Hres.
    now apply scan_some_nonempty in Hres.
Qed.

Lemma empty_address_only_from_forwarded_for_witness :
  exists v first,
    Headers_get (Sample.headers [("x-forwarded-for"%string, js " , 5.6.7.8")])
      (js "x-forwarded-for") = Some v /\ v <> []
    /\ first_entry 44 v first /\ JS.trim first = [].
Proof.
  refine (proj2 (proj2 (@empty_address_only_from_forwarded_for
            Sample.constants Sample.no_env
            (Sample.headers [("x-forwarded-for"%string, js " , 5.6.7.8")]) _))).
  vm_compute. reflexivity.
Defined.

(** ** More about getDevice *)

Lemma lt_Finite a b : Num.lt (Finite a) (Finite b) = true <-> (a < b)%Q.
Proof.
  simpl. rewrite negb_true_iff. split.
  - intros H. apply Qnot_le_lt. intros Hle.
    apply Qle_bool_iff in Hle. congruence.
  - intros H. destruct (Qle_bool b a) eqn:E; [|reflexivity].
    apply Qle_bool_iff in E. lra.
Qed.

(** The comparisons of [getDevice] are monotone in the width. *)
Lemma lt_antitone q1 q2 t :
  (q1 <= q2)%Q -> Num.lt (Finite q2) t = true -> Num.lt (Finite q1) t = true.
Proof.
  intros Hq. destruct t as [| |b|]; try (intros; assumption || reflexivity).
  rewrite !lt_Finite. lra.
Qed.

Lemma gt_monotone q1 q2 t :
  (q1 <= q2)%Q -> Num.gt (Finite q1) t = true -> Num.gt (Finite q2) t = true.
Proof.
  intros Hq. unfold Num.gt.
  destruct t as [| |b|]; try (intros; assumption || reflexivity).
  rewrite !lt_Finite. lra.
Qed.

Lemma ge_monotone q1 q2 t :
  (q1 <= q2)%Q -> Num.ge (Finite q1) t = true -> Num.ge (Finite q2) t = true.
Proof.
  intros Hq. unfold Num.ge.
  destruct t as [| |b|]; try (intros; assumption || reflexivity).
  rewrite !negb_true_iff. intros H1.
  destruct (Num.lt (Finite q2) (Finite b)) eqn:E; [|reflexivity].
  rewrite (lt_antitone q1 q2 _ Hq E) in H1. discriminate.
Qed.

(** X5: only the width counts.  Two screens with the same text before
    the first [x] get the same device whatever follows it, and a screen
    that is just that text gets it too. *)
Theorem getDevice_reads_only_the_width
    {C : Constants} {R : Runtime} (os w h1 h2 : jsstring) :
  120 ∉ w ->
  getDevice (Some (w ++ 120 :: h1)) os = getDevice (Some (w ++ 120 :: h2)) os
  /\ (w <> [] -> getDevice (Some w) os = getDevice (Some (w ++ 120 :: h1)) os).
Proof.
  intros Hw.
  assert (Hne : forall h, w ++ 120 :: h <> []) by (intros h; destruct w; discriminate).
  assert (Hdev : forall h, getDevice (Some (w ++ 120 :: h)) os
                           = getDevice (Some (w ++ [120])) os).
  { intros h. rewrite !getDevice_nonempty by apply Hne.
    now rewrite !screen_width_prefix. }
  split.
  - now rewrite (Hdev h1), (Hdev h2).
  - intros Hwne. rewrite !getDevice_nonempty by (apply Hne || assumption).
    now rewrite screen_width_prefix, screen_width_whole.
Qed.

Lemma getDevice_reads_only_the_width_witness :
  @getDevice Sample.constants Sample.runtime (Some (js "1920x1080")) (js "Linux")
  = @getDevice Sample.constants Sample.runtime (Some (js "1920x")) (js "Linux")
  /\ (js "1920" <> [] ->
      @getDevice Sample.constants Sample.runtime (Some (js "1920")) (js "Linux")
      = @getDevice Sample.constants Sample.runtime (Some (js "1920x1080"))
          (js "Linux")).
Proof.
  refine (@getDevice_reads_only_the_width Sample.constants Sample.runtime
            (js "Linux") (js "1920") (js "1080") [] _).
  not_in_literal.
Defined.

(** X6: a non-empty screen always gets a device, and the family of the
    operating system bounds it: a desktop system gets [laptop] or
    [desktop], never [tablet] or [mobile]; a mobile system that is not in
    the desktop list gets [tablet] or [mobile], never [laptop] or
    [desktop]. *)
Theorem getDevice_stays_in_family
    {C : Constants} {R : Runtime} (screen os : jsstring) :
  screen <> [] ->
  (exists d, getDevice (Some screen) os = Some d)
  /\ (os ∈ DESKTOP_OS ->
      getDevice (Some screen) os = Some laptop
      \/ getDevice (Some screen) os = Some desktop)
  /\ (os ∉ DESKTOP_OS -> os ∈ MOBILE_OS ->
      getDevice (Some screen) os = Some tablet
      \/ getDevice (Some screen) os = Some mobile).
Proof.
  intros Hne. rewrite (getDevice_nonempty _ _ Hne). cbv zeta.
  split; [|split].
  - destruct (includes_str DESKTOP_OS os); [destruct (_ || _); eauto|].
    destruct (includes_str MOBILE_OS os); [destruct (_ || _); eauto|].
    repeat (destruct (Num.ge _ _); eauto).
  - intros Hd. rewrite (includes_in _ _ Hd). destruct (_ || _); auto.
  - intros Hd Hm. rewrite (includes_out _ _ Hd), (includes_in _ _ Hm).
    destruct (_ || _); auto.
Qed.

Lemma getDevice_stays_in_family_witness :
  @getDevice Sample.constants Sample.runtime (Some (js "320x480")) (js "Mac OS")
  = Some laptop
  \/ @getDevice Sample.constants Sample.runtime (Some (js "320x480")) (js "Mac OS")
     = Some desktop.
Proof.
  refine (proj1 (proj2 (@getDevice_stays_in_family Sample.constants
            Sample.runtime (js "320x480") (js "Mac OS") _)) _).
  - discriminate.
  - apply (bool_decide_unpack _). vm_compute. exact I.
Defined.

(** X7: for one operating system, a wider screen never gets a smaller
    device: with widths that read as numbers [q1 <= q2], the device of
    the first is at most the device of the second in the order mobile,
    tablet, laptop, desktop.  This holds for every choice of the lists
    and thresholds. *)
Theorem getDevice_monotone_in_width
    {C : Constants} {R : Runtime} (os s1 s2 : jsstring) (q1 q2 : Q) :
  s1 <> [] -> s2 <> [] ->
  toNumber (screen_width s1) = Finite q1 ->
  toNumber (screen_width s2) = Finite q2 ->
  (q1 <= q2)%Q ->
  (device_rank (getDevice (Some s1) os)
   <= device_rank (getDevice (Some s2) os))%nat.
Proof.
  intros H1 H2 Hw1 Hw2 Hq.
  rewrite (getDevice_nonempty _ _ H1), (getDevice_nonempty _ _ H2).
  cbv zeta. rewrite Hw1, Hw2.
  destruct (includes_str DESKTOP_OS os);
    [|destruct (includes_str MOBILE_OS os)].
  - destruct (bool_decide (os = js "Chrome OS")); cbn [orb];
      [cbn [device_rank]; lia|].
    destruct (Num.lt (Finite q2) DESKTOP_SCREEN_WIDTH) eqn:E2.
    + rewrite (lt_antitone _ _ _ Hq E2). simpl. lia.
    + destruct (Num.lt (Finite q1) DESKTOP_SCREEN_WIDTH); simpl; lia.
  - destruct (bool_decide (os = js "Amazon OS")); cbn [orb];
      [cbn [device_rank]; lia|].
    destruct (Num.gt (Finite q1) MOBILE_SCREEN_WIDTH) eqn:E1.
    + rewrite (gt_monotone _ _ _ Hq E1). simpl. lia.
    + destruct (Num.gt (Finite q2) MOBILE_SCREEN_WIDTH); simpl; lia.
  - destruct (Num.ge (Finite q1) DESKTOP_SCREEN_WIDTH) eqn:Ed.
    { rewrite (ge_monotone _ _ _ Hq Ed). simpl. lia. }
    destruct (Num.ge (Finite q1) LAPTOP_SCREEN_WIDTH) eqn:El.
    { rewrite (ge_monotone _ _ _ Hq El).
      destruct (Num.ge (Finite q2) DESKTOP_SCREEN_WIDTH); simpl; lia. }
    destruct (Num.ge (Finite q1) MOBILE_SCREEN_WIDTH) eqn:Em.
    { rewrite (ge_monotone _ _ _ Hq Em).
      destruct (Num.ge (Finite q2) DESKTOP_SCREEN_WIDTH);
        [|destruct (Num.ge (Finite q2) LAPTOP_SCREEN_WIDTH)]; simpl; lia. }
    destruct (Num.ge (Finite q2) DESKTOP_SCREEN_WIDTH);
      [|destruct (Num.ge (Finite q2) LAPTOP_SCREEN_WIDTH);
        [|destruct (Num.ge (Finite q2) MOBILE_SCREEN_WIDTH)]]; simpl; lia.
Qed.

Lemma getDevice_monotone_in_width_witness :
  (device_rank (@getDevice Sample.constants Sample.runtime
                  (Some (js "800x600")) (js "Linux"))
   <= device_rank (@getDevice Sample.constants Sample.runtime
                     (Some (js "1920x1080")) (js "Linux")))%nat.
Proof.
  refine (@getDevice_monotone_in_width Sample.constants Sample.runtime
            (js "Linux") (js "800x600") (js "1920x1080")
            (inject_Z 800) (inject_Z 1920) _ _ _ _ _).
  - discriminate.
  - discriminate.
  - reflexivity.
  - reflexivity.
  - vm_compute. discriminate.
Defined.

(** ** More about getRegionCode and getLocation *)

(** X8: a region code, when there is one, is never empty and always
    holds a hyphen; so composing twice changes nothing:
    [getRegionCode c (getRegionCode c r) = getRegionCode c r]. *)
Theorem getRegionCode_result_is_composite (country region : option jsstring) :
  (forall r, getRegionCode country region = Some r -> r <> [] /\ 45 ∈ r)
  /\ getRegionCode country (getRegionCode country region)
     = getRegionCode country region.
Proof.
  assert (Hshape : forall r, getRegionCode country region = Some r ->
                             r <> [] /\ 45 ∈ r /\ JS.truthy country = true).
  { intros r.
    destruct (JS.truthy country) eqn:Hc;
      [|rewrite getRegionCode_absent by (now left); discriminate].
    destruct (JS.truthy region) eqn:Hr;
      [|rewrite getRegionCode_absent by (now right); discriminate].
    apply truthy_true in Hc as (c & -> & Hcne).
    apply truthy_true in Hr as (rv & -> & Hrv).
    destruct (decide (45 ∈ rv)) as [Hin|Hout].
    - rewrite (getRegionCode_hyphenated c rv Hcne Hin). intros [= <-].
      repeat split; assumption.
    - rewrite (getRegionCode_composed c rv Hcne Hrv Hout). intros [= <-].
      split; [|split; [|reflexivity]].
      + destruct c; [contradiction | discriminate].
      + apply elem_of_app. right. change (js "-" ++ rv) with (45 :: rv).
        now left. }
  split.
  - intros r Hr. apply Hshape in Hr as (H1 & H2 & _). now split.
  - destruct (getRegionCode country region) as [r|] eqn:E.
    + destruct (Hshape r eq_refl) as (Hne & Hin & Hc).
      apply truthy_true in Hc as (c & -> & Hcne).
      now apply getRegionCode_hyphenated.
    + apply getRegionCode_absent. now right.
Qed.

Section MoreGetLocation.
Context {R : Runtime} {G : GeoLib}.
Variables (env : Env) (ip : jsstring) (headers : Headers).

Lemma cleanIp_first_entry : first_entry 58 ip (cleanIp ip).
Proof.
  unfold cleanIp.
  destruct (split_first_entry 58 ip) as (f & r & Hs & Hf). now rewrite Hs.
Qed.

(** The four ways a call can go. *)
Lemma getLocation_cases hasPayloadIP (w : World) :
  (isLocalhost ip = true
   /\ getLocation env ip headers hasPayloadIP w = (Return None, w))
  \/ (isLocalhost ip = false
      /\ exists loc, location_from_headers env headers hasPayloadIP = Some loc
           /\ getLocation env ip headers hasPayloadIP w = (Return (Some loc), w))
  \/ (isLocalhost ip = false
      /\ location_from_headers env headers hasPayloadIP = None
      /\ exists r, (global_MAXMIND w = Some r
                    \/ (global_MAXMIND w = None
                        /\ maxmind_open (db_path env) = Some r))
           /\ fst (getLocation env ip headers hasPayloadIP w)
              = Return (record_location <$> reader_get r (cleanIp ip))
           /\ global_MAXMIND (snd (getLocation env ip headers hasPayloadIP w))
              = Some r)
  \/ (isLocalhost ip = false
      /\ location_from_headers env headers hasPayloadIP = None
      /\ global_MAXMIND w = None
      /\ maxmind_open (db_path env) = None
      /\ getLocation env ip headers hasPayloadIP w
         = (Throw, {| global_MAXMIND := None;
                      db_log := db_log w ++ [DbOpen (db_path env)] |})).
Proof.
  destruct (isLocalhost ip) eqn:Hl.
  { left. split; [reflexivity|]. now apply getLocation_local. }
  right.
  destruct (location_from_headers env headers hasPayloadIP) as [loc|] eqn:Hh.
  { left. split; [reflexivity|]. exists loc. split; [reflexivity|].
    unfold getLocation. now rewrite Hl, Hh. }
  right.
  destruct (global_MAXMIND w) as [r|] eqn:Hg.
  { left. repeat split. exists r. split; [now left|].
    now rewrite (getLocation_database env ip headers hasPayloadIP w r Hl Hh Hg). }
  destruct (maxmind_open (db_path env)) as [r|] eqn:Ho.
  { left. repeat split. exists r. split; [now right|].
    now rewrite (getLocation_database_first env ip headers hasPayloadIP w r
                   Hl Hh Hg Ho). }
  right. repeat split.
  unfold getLocation, ensure_open. now rewrite Hl, Hh, Hg, Ho.
Qed.

End MoreGetLocation.

(** X9: the Vercel headers are read only after the Cloudflare ones.  For
    an address that is not local and not from the payload, with the skip
    variable unset or empty: if [cf-ipcountry] has no non-empty value and
    [x-vercel-ip-country] has one, the location comes from the three
    Vercel headers, re-decoded, and the database is untouched; if both
    country headers have a value, the Vercel headers are ignored. *)
Theorem vercel_headers_after_cloudflare
    {R : Runtime} {G : GeoLib} (env : Env) (ip : jsstring)
    (headers : Headers) (w : World) :
  isLocalhost ip = false ->
  JS.truthy (SKIP_LOCATION_HEADERS env) = false ->
  has_value headers (js "x-vercel-ip-country") ->
  (~ has_value headers (js "cf-ipcountry") ->
   let country := decodeHeader (Headers_get headers (js "x-vercel-ip-country")) in
   getLocation env ip headers false w
   = (Return (Some {|
        country := country;
        region := getRegionCode country
          (decodeHeader (Headers_get headers (js "x-vercel-ip-country-region")));
        city := decodeHeader (Headers_get headers (js "x-vercel-ip-city")) |}),
      w))
  /\ (has_value headers (js "cf-ipcountry") ->
      let country := decodeHeader (Headers_get headers (js "cf-ipcountry")) in
      getLocation env ip headers false w
      = (Return (Some {|
           country := country;
           region := getRegionCode country
             (decodeHeader (Headers_get headers (js "cf-region-code")));
           city := decodeHeader (Headers_get headers (js "cf-ipcity")) |}),
         w)).
Proof.
  intros Hl Hs Hv. apply truthy_has_value in Hv. split.
  - intros Hcf country0. apply truthy_false_no_value in Hcf.
    unfold getLocation, location_from_headers. now rewrite Hl, Hs, Hcf, Hv.
  - intros Hcf country0.
    unfold getLocation.
    now rewrite Hl, (location_from_headers_cloudflare env headers Hs Hcf).
Qed.

Lemma vercel_headers_after_cloudflare_witness :
  @getLocation Sample.runtime Sample.geo Sample.no_env (js "8.8.8.8")
    (Sample.headers [("x-vercel-ip-country"%string, js "DE");
                     ("x-vercel-ip-country-region"%string, js "BY");
                     ("x-vercel-ip-city"%string, js "M" ++ [195; 188] ++ js "nchen")])
    false Sample.fresh
  = (Return (Some {| country := Some (js "DE");
                     region := Some (js "DE-BY");
                     city := Some (js "M" ++ [252] ++ js "nchen") |}),
     Sample.fresh).
Proof.
  refine (proj1 (@vercel_headers_after_cloudflare Sample.runtime Sample.geo
                   Sample.no_env (js "8.8.8.8") _ Sample.fresh _ _ _) _).
  - reflexivity.
  - reflexivity.
  - exists (js "DE"). split; [vm_compute; reflexivity | discriminate].
  - no_value.
Defined.

(** X10: the key of the database lookup.  A call that reaches the
    database with the handle open asks for the text of the address before
    its first colon (the whole address when it has none): the key never
    holds a colon, [host:port] with a colon-free host is looked up as
    [host], and the result is the location built from that record, or
    nothing when the database has none. *)
Theorem database_lookup_key
    {R : Runtime} {G : GeoLib} (env : Env) (ip : jsstring)
    (headers : Headers) (hasPayloadIP : bool) (w : World) (r : reader) :
  isLocalhost ip = false ->
  location_from_headers env headers hasPayloadIP = None ->
  global_MAXMIND w = Some r ->
  exists key,
    first_entry 58 ip key
    /\ (forall host port, 58 ∉ host -> ip = host ++ 58 :: port -> key = host)
    /\ getLocation env ip headers hasPayloadIP w
       = (Return (record_location <$> reader_get r key),
          {| global_MAXMIND := Some r;
             db_log := db_log w ++ [DbGet key] |}).
Proof.
  intros Hl Hh Hg. exists (cleanIp ip). split; [|split].
  - apply cleanIp_first_entry.
  - intros host port Hhost ->. now apply cleanIp_port.
  - now apply getLocation_database.
Qed.

Lemma database_lookup_key_witness :
  exists key,
    first_entry 58 (js "8.8.8.8:443") key
    /\ (forall host port, 58 ∉ host -> js "8.8.8.8:443" = host ++ 58 :: port ->
                          key = host)
    /\ @getLocation Sample.runtime Sample.geo Sample.no_env (js "8.8.8.8:443")
         (Sample.headers []) true (Sample.ready [])
       = (Return (record_location <$> @reader_get Sample.geo tt key),
          Sample.ready [DbGet key]).
Proof.
  refine (@database_lookup_key Sample.runtime Sample.geo Sample.no_env
            (js "8.8.8.8:443") (Sample.headers []) true (Sample.ready []) tt
            _ _ _); reflexivity.
Defined.

(** X11: with the handle open a call neither throws nor opens the file
    again: it returns, the handle is the same reader afterwards, and the
    log grows by at most the one lookup. *)
Theorem open_handle_is_kept
    {R : Runtime} {G : GeoLib} (env : Env) (ip : jsstring)
    (headers : Headers) (hasPayloadIP : bool) (w : World) (r : reader) :
  global_MAXMIND w = Some r ->
  exists res w',
    getLocation env ip headers hasPayloadIP w = (Return res, w')
    /\ global_MAXMIND w' = Some r
    /\ (db_log w' = db_log w \/ db_log w' = db_log w ++ [DbGet (cleanIp ip)]).
Proof.
  intros Hg.
  destruct (isLocalhost ip) eqn:Hl.
  { exists None, w. rewrite getLocation_local by exact Hl. auto. }
  destruct (location_from_headers env headers hasPayloadIP) as [loc|] eqn:Hh.
  { exists (Some loc), w. unfold getLocation. rewrite Hl, Hh. auto. }
  rewrite (getLocation_database env ip headers hasPayloadIP w r Hl Hh Hg).
  eexists _, _. split; [reflexivity|]. simpl. auto.
Qed.

Lemma open_handle_is_kept_witness :
  exists res w',
    @getLocation Sample.runtime Sample.geo Sample.no_env (js "8.8.8.8")
      (Sample.headers []) false (Sample.ready []) = (Return res, w')
    /\ global_MAXMIND w' = Some tt
    /\ (db_log w' = [] \/ db_log w' = [] ++ [DbGet (cleanIp (js "8.8.8.8"))]).
Proof.
  refine (@open_handle_is_kept Sample.runtime Sample.geo Sample.no_env
            (js "8.8.8.8") (Sample.headers []) false (Sample.ready []) tt _).
  reflexivity.
Defined.

(** X12: [getLocation] throws in one case only: the address is not
    local, the headers gave no location, no handle is set, and opening
    the database file fails.  The handle then stays unset, so the next
    call that needs the database tries to open it again. *)
Theorem getLocation_throws_iff
    {R : Runtime} {G : GeoLib} (env : Env) (ip : jsstring)
    (headers : Headers) (hasPayloadIP : bool) (w : World) :
  (fst (getLocation env ip headers hasPayloadIP w) = Throw
   <-> isLocalhost ip = false
       /\ location_from_headers env headers hasPayloadIP = None
       /\ global_MAXMIND w = None
       /\ maxmind_open (db_path env) = None)
  /\ (fst (getLocation env ip headers hasPayloadIP w) = Throw ->
      snd (getLocation env ip headers hasPayloadIP w)
      = {| global_MAXMIND := None;
           db_log := db_log w ++ [DbOpen (db_path env)] |}).
Proof.
  destruct (getLocation_cases env ip headers hasPayloadIP w)
    as [(Hl & Hr)|[(Hl & loc & Hh & Hr)|[(Hl & Hh & r & Hor & Hr & _)
       |(Hl & Hh & Hg & Ho & Hr)]]].
  - rewrite Hr. simpl. split; [|discriminate].
    split; [discriminate | intros (Hl' & _); congruence].
  - rewrite Hr. simpl. split; [|discriminate].
    split; [discriminate | intros (_ & Hh' & _); congruence].
  - rewrite Hr. split; [|discriminate].
    split; [discriminate|]. intros (_ & _ & Hg & Ho).
    destruct Hor as [Hor|[_ Hor]]; congruence.
  - rewrite Hr. simpl. split; [|reflexivity]. split; [|reflexivity].
    intros _. repeat split; assumption.
Qed.

Lemma getLocation_throws_iff_witness :
  fst (@getLocation Sample.runtime SampleClient.no_database Sample.no_env
         (js "8.8.8.8") (Sample.headers []) false Sample.fresh) = Throw
  /\ snd (@getLocation Sample.runtime SampleClient.no_database Sample.no_env
            (js "8.8.8.8") (Sample.headers []) false Sample.fresh)
     = @Build_World SampleClient.no_database None
         [DbOpen (js "/app/geo/GeoLite2-City.mmdb")].
Proof.
  pose proof (@getLocation_throws_iff Sample.runtime SampleClient.no_database
                Sample.no_env (js "8.8.8.8") (Sample.headers []) false
                Sample.fresh) as [Hiff Hstate].
  assert (Ht : fst (@getLocation Sample.runtime SampleClient.no_database
                      Sample.no_env (js "8.8.8.8") (Sample.headers []) false
                      Sample.fresh) = Throw)
    by (apply Hiff; repeat split; reflexivity).
  split; [exact Ht | exact (Hstate Ht)].
Defined.

(** X13: a process that handles its calls one after the other opens the
    database file at most once, whatever the calls, provided the file can
    be opened; and it opens it only when a call needs the database. *)
Theorem sequential_calls_open_once
    {R : Runtime} {G : GeoLib} (env : Env) (r : reader)
    (requests : list (jsstring * Headers * bool)) :
  maxmind_open (db_path env) = Some r ->
  let w := serve env requests {| global_MAXMIND := None; db_log := [] |} in
  (opens_in (db_log w) <= 1)%nat
  /\ (opens_in (db_log w) = 1%nat <-> global_MAXMIND w = Some r).
Proof.
  intros Ho.
  assert (Hcount : forall l1 l2, opens_in (l1 ++ l2) = (opens_in l1 + opens_in l2)%nat).
  { induction l1 as [|[p|k] l1 IH]; intros l2; simpl; rewrite ?IH; reflexivity. }
  assert (Hinv : forall reqs (w : World),
            (global_MAXMIND w = None /\ opens_in (db_log w) = 0%nat)
            \/ (global_MAXMIND w = Some r /\ opens_in (db_log w) = 1%nat) ->
            (global_MAXMIND (serve env reqs w) = None
             /\ opens_in (db_log (serve env reqs w)) = 0%nat)
            \/ (global_MAXMIND (serve env reqs w) = Some r
                /\ opens_in (db_log (serve env reqs w)) = 1%nat)).
  { induction reqs as [|[[ip headers] hp] reqs IH]; intros w Hw; [exact Hw|].
    simpl. apply IH.
    destruct (getLocation_cases env ip headers hp w)
      as [(Hl & Hr)|[(Hl & loc & Hh & Hr)|[(Hl & Hh & r' & Hor & _ & _)
         |(Hl & Hh & Hg & Ho' & Hr)]]].
    - now rewrite Hr.
    - now rewrite Hr.
    - destruct Hor as [Hg|[Hg Ho']].
      + rewrite (getLocation_database env ip headers hp w r' Hl Hh Hg).
        simpl. destruct Hw as [[Hn _]|[Hs Hc]]; [congruence|].
        right. split; [congruence|]. rewrite Hcount. simpl. lia.
      + rewrite (getLocation_database_first env ip headers hp w r' Hl Hh Hg Ho').
        simpl. destruct Hw as [[_ Hc]|[Hs _]]; [|congruence].
        right. split; [congruence|]. rewrite Hcount. simpl. lia.
    - congruence. }
  intros w. subst w.
  destruct (Hinv requests {| global_MAXMIND := None; db_log := [] |}
              ltac:(left; split; reflexivity)) as [[Hg Hc]|[Hg Hc]];
    rewrite Hg, Hc.
  - split; [lia|]. split; discriminate.
  - split; [lia|]. split; reflexivity.
Qed.

Lemma sequential_calls_open_once_witness :
  let w := @serve Sample.runtime Sample.geo Sample.no_env
             [(js "127.0.0.1", Sample.headers [], false);
              (js "8.8.8.8", Sample.headers [], false);
              (js "1.1.1.1:80", Sample.headers [], true)]
             Sample.fresh in
  (opens_in (db_log w) <= 1)%nat
  /\ (opens_in (db_log w) = 1%nat <-> global_MAXMIND w = Some tt).
Proof.
  refine (@sequential_calls_open_once Sample.runtime Sample.geo Sample.no_env
            tt _ _).
  reflexivity.
Defined.

(** ** More about hasBlockedIp *)

Lemma split_pieces_elem sep s : forall piece x,
  piece ∈ JS.split sep s -> x ∈ piece -> x ∈ s.
Proof.
  induction s as [|c t IH]; intros piece x Hp Hx; simpl in Hp.
  - apply list_elem_of_singleton in Hp as ->. exact Hx.
  - destruct (c =? sep).
    + apply elem_of_cons in Hp as [->|Hp]; [inversion Hx|].
      right. now apply (IH piece).
    + destruct (JS.split sep t) as [|h r] eqn:Es.
      * apply list_elem_of_singleton in Hp as ->. 
        apply list_elem_of_singleton in Hx as ->. left.
      * apply elem_of_cons in Hp as [->|Hp].
        -- apply elem_of_cons in Hx as [->|Hx]; [left|].
           right. apply (IH h); [left | exact Hx].
        -- right. apply (IH piece); [now right | exact Hx].
Qed.

Lemma indexOf_absent c s : c ∉ s -> JS.indexOf c s = (-1)%Z.
Proof.
  induction s as [|d t IH]; intros Hn; [reflexivity|]. simpl.
  destruct (N.eqb_spec d c) as [->|Hne]; [exfalso; apply Hn; left|].
  rewrite IH by (intros Hin; apply Hn; now right). reflexivity.
Qed.

Section MoreBlocklist.
Context {L : IpAddrLib}.
Variable clientIp : jsstring.

Lemma find_blocked_literals ips :
  Forall (fun e => 47 ∉ e) ips ->
  find_blocked clientIp ips
  = if bool_decide (clientIp ∈ ips) then Return (VString clientIp)
    else Return VUndefined.
Proof.
  induction 1 as [|e ips He _ IH]; [reflexivity|].
  cbn [find_blocked]. unfold blocks. rewrite (indexOf_absent _ _ He).
  change (0 <? -1)%Z with false.
  destruct (decide (e = clientIp)) as [Heq|Heq].
  - rewrite (bool_decide_true _ Heq). subst e.
    rewrite bool_decide_true by left. reflexivity.
  - rewrite (bool_decide_false _ Heq), IH.
    destruct (bool_decide (clientIp ∈ ips)) eqn:Ein.
    + apply bool_decide_eq_true in Ein.
      rewrite bool_decide_true by (now right). reflexivity.
    + apply bool_decide_eq_false in Ein. rewrite bool_decide_false; [reflexivity|].
      intros Hin. apply elem_of_cons in Hin as [Hin|Hin]; [congruence | contradiction].
Qed.

Lemma find_blocked_wellformed a ips :
  parse clientIp = Some a ->
  (forall e, e ∈ ips -> (0 < JS.indexOf 47 e)%Z -> is_Some (parseCIDR e)) ->
  find_blocked clientIp ips <> Throw
  /\ ((exists e, find_blocked clientIp ips = Return (VString e))
      <-> Exists (entry_matches clientIp) ips)
  /\ (find_blocked clientIp ips = Return VUndefined
      <-> Forall (fun e => ~ entry_matches clientIp e) ips).
Proof.
  intros Ha. induction ips as [|ip rest IH]; intros Hwf.
  - simpl. split; [discriminate|]. split.
    + split; [intros [e He]; discriminate | intros He; inversion He].
    + split; [constructor | reflexivity].
  - assert (Hrest : forall e, e ∈ rest -> (0 < JS.indexOf 47 e)%Z ->
                              is_Some (parseCIDR e))
      by (intros e He; apply Hwf; now right).
    destruct (IH Hrest) as (Hnt & Hex & Hall). simpl.
    destruct (blocks clientIp ip) as [[|]|] eqn:Eb.
    + apply blocks_true in Eb. split; [discriminate|]. split.
      * split; [intros _; now left | intros _; eauto].
      * split; [discriminate|]. intros Hf.
        apply Forall_cons in Hf as [Hf _]. contradiction.
    + assert (Hno : ~ entry_matches clientIp ip).
      { intros Hm. apply blocks_true in Hm. congruence. }
      split; [exact Hnt|]. split.
      * rewrite Hex. split; [now right|].
        intros He. apply Exists_cons in He as [He|He]; [contradiction | exact He].
      * rewrite Hall. split; [now constructor|].
        intros Hf. now apply Forall_cons in Hf as [_ Hf].
    + exfalso. apply blocks_throw in Eb as (_ & Hpos & [Hp|Hc]); [congruence|].
      destruct (Hwf ip ltac:(left) Hpos) as [x Hx]. congruence.
Qed.

End MoreBlocklist.

(** X14: a blocklist without any [/] is a list of literals.  The check
    then never throws and never calls the address library: it returns the
    candidate itself when the candidate is one of the trimmed entries,
    and [undefined] otherwise. *)
Theorem literal_blocklist_is_exact
    {L : IpAddrLib} (env : Env) (clientIp cfg : jsstring) :
  IGNORE_IP env = Some cfg -> cfg <> [] -> 47 ∉ cfg ->
  hasBlockedIp env clientIp
  = if bool_decide (clientIp ∈ map JS.trim (JS.split 44 cfg))
    then Return (VString clientIp)
    else Return VUndefined.
Proof.
  intros Hc Hne Hslash.
  rewrite (hasBlockedIp_configured clientIp env cfg Hc Hne).
  apply find_blocked_literals. apply Forall_forall. intros e He Hin.
  apply list_elem_of_fmap in He as (piece & -> & Hp).
  apply Hslash. apply (split_pieces_elem 44 cfg piece); [exact Hp|].
  now apply trim_elem.
Qed.

Lemma literal_blocklist_is_exact_witness :
  @hasBlockedIp Sample.ipaddr (Sample.blocklist " 1.2.3.4 ,5.6.7.8")
    (js "1.2.3.4")
  = if bool_decide (js "1.2.3.4"
                    ∈ map JS.trim (JS.split 44 (js " 1.2.3.4 ,5.6.7.8")))
    then Return (VString (js "1.2.3.4"))
    else Return VUndefined.
Proof.
  refine (@literal_blocklist_is_exact Sample.ipaddr
            (Sample.blocklist " 1.2.3.4 ,5.6.7.8") (js "1.2.3.4")
            (js " 1.2.3.4 ,5.6.7.8") eq_refl _ _).
  - discriminate.
  - not_in_literal.
Defined.

(** X15: with input the library can read, the check is a plain search.
    If the candidate parses and every entry with a [/] after its first
    character parses as a range, the check does not throw; it returns an
    entry exactly when some entry matches the candidate, and [undefined]
    exactly when none does. *)
Theorem wellformed_blocklist_never_throws
    {L : IpAddrLib} (env : Env) (clientIp cfg : jsstring) (a : address) :
  IGNORE_IP env = Some cfg -> cfg <> [] ->
  parse clientIp = Some a ->
  (forall e, e ∈ map JS.trim (JS.split 44 cfg) ->
             (0 < JS.indexOf 47 e)%Z -> is_Some (parseCIDR e)) ->
  hasBlockedIp env clientIp <> Throw
  /\ ((exists e, hasBlockedIp env clientIp = Return (VString e))
      <-> Exists (entry_matches clientIp) (map JS.trim (JS.split 44 cfg)))
  /\ (hasBlockedIp env clientIp = Return VUndefined
      <-> Forall (fun e => ~ entry_matches clientIp e)
            (map JS.trim (JS.split 44 cfg))).
Proof.
  intros Hc Hne Ha Hwf.
  rewrite (hasBlockedIp_configured clientIp env cfg Hc Hne).
  now apply (find_blocked_wellformed clientIp a).
Qed.

Lemma wellformed_blocklist_never_throws_witness :
  @hasBlockedIp Sample.ipaddr (Sample.blocklist "192.168.0.0/16, 10.0.0.0/8")
    (js "10.1.2.3") <> Throw
  /\ ((exists e, @hasBlockedIp Sample.ipaddr
                   (Sample.blocklist "192.168.0.0/16, 10.0.0.0/8")
                   (js "10.1.2.3") = Return (VString e))
      <-> Exists (@entry_matches Sample.ipaddr (js "10.1.2.3"))
            (map JS.trim (JS.split 44 (js "192.168.0.0/16, 10.0.0.0/8"))))
  /\ (@hasBlockedIp Sample.ipaddr (Sample.blocklist "192.168.0.0/16, 10.0.0.0/8")
        (js "10.1.2.3") = Return VUndefined
      <-> Forall (fun e => ~ @entry_matches Sample.ipaddr (js "10.1.2.3") e)
            (map JS.trim (JS.split 44 (js "192.168.0.0/16, 10.0.0.0/8")))).
Proof.
  refine (@wellformed_blocklist_never_throws Sample.ipaddr
            (Sample.blocklist "192.168.0.0/16, 10.0.0.0/8") (js "10.1.2.3")
            (js "192.168.0.0/16, 10.0.0.0/8") 167838211 eq_refl _ eq_refl _).
  - discriminate.
  - intros e He _. vm_compute in He.
    apply elem_of_cons in He as [->|He]; [vm_compute; eauto|].
    apply list_elem_of_singleton in He as ->. vm_compute. eauto.
Defined.

(** ** getClientInfo *)

Section ClientInfoFacts.
Context {C : Constants} {R : Runtime} {G : GeoLib} {NA : @NullAddress G}
        {U : UserAgentLib} {D : UrlLib}.
Variable env : Env.

Lemma or_else_truthy a b v : a = Some v -> v <> [] -> or_else a b = a.
Proof. intros -> Hv. unfold or_else. destruct v; [contradiction | reflexivity]. Qed.

Lemma or_else_falsy a b : JS.truthy a = false -> or_else a b = b.
Proof. intros Ha. unfold or_else. now rewrite Ha. Qed.

(** With a payload address the headers play no part in the location. *)
Lemma getLocation_payload_ignores_headers ip h1 h2 (w : World) :
  getLocation env ip h1 true w = getLocation env ip h2 true w.
Proof.
  unfold getLocation, location_from_headers. reflexivity.
Qed.


Lemma getDevice_of_falsy_screen screen os :
  JS.truthy screen = false -> getDevice_of screen os = None.
Proof.
  intros Hs. destruct os; simpl; unfold getDevice, getDevice_no_os;
    now rewrite Hs.
Qed.

End ClientInfoFacts.

(** X16: an address in the payload overrides the request.  With a
    non-empty payload address the record carries that address, and two
    requests that agree on [user-agent] give the same outcome whatever
    their other headers are: neither the IP headers nor the Cloudflare
    or Vercel location headers are used. *)
Theorem payload_address_overrides_headers
    {C : Constants} {R : Runtime} {G : GeoLib} {NA : @NullAddress G}
    {U : UserAgentLib} {D : UrlLib}
    (env : Env) (h1 h2 : Headers) (payload : Payload.t) (pip : jsstring)
    (w : World) :
  Payload.ip payload = Some pip -> pip <> [] ->
  Headers_get h1 (js "user-agent") = Headers_get h2 (js "user-agent") ->
  getClientInfo env h1 (Some payload) w = getClientInfo env h2 (Some payload) w
  /\ (forall info w',
        getClientInfo env h1 (Some payload) w = (Return info, w') ->
        ClientInfo.ip info = Some pip).
Proof.
  intros Hip Hne Hua. unfold getClientInfo. cbn [chain].
  assert (Ht : JS.truthy (Payload.ip payload) = true)
    by (apply truthy_true; eauto).
  rewrite !(or_else_truthy _ _ pip Hip Hne), Ht, Hip, Hua. cbn [getLocation_of].
  rewrite (getLocation_payload_ignores_headers env pip h1 h2 w).
  split; [reflexivity|].
  intros info w'. destruct (getLocation env pip h2 true w) as [[loc|] w1];
    [|discriminate].
  intros [= <- _]. reflexivity.
Qed.

Lemma payload_address_overrides_headers_witness :
  @getClientInfo Sample.constants Sample.runtime Sample.geo
    SampleClient.null_address SampleClient.user_agent SampleClient.url
    Sample.no_env
    (Sample.headers [("cf-connecting-ip"%string, js "203.0.113.7");
                     ("cf-ipcountry"%string, js "BR")])
    (Some {| Payload.userAgent := None; Payload.ip := Some (js "8.8.8.8");
             Payload.screen := None |})
    Sample.fresh
  = @getClientInfo Sample.constants Sample.runtime Sample.geo
      SampleClient.null_address SampleClient.user_agent SampleClient.url
      Sample.no_env (Sample.headers [])
      (Some {| Payload.userAgent := None; Payload.ip := Some (js "8.8.8.8");
               Payload.screen := None |})
      Sample.fresh.
Proof.
  refine (proj1 (@payload_address_overrides_headers Sample.constants
            Sample.runtime Sample.geo SampleClient.null_address
            SampleClient.user_agent SampleClient.url Sample.no_env _ _
            {| Payload.userAgent := None; Payload.ip := Some (js "8.8.8.8");
               Payload.screen := None |}
            (js "8.8.8.8") Sample.fresh eq_refl _ _)).
  - discriminate.
  - reflexivity.
Defined.



(** X18: an empty payload field counts as a missing one, and a missing
    payload as one with no fields: replacing every empty string among
    [userAgent], [ip] and [screen] by a missing value does not change the
    outcome.  In particular an empty payload address does not suppress
    the location headers. *)
Theorem empty_payload_fields_are_missing
    {C : Constants} {R : Runtime} {G : GeoLib} {NA : @NullAddress G}
    {U : UserAgentLib} {D : UrlLib}
    (env : Env) (headers : Headers) (ua ip screen : option jsstring)
    (w : World) :
  let clean (o : option jsstring) := if JS.truthy o then o else None in
  getClientInfo env headers
    (Some {| Payload.userAgent := ua; Payload.ip := ip;
             Payload.screen := screen |}) w
  = getClientInfo env headers
      (Some {| Payload.userAgent := clean ua; Payload.ip := clean ip;
               Payload.screen := clean screen |}) w
  /\ getClientInfo env headers None w
     = getClientInfo env headers
         (Some {| Payload.userAgent := None; Payload.ip := None;
                  Payload.screen := None |}) w.
Proof.
  cbv zeta. split; [|reflexivity].
  unfold getClientInfo. cbn [chain Payload.userAgent Payload.ip Payload.screen].
  assert (Hor : forall o b, or_else (if JS.truthy o then o else None) b
                            = or_else o b).
  { intros o b. unfold or_else. destruct (JS.truthy o) eqn:E; [now rewrite E|].
    reflexivity. }
  assert (Htr : forall o, JS.truthy (if JS.truthy o then o else None)
                          = JS.truthy o).
  { intros o. destruct (JS.truthy o) eqn:E; [exact E | reflexivity]. }
  assert (Hdev : forall o os, getDevice_of (if JS.truthy o then o else None) os
                              = getDevice_of o os).
  { intros o os. destruct (JS.truthy o) eqn:E; [reflexivity|].
    now rewrite !getDevice_of_falsy_screen. }
  now rewrite !Hor, Htr, Hdev.
Qed.



(** ** More about the handle under interleaved calls *)

Module SettledFacts.
Import Init.

Lemma settled_step r s i :
  settled r s ->
  settled r (step s i) /\ opens (step s i) = opens s.
Proof.
  intros [Hh Hno]. unfold step.
  destruct (calls s !! i) as [[| r' | r']|] eqn:Ei.
  - rewrite Hh. simpl. split; [|reflexivity]. split; [reflexivity|].
    intros j r'. simpl. destruct (decide (i = j)) as [->|Hne].
    + rewrite list_lookup_insert_eq by (apply lookup_lt_Some in Ei; lia).
      discriminate.
    + rewrite list_lookup_insert_ne by exact Hne. apply Hno.
  - exfalso. now apply (Hno i r').
  - split; [split; assumption | reflexivity].
  - split; [split; assumption | reflexivity].
Qed.

Lemma settled_run r schedule : forall s,
  settled r s ->
  settled r (run schedule s) /\ opens (run schedule s) = opens s.
Proof.
  induction schedule as [|i schedule IH]; intros s Hs; [now split|].
  simpl. destruct (settled_step r s i Hs) as [Hs' Ho].
  destruct (IH _ Hs') as [Hs'' Ho']. split; [exact Hs''|]. congruence.
Qed.

End SettledFacts.

(** X20: once the handle is set and no open is pending, nothing opens
    the database again: under every further interleaving the handle is
    the same reader, the number of opens does not change, and no call is
    ever waiting for an open. *)
Theorem settled_handle_is_stable (s : Init.state) (r : nat)
    (schedule : list nat) :
  Init.handle s = Some r ->
  (forall i r', Init.calls s !! i <> Some (Init.Opening r')) ->
  Init.handle (Init.run schedule s) = Some r
  /\ Init.opens (Init.run schedule s) = Init.opens s
  /\ (forall i r', Init.calls (Init.run schedule s) !! i
                   <> Some (Init.Opening r')).
Proof.
  intros Hh Hno.
  destruct (SettledFacts.settled_run r schedule s (conj Hh Hno))
    as [[Hh' Hno'] Ho].
  repeat split; assumption.
Qed.

Lemma settled_handle_is_stable_witness :
  let s := {| Init.handle := Some 0%nat; Init.opens := 1;
              Init.calls := [Init.Using 0; Init.Waiting; Init.Waiting] |} in
  Init.handle (Init.run [2; 1; 2; 0]%nat s) = Some 0%nat
  /\ Init.opens (Init.run [2; 1; 2; 0]%nat s) = Init.opens s
  /\ (forall i r', Init.calls (Init.run [2; 1; 2; 0]%nat s) !! i
                   <> Some (Init.Opening r')).
Proof.
  refine (settled_handle_is_stable
            {| Init.handle := Some 0%nat; Init.opens := 1;
               Init.calls := [Init.Using 0; Init.Waiting; Init.Waiting] |}
            0%nat [2; 1; 2; 0]%nat eq_refl _).
  intros [|[|[|i]]] r'; simpl; discriminate.
Defined.

(** * The call of getIpAddress *)

(** ** Lookups that may throw *)

Lemma get_call_header_name h name :
  is_header_name name = true ->
  Headers_get_call h name = Return (Headers_get h name).
Proof. intros Hn. unfold Headers_get_call. now rewrite Hn. Qed.

Lemma get_call_other_name h name :
  is_header_name name = false -> Headers_get_call h name = Throw.
Proof. intros Hn. unfold Headers_get_call. now rewrite Hn. Qed.

Lemma head_split_some sep s : exists first, head (JS.split sep s) = Some first.
Proof.
  destruct (split_first_entry sep s) as (first & rest & Hs & _).
  exists first. now rewrite Hs.
Qed.

Section CallOfGetIpAddress.
Context {C : Constants}.
Variables (env : Env) (headers : Headers).

Lemma scan_call_skips before names :
  Forall (passed_over headers) before ->
  scan_ip_headers_call headers (before ++ names)
  = scan_ip_headers_call headers names.
Proof.
  induction 1 as [|n before [Hn Hv] _ IH]; [reflexivity|].
  cbn [app scan_ip_headers_call]. rewrite (get_call_header_name _ _ Hn).
  cbn [and_then]. now rewrite (truthy_false_no_value _ _ Hv).
Qed.

Lemma scan_call_none names :
  Forall (passed_over headers) names ->
  scan_ip_headers_call headers names = Return None.
Proof.
  intros Hall. rewrite <- (app_nil_r names). now rewrite scan_call_skips.
Qed.

Lemma scan_call_hit name rest v :
  is_header_name name = true ->
  Headers_get headers name = Some v -> v <> [] ->
  scan_ip_headers_call headers (name :: rest)
  = Return (if decide (name = js "forwarded")
            then Some (default v (match_for v))
            else Some v).
Proof.
  intros Hn Hv Hne. cbn [scan_ip_headers_call].
  rewrite (get_call_header_name _ _ Hn). cbn [and_then].
  assert (Ht : JS.truthy (Headers_get headers name) = true)
    by (apply truthy_true; eauto).
  rewrite Ht, Hv. simpl default at 1.
  destruct (decide _); [|reflexivity]. now destruct (match_for v).
Qed.

Lemma scan_call_throws name rest :
  is_header_name name = false ->
  scan_ip_headers_call headers (name :: rest) = Throw.
Proof.
  intros Hn. cbn [scan_ip_headers_call].
  now rewrite (get_call_other_name _ _ Hn).
Qed.

(** When the loop returns, it returns what [scan_ip_headers] computes. *)
Lemma scan_call_returns names r :
  scan_ip_headers_call headers names = Return r ->
  scan_ip_headers headers names = r.
Proof.
  induction names as [|name rest IH]; cbn [scan_ip_headers_call scan_ip_headers].
  - now intros [= <-].
  - unfold Headers_get_call. destruct (is_header_name name); [|discriminate].
    cbn [and_then]. destruct (JS.truthy (Headers_get headers name)); [|exact IH].
    destruct (decide _); [destruct (match_for _)|]; now intros [= <-].
Qed.

Lemma scan_call_none_all names :
  scan_ip_headers_call headers names = Return None ->
  Forall (passed_over headers) names.
Proof.
  induction names as [|name rest IH]; cbn [scan_ip_headers_call]; [constructor|].
  unfold Headers_get_call. destruct (is_header_name name) eqn:Hn; [|discriminate].
  cbn [and_then]. destruct (JS.truthy (Headers_get headers name)) eqn:Ht.
  - apply truthy_true in Ht as (v & Hv & Hne). rewrite Hv. simpl.
    destruct (decide _); [destruct (match_for v)|]; discriminate.
  - intros Hs. constructor; [|now apply IH]. split; [exact Hn|].
    intros Hv. apply truthy_has_value in Hv. congruence.
Qed.

(** Step 1. *)
Lemma call_cloudflare v :
  Headers_get headers (js "cf-connecting-ip") = Some v -> v <> [] ->
  getIpAddress_call env headers = Return (Some v).
Proof.
  intros Hv Hne. unfold getIpAddress_call.
  rewrite get_call_header_name by reflexivity. cbn [and_then].
  assert (Ht : JS.truthy (Headers_get headers (js "cf-connecting-ip")) = true)
    by (apply truthy_true; eauto).
  now rewrite Ht, Hv.
Qed.

(** Step 2, when the configured name is a header name. *)
Lemma call_custom name v :
  ~ has_value headers (js "cf-connecting-ip") ->
  CLIENT_IP_HEADER env = Some name -> name <> [] ->
  is_header_name name = true ->
  Headers_get headers name = Some v -> v <> [] ->
  getIpAddress_call env headers = Return (Some v).
Proof.
  intros Hcf Hn Hne Hok Hv Hve. unfold getIpAddress_call.
  rewrite get_call_header_name by reflexivity. cbn [and_then].
  rewrite (truthy_false_no_value _ _ Hcf), Hn.
  assert (Ht : JS.truthy (Some name) = true) by (apply truthy_true; eauto).
  rewrite Ht. cbn [default]. rewrite (get_call_header_name _ _ Hok).
  cbn [and_then].
  assert (Ht' : JS.truthy (Headers_get headers name) = true)
    by (apply truthy_true; eauto).
  now rewrite Ht', Hv.
Qed.

(** Step 2, when it is not: the lookup throws. *)
Lemma call_custom_throws name :
  ~ has_value headers (js "cf-connecting-ip") ->
  CLIENT_IP_HEADER env = Some name -> name <> [] ->
  is_header_name name = false ->
  getIpAddress_call env headers = Throw.
Proof.
  intros Hcf Hn Hne Hbad. unfold getIpAddress_call.
  rewrite get_call_header_name by reflexivity. cbn [and_then].
  rewrite (truthy_false_no_value _ _ Hcf), Hn.
  assert (Ht : JS.truthy (Some name) = true) by (apply truthy_true; eauto).
  rewrite Ht. cbn [default]. now rewrite (get_call_other_name _ _ Hbad).
Qed.

(** Steps 1 and 2 found nothing: the call goes on with
    [x-forwarded-for]. *)
Lemma call_after_custom :
  ~ has_value headers (js "cf-connecting-ip") ->
  custom_header_misses env headers ->
  getIpAddress_call env headers
  = if JS.truthy (Headers_get headers (js "x-forwarded-for")) then
      Return (JS.trim <$>
                head (JS.split 44
                        (default [] (Headers_get headers (js "x-forwarded-for")))))
    else scan_ip_headers_call headers IP_ADDRESS_HEADERS.
Proof.
  intros Hcf Hcu. unfold getIpAddress_call.
  rewrite get_call_header_name by reflexivity. cbn [and_then].
  rewrite (truthy_false_no_value _ _ Hcf).
  destruct Hcu as [Hf|(name & Hn & Hne & Hok & Hv)].
  - rewrite Hf. cbn [and_then JS.truthy].
    rewrite get_call_header_name by reflexivity. reflexivity.
  - rewrite Hn.
    assert (Ht : JS.truthy (Some name) = true) by (apply truthy_true; eauto).
    rewrite Ht. cbn [default]. rewrite (get_call_header_name _ _ Hok).
    cbn [and_then]. rewrite (truthy_false_no_value _ _ Hv).
    rewrite get_call_header_name by reflexivity. reflexivity.
Qed.

(** Step 3. *)
Lemma call_forwarded_for v :
  ~ has_value headers (js "cf-connecting-ip") ->
  custom_header_misses env headers ->
  Headers_get headers (js "x-forwarded-for") = Some v -> v <> [] ->
  exists first, first_entry 44 v first
                /\ getIpAddress_call env headers = Return (Some (JS.trim first)).
Proof.
  intros Hcf Hcu Hv Hne. rewrite (call_after_custom Hcf Hcu).
  assert (Ht : JS.truthy (Headers_get headers (js "x-forwarded-for")) = true)
    by (apply truthy_true; eauto).
  rewrite Ht, Hv. simpl default.
  destruct (split_first_entry 44 v) as (first & rest & Hs & Hf).
  exists first. split; [exact Hf|]. now rewrite Hs.
Qed.

(** Step 4 is reached when the first three steps found nothing. *)
Lemma call_falls_back :
  ~ has_value headers (js "cf-connecting-ip") ->
  custom_header_misses env headers ->
  ~ has_value headers (js "x-forwarded-for") ->
  getIpAddress_call env headers
  = scan_ip_headers_call headers IP_ADDRESS_HEADERS.
Proof.
  intros Hcf Hcu Hx. rewrite (call_after_custom Hcf Hcu).
  now rewrite (truthy_false_no_value _ _ Hx).
Qed.

(** The test of the configured header ends in one of three ways. *)
Lemma custom_header_cases :
  custom_header_misses env headers
  \/ (exists name v, CLIENT_IP_HEADER env = Some name /\ name <> []
                     /\ is_header_name name = true
                     /\ Headers_get headers name = Some v /\ v <> [])
  \/ (exists name, CLIENT_IP_HEADER env = Some name /\ name <> []
                   /\ is_header_name name = false).
Proof.
  unfold custom_header_misses.
  destruct (CLIENT_IP_HEADER env) as [name|] eqn:Hn; [|left; now left].
  destruct name as [|c name]; [left; now left|].
  destruct (is_header_name (c :: name)) eqn:Hok.
  - destruct (has_value_dec headers (c :: name)) as [(v & Hv & Hne)|Hv].
    + right; left. exists (c :: name), v. repeat split; auto; discriminate.
    + left; right. exists (c :: name). repeat split; auto; discriminate.
  - right; right. exists (c :: name). repeat split; auto; discriminate.
Qed.

(** Whenever the call returns, it returns what [getIpAddress]
    computes. *)
Lemma call_returns r :
  getIpAddress_call env headers = Return r -> getIpAddress env headers = r.
Proof.
  intros Hr.
  destruct (has_value_dec headers (js "cf-connecting-ip")) as [(v & Hv & Hne)|Hcf].
  { rewrite (call_cloudflare v Hv Hne) in Hr. injection Hr as <-.
    now apply getIpAddress_cloudflare. }
  destruct custom_header_cases
    as [Hcu|[(name & v & Hn & Hne & Hok & Hv & Hve)|(name & Hn & Hne & Hbad)]].
  - assert (Hcu' : ~ custom_header_matches env headers).
    { intros (name & Hn & Hne & Hv).
      destruct Hcu as [Hf|(name' & Hn' & _ & _ & Hv')].
      - rewrite Hn in Hf. destruct name; [contradiction | discriminate].
      - rewrite Hn in Hn'. injection Hn' as ->. contradiction. }
    rewrite (call_after_custom Hcf Hcu) in Hr.
    unfold getIpAddress.
    rewrite (truthy_false_no_value _ _ Hcf), (custom_test_fails _ _ Hcu').
    destruct (JS.truthy (Headers_get headers (js "x-forwarded-for"))).
    + now injection Hr as <-.
    + now apply scan_call_returns.
  - rewrite (call_custom name v Hcf Hn Hne Hok Hv Hve) in Hr.
    injection Hr as <-. now apply (getIpAddress_custom env headers name).
  - rewrite (call_custom_throws name Hcf Hn Hne Hbad) in Hr. discriminate.
Qed.

End CallOfGetIpAddress.

(** ** Trimming, as a relation *)

Lemma trimStart_split s :
  exists lead, s = lead ++ JS.trimStart s
               /\ Forall (fun c => JS.is_whitespace c = true) lead.
Proof.
  induction s as [|c t (lead & Ht & Hl)]; simpl.
  - exists []. split; [reflexivity | constructor].
  - destruct (JS.is_whitespace c) eqn:Hc.
    + exists (c :: lead). split; [simpl; congruence | now constructor].
    + exists []. split; [reflexivity | constructor].
Qed.

(** [trim] removes the white space at the two ends, and nothing else. *)
Lemma trim_trimmed_of s : trimmed_of s (JS.trim s).
Proof.
  destruct (trimStart_split s) as (lead & Hs & Hlead).
  destruct (trimStart_split (rev (JS.trimStart s))) as (back & Hb & Hback).
  exists lead, (rev back). split; [|split; [exact Hlead|split]].
  - rewrite Hs at 1. f_equal. unfold JS.trim, JS.trimEnd.
    rewrite <- rev_app_distr, <- Hb. now rewrite rev_involutive.
  - apply Forall_forall. intros c Hc. apply (proj1 (elem_of_rev _ _)) in Hc.
    rewrite Forall_forall in Hback. now apply Hback.
  - apply trim_ends.
Qed.

(** ** Where a match of the pattern begins *)

Lemma rmatch_rlit_cases l : forall s,
  (exists x, s = l ++ x /\ rmatch (rlit l) s = [x]) \/ rmatch (rlit l) s = [].
Proof.
  induction l as [|c l IH]; intros s.
  - left. now exists s.
  - destruct s as [|d t]; [now right|].
    change (rmatch (rlit (c :: l)) (d :: t))
      with (flat_map (rmatch (rlit l)) (if c =? d then [t] else [])).
    destruct (N.eqb_spec c d) as [->|Hne]; [|now right].
    cbn [flat_map]. rewrite app_nil_r.
    destruct (IH t) as [(x & -> & Hx)|Hx]; [|now right].
    left. now exists x.
Qed.

Lemma FOR_group_cases r :
  (exists lb c rest, (lb = [] \/ lb = [91]) /\ is_hex_colon_dot c = true
                     /\ r = lb ++ c :: rest)
  \/ rmatch FOR_group r = [].
Proof.
  assert (Hrun : forall y, starts_outside is_hex_colon_dot y ->
            rmatch (RSeq (RPlus (RChar is_hex_colon_dot))
                         (ROpt (RChar (N.eqb 93)))) y = []).
  { intros y Hy.
    change (flat_map (rmatch (ROpt (RChar (N.eqb 93))))
              (iter_plus (rmatch (RChar is_hex_colon_dot)) (length y) y) = []).
    now rewrite iter_plus_stuck. }
  unfold FOR_group.
  change (rmatch (RSeq (ROpt (RChar (N.eqb 91)))
                       (RSeq (RPlus (RChar is_hex_colon_dot))
                             (ROpt (RChar (N.eqb 93))))) r)
    with (flat_map (rmatch (RSeq (RPlus (RChar is_hex_colon_dot))
                                 (ROpt (RChar (N.eqb 93)))))
            (rmatch (RChar (N.eqb 91)) r ++ [r])).
  destruct r as [|c t].
  - right. change (rmatch (RChar (N.eqb 91)) []) with (@nil (list N)).
    cbn [app flat_map]. now rewrite Hrun.
  - change (rmatch (RChar (N.eqb 91)) (c :: t))
      with (if 91 =? c then [t] else []).
    destruct (N.eqb_spec 91 c) as [<-|Hne].
    + cbn [app flat_map]. rewrite (Hrun (91 :: t)) by reflexivity.
      rewrite !app_nil_r. destruct t as [|d t'].
      * right. now rewrite Hrun.
      * destruct (is_hex_colon_dot d) eqn:Hd.
        -- left. exists [91], d, t'. auto.
        -- right. now rewrite Hrun.
    + cbn [app flat_map]. rewrite app_nil_r.
      destruct (is_hex_colon_dot c) eqn:Hc.
      * left. exists [], c, t. auto.
      * right. now rewrite Hrun.
Qed.

(** Where no match can begin, the pattern does not match. *)
Lemma match_here_none s :
  ~ for_begins s -> match_here FOR_prefix FOR_group s = None.
Proof.
  intros Hno. unfold match_here, FOR_prefix.
  destruct (rmatch_rlit_cases (js "for=") s) as [(x & -> & Hx)|Hx];
    rewrite Hx; [|reflexivity].
  cbn [flat_map]. rewrite app_nil_r.
  destruct (FOR_group_cases x) as [(lb & c & rest & Hlb & Hc & ->)|Hg].
  - exfalso. apply Hno. now exists lb, c, rest.
  - now rewrite Hg.
Qed.

Lemma match_here_capture lb body rb rest :
  lb = [] \/ lb = [91] ->
  body <> [] -> forallb is_hex_colon_dot body = true ->
  rb = [93]
  \/ (rb = [] /\ starts_outside (fun c => is_hex_colon_dot c || (c =? 93)) rest) ->
  match_here FOR_prefix FOR_group (js "for=" ++ lb ++ body ++ rb ++ rest)
  = Some (lb ++ body ++ rb).
Proof.
  intros Hlb Hne Hall Hrb.
  pose proof (FOR_group_head lb body rb rest Hlb Hne Hall Hrb) as Hh.
  unfold match_here, FOR_prefix. rewrite rmatch_rlit.
  cbn [flat_map]. rewrite app_nil_r.
  destruct (rmatch FOR_group _) as [|y ys]; [discriminate|].
  injection Hh as ->. cbn [map head].
  f_equal. replace (lb ++ body ++ rb ++ rest)
    with ((lb ++ body ++ rb) ++ rest) by now rewrite <- !app_assoc.
  apply take_prefix_by_length.
Qed.

Lemma regex_exec_next pre grp c t :
  match_here pre grp (c :: t) = None ->
  regex_exec pre grp (c :: t) = regex_exec pre grp t.
Proof. intros Hm. simpl. now rewrite Hm. Qed.

(** The search passes over every position at which no match begins. *)
Lemma match_for_skips a m :
  no_match_within a m -> match_for (a ++ m) = match_for m.
Proof.
  unfold match_for. induction a as [|c a IH]; intros Hno; [reflexivity|].
  cbn [app]. rewrite regex_exec_next.
  - apply IH. intros a1 a2 -> Hne. now apply (Hno (c :: a1) a2).
  - apply match_here_none. now apply (Hno [] (c :: a)).
Qed.

(** The leftmost match and its capture. *)
Lemma match_for_leftmost a lb body rb rest :
  no_match_within a (js "for=" ++ lb ++ body ++ rb ++ rest) ->
  lb = [] \/ lb = [91] ->
  body <> [] -> forallb is_hex_colon_dot body = true ->
  rb = [93]
  \/ (rb = [] /\ starts_outside (fun c => is_hex_colon_dot c || (c =? 93)) rest) ->
  match_for (a ++ js "for=" ++ lb ++ body ++ rb ++ rest)
  = Some (lb ++ body ++ rb).
Proof.
  intros Hno Hlb Hne Hall Hrb. rewrite (match_for_skips _ _ Hno).
  now apply match_for_capture.
Qed.

Lemma match_for_nowhere v : no_match_within v [] -> match_for v = None.
Proof.
  intros Hno. rewrite <- (app_nil_r v), (match_for_skips _ _ Hno).
  unfold match_for. cbn [regex_exec]. rewrite match_here_none; [reflexivity|].
  intros (lb & c & rest & _ & _ & He). discriminate He.
Qed.

Lemma strip_prefix_app l : forall r, strip_prefix l (l ++ r) = Some r.
Proof.
  induction l as [|c l IH]; intros r; [reflexivity|].
  simpl. now rewrite N.eqb_refl.
Qed.

Lemma for_begins_test s : for_begins_b s = false -> ~ for_begins s.
Proof.
  intros Hb (lb & c & rest & Hlb & Hc & ->). unfold for_begins_b in Hb.
  rewrite strip_prefix_app in Hb. destruct Hlb as [->| ->]; simpl in Hb.
  - rewrite Hc in Hb. discriminate.
  - rewrite Hc in Hb. discriminate.
Qed.

Lemma no_match_within_test a m :
  no_match_within_b a m = true -> no_match_within a m.
Proof.
  induction a as [|c a IH]; intros Hb a1 a2 Ha Hne.
  - destruct a1, a2; try discriminate. contradiction.
  - cbn [no_match_within_b] in Hb. apply andb_true_iff in Hb as [Hh Ht].
    apply negb_true_iff in Hh. destruct a1 as [|d a1].
    + simpl in Ha. subst a2. now apply for_begins_test.
    + injection Ha as _ Ha. now apply (IH Ht a1 a2).
Qed.

(** A capture follows a [for=] of the text. *)
Lemma match_for_after_prefix v cap :
  match_for v = Some cap -> exists a b, v = a ++ js "for=" ++ cap ++ b.
Proof.
  assert (Hhere : forall s, match_here FOR_prefix FOR_group s = Some cap ->
            exists b, s = js "for=" ++ cap ++ b).
  { intros s Hm. unfold match_here, FOR_prefix in Hm.
    destruct (rmatch_rlit_cases (js "for=") s) as [(x & -> & Hx)|Hx];
      rewrite Hx in Hm; [|discriminate].
    cbn [flat_map] in Hm. rewrite app_nil_r in Hm.
    apply head_Some_elem_of, list_elem_of_In, in_map_iff in Hm
      as (r2 & <- & Hr2).
    apply rmatch_sound in Hr2 as (p & -> & _ & _).
    rewrite take_prefix_by_length. now exists r2. }
  unfold match_for. induction v as [|c t IH]; intros Hx; simpl in Hx.
  - discriminate Hx.
  - destruct (match_here FOR_prefix FOR_group (c :: t)) eqn:E.
    + injection Hx as ->. destruct (Hhere _ E) as (b & Hb). now exists [], b.
    + destruct (IH Hx) as (a & b & ->). now exists (c :: a), b.
Qed.

Lemma strip_prefix_some l : forall s r,
  strip_prefix l s = Some r -> s = l ++ r.
Proof.
  induction l as [|c l IH]; intros s r; simpl.
  - now intros [= ->].
  - destruct s as [|d s]; [discriminate|].
    destruct (N.eqb_spec c d) as [->|]; [|discriminate].
    intros Hs. now rewrite (IH _ _ Hs).
Qed.

Lemma for_begins_found s : for_begins_b s = true -> for_begins s.
Proof.
  unfold for_begins_b. destruct (strip_prefix (js "for=") s) as [r|] eqn:E;
    [|discriminate].
  apply strip_prefix_some in E as ->. destruct r as [|c r]; [discriminate|].
  destruct (is_hex_colon_dot c) eqn:Hc.
  - intros _. exists [], c, r. auto.
  - cbn [orb]. destruct (N.eqb_spec c 91) as [->|]; [|discriminate].
    destruct r as [|d r]; [discriminate|]. cbn [andb]. intros Hd.
    exists [91], d, r. auto.
Qed.

(** The run of class characters at the start of a text. *)
Lemma class_run s :
  exists body rest, s = body ++ rest
    /\ forallb is_hex_colon_dot body = true
    /\ starts_outside is_hex_colon_dot rest.
Proof.
  induction s as [|c s (body & rest & -> & Hb & Hr)].
  - now exists [], [].
  - destruct (is_hex_colon_dot c) eqn:Hc.
    + exists (c :: body), rest. simpl. now rewrite Hc.
    + exists [], (c :: body ++ rest). now repeat split.
Qed.

(** Where a match can begin there is one, of the shape the statements
    use: bracket, whole run of class characters, bracket. *)
Lemma for_begins_shape s :
  for_begins s ->
  exists lb body rb rest,
    s = js "for=" ++ lb ++ body ++ rb ++ rest
    /\ (lb = [] \/ lb = [91])
    /\ body <> [] /\ forallb is_hex_colon_dot body = true
    /\ (rb = [93]
        \/ (rb = []
            /\ starts_outside (fun c => is_hex_colon_dot c || (c =? 93)) rest)).
Proof.
  intros (lb & c & rest0 & Hlb & Hc & ->).
  destruct (class_run rest0) as (body & rest1 & -> & Hb & Hr).
  assert (Hbody : forallb is_hex_colon_dot (c :: body) = true)
    by (simpl; now rewrite Hc).
  destruct rest1 as [|d rest2].
  - exists lb, (c :: body), [], [].
    split; [reflexivity|]. split; [exact Hlb|]. split; [discriminate|].
    split; [exact Hbody|]. right. now split.
  - destruct (N.eqb_spec d 93) as [->|Hd].
    + exists lb, (c :: body), [93], rest2.
      split; [reflexivity|]. split; [exact Hlb|]. split; [discriminate|].
      split; [exact Hbody|]. now left.
    + exists lb, (c :: body), [], (d :: rest2).
      split; [reflexivity|]. split; [exact Hlb|]. split; [discriminate|].
      split; [exact Hbody|]. right. split; [reflexivity|].
      cbn [starts_outside] in *. rewrite Hr.
      now apply N.eqb_neq in Hd as ->.
Qed.

(** A text has a leftmost position at which a match begins, or none. *)
Lemma leftmost_begin v :
  no_match_within v []
  \/ exists a m, v = a ++ m /\ no_match_within a m /\ for_begins m.
Proof.
  induction v as [|c t IH].
  - left. intros a1 a2 Ha Hne. destruct a1, a2; try discriminate.
    contradiction.
  - destruct (for_begins_b (c :: t)) eqn:Hb.
    { right. exists [], (c :: t). split; [reflexivity|].
      split; [|now apply for_begins_found].
      intros a1 a2 Ha Hne. destruct a1, a2; try discriminate. contradiction. }
    apply for_begins_test in Hb. destruct IH as [Hno|(a & m & -> & Hno & Hm)].
    + left. intros a1 a2 Ha Hne. destruct a1 as [|d a1].
      * simpl in Ha. subst a2. now rewrite app_nil_r.
      * injection Ha as _ Ha. now apply (Hno a1 a2).
    + right. exists (c :: a), m. split; [reflexivity|]. split; [|exact Hm].
      intros a1 a2 Ha Hne. destruct a1 as [|d a1].
      * simpl in Ha. now subst a2.
      * injection Ha as _ Ha. now apply (Hno a1 a2).
Qed.

(** ** Claims about the call *)

(** Closes [passed_over h name] for concrete headers and names. *)
Ltac passed := split; [reflexivity | no_value].



(** C5, as the code has it: the first step that finds a non-empty value
    decides, and nothing is merged.  A non-empty [cf-connecting-ip] is the
    result; else, when a header is configured, its name is looked up: the
    call throws when the name is not a header name, and a non-empty value
    is the result; else, for a non-empty [x-forwarded-for], the result is
    its first entry without the white space at its two ends; else the
    headers of the fallback list are looked up in order: the first with a
    non-empty value gives the result (its value, or for [forwarded] the
    text captured by the pattern when it matches), a name that is not a
    header name makes the call throw, and when all are passed over the
    result is nothing.  So a non-empty [cf-connecting-ip] wins over
    [x-forwarded-for], and a request with only
    [x-forwarded-for: 1.2.3.4, 5.6.7.8] resolves to [1.2.3.4] when the test
    of the configured header is false. *)
Theorem getIpAddress_precedence
    {C : Constants} (env : Env) (headers : Headers) :
  (forall v, Headers_get headers (js "cf-connecting-ip") = Some v -> v <> [] ->
             getIpAddress_call env headers = Return (Some v))
  /\ (~ has_value headers (js "cf-connecting-ip") ->
      forall name v,
        CLIENT_IP_HEADER env = Some name -> name <> [] ->
        is_header_name name = true ->
        Headers_get headers name = Some v -> v <> [] ->
        getIpAddress_call env headers = Return (Some v))
  /\ (~ has_value headers (js "cf-connecting-ip") ->
      forall name,
        CLIENT_IP_HEADER env = Some name -> name <> [] ->
        is_header_name name = false ->
        getIpAddress_call env headers = Throw)
  /\ (~ has_value headers (js "cf-connecting-ip") ->
      custom_header_misses env headers ->
      forall v,
        Headers_get headers (js "x-forwarded-for") = Some v -> v <> [] ->
        exists first t,
          first_entry 44 v first /\ trimmed_of first t
          /\ getIpAddress_call env headers = Return (Some t))
  /\ (~ has_value headers (js "cf-connecting-ip") ->
      custom_header_misses env headers ->
      ~ has_value headers (js "x-forwarded-for") ->
      forall before name after,
        IP_ADDRESS_HEADERS = before ++ name :: after ->
        Forall (passed_over headers) before ->
        (is_header_name name = false ->
         getIpAddress_call env headers = Throw)
        /\ (forall v,
              is_header_name name = true ->
              Headers_get headers name = Some v -> v <> [] ->
              getIpAddress_call env headers
              = Return (if decide (name = js "forwarded")
                        then Some (default v (match_for v))
                        else Some v)))
  /\ (~ has_value headers (js "cf-connecting-ip") ->
      custom_header_misses env headers ->
      ~ has_value headers (js "x-forwarded-for") ->
      Forall (passed_over headers) IP_ADDRESS_HEADERS ->
      getIpAddress_call env headers = Return None)
  /\ (forall c x,
        Headers_get headers (js "cf-connecting-ip") = Some c -> c <> [] ->
        Headers_get headers (js "x-forwarded-for") = Some x ->
        getIpAddress_call env headers = Return (Some c))
  /\ (entries headers = {[ js "x-forwarded-for" := js "1.2.3.4, 5.6.7.8" ]} ->
      custom_header_misses env headers ->
      getIpAddress_call env headers = Return (Some (js "1.2.3.4"))).
Proof.
  split; [|split; [|split; [|split; [|split; [|split; [|split]]]]]].
  - apply call_cloudflare.
  - intros Hcf name v. now apply call_custom.
  - intros Hcf name. now apply call_custom_throws.
  - intros Hcf Hcu v Hv Hne.
    destruct (call_forwarded_for env headers _ Hcf Hcu Hv Hne)
      as (first & Hf & Hr).
    exists first, (JS.trim first).
    split; [exact Hf|]. split; [apply trim_trimmed_of | exact Hr].
  - intros Hcf Hcu Hx before name after Hl Hb.
    rewrite call_falls_back by assumption.
    rewrite Hl, scan_call_skips by assumption. split.
    + apply scan_call_throws.
    + intros v. apply scan_call_hit.
  - intros Hcf Hcu Hx Hall.
    rewrite call_falls_back by assumption. now apply scan_call_none.
  - intros c x Hc Hne _. now apply call_cloudflare.
  - intros He Hcu.
    assert (Hcf : ~ has_value headers (js "cf-connecting-ip")).
    { intros (v & Hv & _). unfold Headers_get in Hv. rewrite He in Hv.
      vm_compute in Hv. discriminate. }
    assert (Hx : Headers_get headers (js "x-forwarded-for")
                 = Some (js "1.2.3.4, 5.6.7.8")).
    { unfold Headers_get. rewrite He. vm_compute. reflexivity. }
    destruct (call_forwarded_for env headers _ Hcf Hcu Hx
                ltac:(discriminate)) as (first & Hf & ->).
    assert (Hf' : first_entry 44 (js "1.2.3.4, 5.6.7.8") (js "1.2.3.4"))
      by (apply (first_entry_here 44 (js "1.2.3.4") (js " 5.6.7.8")); exact I).
    now rewrite (first_entry_unique _ _ _ _ Hf Hf').
Qed.

Lemma getIpAddress_precedence_witness :
  @getIpAddress_call Sample.constants Sample.no_env
    (Sample.headers [("x-forwarded-for"%string, js "1.2.3.4, 5.6.7.8")])
  = Return (Some (js "1.2.3.4"))
  /\ @getIpAddress_call Sample.constants Sample.no_env
       (Sample.headers [("cf-connecting-ip"%string, js "203.0.113.7");
                        ("x-forwarded-for"%string, js "1.2.3.4, 5.6.7.8")])
     = Return (Some (js "203.0.113.7")).
Proof.
  split.
  - refine (proj2 (proj2 (proj2 (proj2 (proj2 (proj2 (proj2
      (@getIpAddress_precedence Sample.constants Sample.no_env _))))))) _ _).
    + vm_compute. reflexivity.
    + left. reflexivity.
  - refine (proj1 (proj2 (proj2 (proj2 (proj2 (proj2 (proj2
      (@getIpAddress_precedence Sample.constants Sample.no_env _)))))))
      (js "203.0.113.7") (js "1.2.3.4, 5.6.7.8") _ _ _).
    + vm_compute. reflexivity.
    + discriminate.
    + vm_compute. reflexivity.
Defined.

(** C5 as stated fails: a [cf-connecting-ip] header that is present but
    empty does not win over [x-forwarded-for]; when the configured header
    is [x-forwarded-for] itself, the request with only
    [x-forwarded-for: 1.2.3.4, 5.6.7.8] resolves to the whole value; and
    when the configured name is [x real ip], which is not a header name,
    the call throws. *)
Lemma present_empty_cloudflare_header_loses :
  let headers :=
    Sample.headers [("cf-connecting-ip"%string, []);
                    ("x-forwarded-for"%string, js "1.2.3.4")] in
  Headers_get headers (js "cf-connecting-ip") = Some []
  /\ Headers_get headers (js "x-forwarded-for") = Some (js "1.2.3.4")
  /\ @getIpAddress_call Sample.constants Sample.no_env headers
     = Return (Some (js "1.2.3.4"))
  /\ @getIpAddress_call Sample.constants Sample.no_env headers
     <> Return (Headers_get headers (js "cf-connecting-ip"))
  /\ @getIpAddress_call Sample.constants
       {| CLIENT_IP_HEADER := Some (js "x-forwarded-for");
          SKIP_LOCATION_HEADERS := None;
          GEOLITE_DB_PATH := None;
          IGNORE_IP := None |}
       (Sample.headers [("x-forwarded-for"%string, js "1.2.3.4, 5.6.7.8")])
     = Return (Some (js "1.2.3.4, 5.6.7.8"))
  /\ @getIpAddress_call Sample.constants
       {| CLIENT_IP_HEADER := Some (js "x real ip");
          SKIP_LOCATION_HEADERS := None;
          GEOLITE_DB_PATH := None;
          IGNORE_IP := None |}
       (Sample.headers [("x-forwarded-for"%string, js "1.2.3.4, 5.6.7.8")])
     = Throw.
Proof. vm_compute. repeat split; discriminate. Qed.

(** C1, as the code has it: when the first three steps found nothing and
    [forwarded] is the first header of the fallback list with a non-empty
    value, the result is the text captured by the leftmost match of
    [for=(\[?[0-9a-fA-F:.]+\]?)] in the value, exactly as captured, and
    the whole value when the pattern matches nowhere.  The leftmost match
    is at the first [for=] that is followed, after an optional opening
    bracket, by a character of the class; its capture is that bracket, the
    whole run of class characters, and a closing bracket if one follows;
    every value has such a leftmost match or no match at all.
    Brackets belong to the capture and are kept: [for=[...]...] yields
    [[...]]; an unbracketed address is returned as it is; and in
    [for="[2001:db8::1]";proto=https] the quote after [for=] keeps the
    pattern from matching, so the whole value is the result. *)
Theorem forwarded_capture_is_verbatim
    {C : Constants} (env : Env) (headers : Headers)
    (before after : list jsstring) (v : jsstring) :
  ~ has_value headers (js "cf-connecting-ip") ->
  custom_header_misses env headers ->
  ~ has_value headers (js "x-forwarded-for") ->
  IP_ADDRESS_HEADERS = before ++ js "forwarded" :: after ->
  Forall (passed_over headers) before ->
  Headers_get headers (js "forwarded") = Some v -> v <> [] ->
  (forall a lb body rb rest,
      v = a ++ js "for=" ++ lb ++ body ++ rb ++ rest ->
      no_match_within a (js "for=" ++ lb ++ body ++ rb ++ rest) ->
      lb = [] \/ lb = [91] ->
      body <> [] -> forallb is_hex_colon_dot body = true ->
      rb = [93]
      \/ (rb = []
          /\ starts_outside (fun c => is_hex_colon_dot c || (c =? 93)) rest) ->
      getIpAddress_call env headers = Return (Some (lb ++ body ++ rb)))
  /\ (no_match_within v [] ->
      getIpAddress_call env headers = Return (Some v))
  /\ (forall body rest,
        body <> [] -> forallb is_hex_colon_dot body = true ->
        v = js "for=[" ++ body ++ js "]" ++ rest ->
        getIpAddress_call env headers = Return (Some (js "[" ++ body ++ js "]")))
  /\ (forall body rest,
        body <> [] -> forallb is_hex_colon_dot body = true ->
        starts_outside (fun c => is_hex_colon_dot c || (c =? 93)) rest ->
        v = js "for=" ++ body ++ rest ->
        getIpAddress_call env headers = Return (Some body))
  /\ (v = forwarded_quoted ->
      getIpAddress_call env headers = Return (Some forwarded_quoted))
  /\ (no_match_within v []
      \/ exists a lb body rb rest,
           v = a ++ js "for=" ++ lb ++ body ++ rb ++ rest
           /\ no_match_within a (js "for=" ++ lb ++ body ++ rb ++ rest)
           /\ (lb = [] \/ lb = [91])
           /\ body <> [] /\ forallb is_hex_colon_dot body = true
           /\ (rb = [93]
               \/ (rb = []
                   /\ starts_outside
                        (fun c => is_hex_colon_dot c || (c =? 93)) rest))).
Proof.
  intros Hcf Hcu Hx Hl Hb Hv Hne.
  assert (Hr : getIpAddress_call env headers
               = Return (Some (default v (match_for v)))).
  { rewrite call_falls_back by assumption.
    rewrite Hl, scan_call_skips by assumption.
    rewrite (scan_call_hit headers (js "forwarded") after v eq_refl Hv Hne).
    destruct (decide _); [reflexivity | contradiction]. }
  rewrite Hr. split; [|split; [|split; [|split; [|split]]]];
    [| | | | |
     destruct (leftmost_begin v) as [Hno|(a & m & -> & Hno & Hm)];
     [now left|];
     destruct (for_begins_shape m Hm)
       as (lb & body & rb & rest & -> & Hlb & Hbne & Hbody & Hrb);
     right; now exists a, lb, body, rb, rest].
  - intros a lb body rb rest -> Hno Hlb Hbne Hbody Hrb.
    now rewrite (match_for_leftmost a lb body rb rest).
  - intros Hno. now rewrite (match_for_nowhere v Hno).
  - intros body rest Hbne Hbody ->.
    change (js "for=[" ++ body ++ js "]" ++ rest)
      with (js "for=" ++ [91] ++ body ++ [93] ++ rest).
    rewrite (match_for_capture [91] body [93] rest); auto.
  - intros body rest Hbne Hbody Hrest ->.
    change (js "for=" ++ body ++ rest)
      with (js "for=" ++ [] ++ body ++ [] ++ rest).
    rewrite (match_for_capture [] body [] rest); auto.
    simpl. now rewrite app_nil_r.
  - intros ->. now rewrite match_for_quoted.
Qed.

Lemma forwarded_capture_is_verbatim_witness :
  @getIpAddress_call Sample.constants Sample.no_env
    (Sample.headers
       [("forwarded"%string,
         js "by=203.0.113.43;for=[2001:db8::1];proto=https")])
  = Return (Some (js "[2001:db8::1]")).
Proof.
  refine (proj1 (@forwarded_capture_is_verbatim
            Sample.constants Sample.no_env
            (Sample.headers
               [("forwarded"%string,
                 js "by=203.0.113.43;for=[2001:db8::1];proto=https")])
            (map js ["cf-connecting-ip"; "x-client-ip"; "x-forwarded-for";
                     "do-connecting-ip"; "fastly-client-ip"; "true-client-ip";
                     "x-real-ip"; "x-cluster-client-ip"; "x-forwarded"]%string)
            [js "x-appengine-user-ip"]
            (js "by=203.0.113.43;for=[2001:db8::1];proto=https")
            _ _ _ _ _ _ _)
          (js "by=203.0.113.43;") [91] (js "2001:db8::1") [93]
          (js ";proto=https") _ _ _ _ _ _).
  - no_value.
  - left. reflexivity.
  - no_value.
  - reflexivity.
  - repeat (apply List.Forall_cons; [passed|]). apply List.Forall_nil.
  - vm_compute. reflexivity.
  - discriminate.
  - reflexivity.
  - apply no_match_within_test. vm_compute. reflexivity.
  - now right.
  - discriminate.
  - reflexivity.
  - now left.
Defined.

(** C1 as stated fails: for [for="[2001:db8::1]";proto=https] the result
    is the whole header value, and for [for=[2001:db8::1];proto=https] it
    is [[2001:db8::1]] with its brackets; neither is [2001:db8::1]. *)
Lemma forwarded_brackets_not_stripped :
  @getIpAddress_call Sample.constants Sample.no_env
    (Sample.headers [("forwarded"%string, forwarded_quoted)])
  = Return (Some forwarded_quoted)
  /\ forwarded_quoted <> js "2001:db8::1"
  /\ @getIpAddress_call Sample.constants Sample.no_env
       (Sample.headers [("forwarded"%string, js "for=[2001:db8::1];proto=https")])
     = Return (Some (js "[2001:db8::1]"))
  /\ js "[2001:db8::1]" <> js "2001:db8::1".
Proof. vm_compute. repeat split; discriminate. Qed.

(** X1: the call returns nothing exactly when every lookup it makes
    succeeds and finds no non-empty value: [cf-connecting-ip], the
    configured header, [x-forwarded-for], and every header of the
    fallback list. *)
Theorem getIpAddress_absent_iff {C : Constants} (env : Env) (headers : Headers) :
  getIpAddress_call env headers = Return None
  <-> ~ has_value headers (js "cf-connecting-ip")
      /\ custom_header_misses env headers
      /\ ~ has_value headers (js "x-forwarded-for")
      /\ Forall (passed_over headers) IP_ADDRESS_HEADERS.
Proof.
  split.
  - intros Hnone.
    destruct (has_value_dec headers (js "cf-connecting-ip")) as [(v & Hv & Hne)|Hcf].
    { rewrite (call_cloudflare env headers v Hv Hne) in Hnone. discriminate. }
    destruct (custom_header_cases env headers)
      as [Hcu|[(name & v & Hn & Hnn & Hok & Hv & Hne)|(name & Hn & Hnn & Hbad)]].
    + destruct (has_value_dec headers (js "x-forwarded-for"))
        as [(v & Hv & Hne)|Hx].
      { destruct (call_forwarded_for env headers v Hcf Hcu Hv Hne)
          as (first & _ & Hr). rewrite Hr in Hnone. discriminate. }
      rewrite (call_falls_back env headers Hcf Hcu Hx) in Hnone.
      repeat split; try assumption. now apply scan_call_none_all.
    + rewrite (call_custom env headers name v Hcf Hn Hnn Hok Hv Hne) in Hnone.
      discriminate.
    + rewrite (call_custom_throws env headers name Hcf Hn Hnn Hbad) in Hnone.
      discriminate.
  - intros (Hcf & Hcu & Hx & Hall).
    rewrite (call_falls_back env headers Hcf Hcu Hx).
    now apply scan_call_none.
Qed.

(** X3: when [x-forwarded-for] decides, the address returned holds no
    comma and neither begins nor ends with white space. *)
Theorem forwarded_for_entry_is_clean
    {C : Constants} (env : Env) (headers : Headers) (v : jsstring) :
  ~ has_value headers (js "cf-connecting-ip") ->
  custom_header_misses env headers ->
  Headers_get headers (js "x-forwarded-for") = Some v -> v <> [] ->
  exists t, getIpAddress_call env headers = Return (Some t)
            /\ (44 ∉ t)
            /\ starts_outside JS.is_whitespace t
            /\ starts_outside JS.is_whitespace (rev t).
Proof.
  intros Hcf Hcu Hv Hne.
  destruct (call_forwarded_for env headers v Hcf Hcu Hv Hne)
    as (first & [Hnot _] & Hr).
  exists (JS.trim first). split; [exact Hr|]. split.
  - intros Hin. apply Hnot. now apply trim_elem.
  - apply trim_ends.
Qed.

Lemma forwarded_for_entry_is_clean_witness :
  exists t,
    @getIpAddress_call Sample.constants Sample.no_env
      (Sample.headers [("x-forwarded-for"%string, js "  1.2.3.4 , 5.6.7.8")])
    = Return (Some t)
    /\ (44 ∉ t)
    /\ starts_outside JS.is_whitespace t
    /\ starts_outside JS.is_whitespace (rev t).
Proof.
  refine (@forwarded_for_entry_is_clean Sample.constants Sample.no_env
            (Sample.headers [("x-forwarded-for"%string,
                              js "  1.2.3.4 , 5.6.7.8")])
            (js "  1.2.3.4 , 5.6.7.8") _ _ _ _).
  - no_value.
  - left. reflexivity.
  - vm_compute. reflexivity.
  - discriminate.
Defined.

(** X4: when [forwarded] decides, the address returned is never empty
    and is a piece of the header value: either the whole value (the
    pattern did not match) or a text of hexadecimal digits, colons, dots
    and brackets only that directly follows a [for=] of the value. *)
Theorem forwarded_result_shape
    {C : Constants} (env : Env) (headers : Headers)
    (before after : list jsstring) (v : jsstring) :
  ~ has_value headers (js "cf-connecting-ip") ->
  custom_header_misses env headers ->
  ~ has_value headers (js "x-forwarded-for") ->
  IP_ADDRESS_HEADERS = before ++ js "forwarded" :: after ->
  Forall (passed_over headers) before ->
  Headers_get headers (js "forwarded") = Some v -> v <> [] ->
  exists res, getIpAddress_call env headers = Return (Some res)
    /\ res <> []
    /\ (exists a b, v = a ++ res ++ b)
    /\ (res = v
        \/ (Forall (fun c => is_hex_colon_dot c = true \/ c = 91 \/ c = 93) res
            /\ exists a b, v = a ++ js "for=" ++ res ++ b)).
Proof.
  intros Hcf Hcu Hx Hl Hb Hv Hne.
  rewrite call_falls_back by assumption.
  rewrite Hl, scan_call_skips by assumption.
  rewrite (scan_call_hit headers (js "forwarded") after v eq_refl Hv Hne).
  destruct (decide _); [|contradiction].
  destruct (match_for v) as [cap|] eqn:Hm; simpl.
  - pose proof (match_for_after_prefix _ _ Hm) as Hpre.
    apply match_for_shape in Hm as (Hcap & Hpiece & Hchars).
    exists cap. repeat split; try assumption. right. now split.
  - exists v. repeat split; try assumption; [|now left].
    exists [], []. now rewrite app_nil_r.
Qed.

Lemma forwarded_result_shape_witness :
  exists res,
    @getIpAddress_call Sample.constants Sample.no_env
      (Sample.headers [("forwarded"%string,
                        js "by=203.0.113.43;for=198.51.100.17:4711;host=a")])
    = Return (Some res)
    /\ res <> []
    /\ (exists a b,
          js "by=203.0.113.43;for=198.51.100.17:4711;host=a" = a ++ res ++ b)
    /\ (res = js "by=203.0.113.43;for=198.51.100.17:4711;host=a"
        \/ (Forall (fun c => is_hex_colon_dot c = true \/ c = 91 \/ c = 93) res
            /\ exists a b,
                 js "by=203.0.113.43;for=198.51.100.17:4711;host=a"
                 = a ++ js "for=" ++ res ++ b)).
Proof.
  refine (@forwarded_result_shape Sample.constants Sample.no_env
            (Sample.headers [("forwarded"%string,
                              js "by=203.0.113.43;for=198.51.100.17:4711;host=a")])
            (map js ["cf-connecting-ip"; "x-client-ip"; "x-forwarded-for";
                     "do-connecting-ip"; "fastly-client-ip"; "true-client-ip";
                     "x-real-ip"; "x-cluster-client-ip"; "x-forwarded"]%string)
            [js "x-appengine-user-ip"]
            (js "by=203.0.113.43;for=198.51.100.17:4711;host=a")
            _ _ _ _ _ _ _).
  - no_value.
  - left. reflexivity.
  - no_value.
  - reflexivity.
  - repeat (apply List.Forall_cons; [passed|]). apply List.Forall_nil.
  - vm_compute. reflexivity.
  - discriminate.
Defined.

(** * The database handle when an open can fail *)

Lemma opens_in_app l1 l2 :
  opens_in (l1 ++ l2) = (opens_in l1 + opens_in l2)%nat.
Proof.
  induction l1 as [|[p|a] l1 IH]; simpl; [reflexivity | now rewrite IH | exact IH].
Qed.

Module HandleFacts.
Import Handle.
Local Open Scope nat_scope.

Lemma lookup_middle_at {A} (p : list A) x rest :
  (p ++ x :: rest) !! length p = Some x.
Proof. now apply list_lookup_middle. Qed.

Lemma insert_middle_at {A} (p : list A) x y rest :
  <[length p := y]> (p ++ x :: rest) = p ++ y :: rest.
Proof.
  rewrite <- (Nat.add_0_r (length p)) at 1. now rewrite insert_app_r.
Qed.

Lemma lookup_middle_len {A} (p : list A) x rest k :
  length p = k -> (p ++ x :: rest) !! k = Some x.
Proof. intros <-. apply lookup_middle_at. Qed.

Lemma insert_middle_len {A} (p : list A) x y rest k :
  length p = k -> <[k := y]> (p ++ x :: rest) = p ++ y :: rest.
Proof. intros <-. apply insert_middle_at. Qed.

Lemma handle_waiting_replicate n : waiting (replicate n Waiting) = n.
Proof. induction n; simpl; congruence. Qed.

Lemma handle_waiting_insert (l : list call) : forall i c c',
  l !! i = Some c ->
  waiting (<[i := c']> l) + weight c = waiting l + weight c'.
Proof.
  induction l as [|d l IH]; intros i c c' Hl; [destruct i; discriminate|].
  destruct i as [|i]; simpl in *.
  - injection Hl as ->. lia.
  - specialize (IH i c c' Hl). lia.
Qed.

Section Oracle.
Variable fails : nat -> bool.

Lemma handle_run_cons i schedule s :
  run fails (i :: schedule) s = run fails schedule (step fails s i).
Proof. reflexivity. Qed.

Lemma handle_run_app l1 l2 s :
  run fails (l1 ++ l2) s = run fails l2 (run fails l1 s).
Proof. apply fold_left_app. Qed.

Lemma handle_step_reuses s i r :
  calls s !! i = Some Waiting -> handle s = Some r ->
  step fails s i = {| handle := Some r; opens := opens s;
                      calls := <[i := Using r]> (calls s) |}.
Proof. intros Hc Hh. unfold step. now rewrite Hc, Hh. Qed.

Lemma handle_step_opens s i :
  calls s !! i = Some Waiting -> handle s = None ->
  step fails s i = {| handle := None; opens := S (opens s);
                      calls := <[i := Opening (opens s)]> (calls s) |}.
Proof. intros Hc Hh. unfold step. now rewrite Hc, Hh. Qed.

Lemma handle_step_succeeds s i r :
  calls s !! i = Some (Opening r) -> fails r = false ->
  step fails s i = {| handle := Some r; opens := opens s;
                      calls := <[i := Using r]> (calls s) |}.
Proof. intros Hc Hf. unfold step. now rewrite Hc, Hf. Qed.

Lemma handle_step_fails s i r :
  calls s !! i = Some (Opening r) -> fails r = true ->
  step fails s i = {| handle := handle s; opens := opens s;
                      calls := <[i := Failed]> (calls s) |}.
Proof. intros Hc Hf. unfold step. now rewrite Hc, Hf. Qed.

Lemma handle_step_done s i r : calls s !! i = Some (Using r) -> step fails s i = s.
Proof. intros Hc. unfold step. now rewrite Hc. Qed.

Lemma handle_step_failed s i : calls s !! i = Some Failed -> step fails s i = s.
Proof. intros Hc. unfold step. now rewrite Hc. Qed.

(** The handle changes only when an open succeeds, and then it becomes
    the reader of that open. *)
Lemma handle_changes s i :
  handle (step fails s i) <> handle s ->
  exists r, calls s !! i = Some (Opening r) /\ fails r = false
            /\ handle (step fails s i) = Some r.
Proof.
  unfold step. destruct (calls s !! i) as [[| r | r |]|];
    [destruct (handle s) | destruct (fails r) eqn:Hf | | |];
    simpl; try contradiction.
  intros _. now exists r.
Qed.

Lemma handle_invariant_init n : invariant fails n (init n).
Proof.
  split; simpl.
  - apply length_replicate.
  - rewrite handle_waiting_replicate. lia.
  - intros i r [H|H]; apply lookup_replicate in H as [H _]; discriminate.
  - discriminate.
  - intros i r H. apply lookup_replicate in H as [H _]. discriminate.
Qed.

Lemma handle_invariant_step n s i :
  invariant fails n s -> invariant fails n (step fails s i).
Proof.
  intros [Hlen Hop Hrd Hh Hu]. unfold step.
  destruct (calls s !! i) as [[| r | r |]|] eqn:Ei;
    [destruct (handle s) as [h|] eqn:Eh | destruct (fails r) eqn:Ef | | |];
    try (split; assumption).
  - (* a waiting call finds the handle set *)
    pose proof (handle_waiting_insert _ i _ (Using h) Ei) as Hw.
    simpl in Hw. split; simpl.
    + now rewrite length_insert.
    + lia.
    + intros j r [H|H]; destruct (decide (i = j)) as [->|Hne].
      * rewrite list_lookup_insert_eq in H by (apply lookup_lt_Some in Ei; lia).
        discriminate.
      * rewrite list_lookup_insert_ne in H by exact Hne. eapply Hrd; eauto.
      * rewrite list_lookup_insert_eq in H by (apply lookup_lt_Some in Ei; lia).
        injection H as <-. now apply Hh.
      * rewrite list_lookup_insert_ne in H by exact Hne. eapply Hrd; eauto.
    + intros r [= <-]. now apply Hh.
    + intros j r H. destruct (decide (i = j)) as [->|Hne].
      * rewrite list_lookup_insert_eq in H by (apply lookup_lt_Some in Ei; lia).
        injection H as <-. split; [now apply Hh | eauto].
      * rewrite list_lookup_insert_ne in H by exact Hne.
        split; [eapply Hu; eauto | eauto].
  - (* a waiting call finds no handle and starts an open *)
    pose proof (handle_waiting_insert _ i _ (Opening (opens s)) Ei) as Hw.
    simpl in Hw. split; simpl.
    + now rewrite length_insert.
    + lia.
    + intros j r [H|H]; destruct (decide (i = j)) as [->|Hne].
      * rewrite list_lookup_insert_eq in H by (apply lookup_lt_Some in Ei; lia).
        injection H as <-. lia.
      * rewrite list_lookup_insert_ne in H by exact Hne.
        assert (r < opens s) by (eapply Hrd; eauto). lia.
      * rewrite list_lookup_insert_eq in H by (apply lookup_lt_Some in Ei; lia).
        discriminate.
      * rewrite list_lookup_insert_ne in H by exact Hne.
        assert (r < opens s) by (eapply Hrd; eauto). lia.
    + discriminate.
    + intros j r H. destruct (decide (i = j)) as [->|Hne].
      * rewrite list_lookup_insert_eq in H by (apply lookup_lt_Some in Ei; lia).
        discriminate.
      * rewrite list_lookup_insert_ne in H by exact Hne.
        destruct (Hu j r H) as [_ [h Hs]]. congruence.
  - (* an open is rejected *)
    pose proof (handle_waiting_insert _ i _ Failed Ei) as Hw.
    simpl in Hw. split; simpl.
    + now rewrite length_insert.
    + lia.
    + intros j r' [H|H]; destruct (decide (i = j)) as [->|Hne].
      * rewrite list_lookup_insert_eq in H by (apply lookup_lt_Some in Ei; lia).
        discriminate.
      * rewrite list_lookup_insert_ne in H by exact Hne. eapply Hrd; eauto.
      * rewrite list_lookup_insert_eq in H by (apply lookup_lt_Some in Ei; lia).
        discriminate.
      * rewrite list_lookup_insert_ne in H by exact Hne. eapply Hrd; eauto.
    + exact Hh.
    + intros j r' H. destruct (decide (i = j)) as [->|Hne].
      * rewrite list_lookup_insert_eq in H by (apply lookup_lt_Some in Ei; lia).
        discriminate.
      * rewrite list_lookup_insert_ne in H by exact Hne. eapply Hu; eauto.
  - (* an open succeeds *)
    pose proof (handle_waiting_insert _ i _ (Using r) Ei) as Hw.
    simpl in Hw. split; simpl.
    + now rewrite length_insert.
    + lia.
    + intros j r' [H|H]; destruct (decide (i = j)) as [->|Hne].
      * rewrite list_lookup_insert_eq in H by (apply lookup_lt_Some in Ei; lia).
        discriminate.
      * rewrite list_lookup_insert_ne in H by exact Hne. eapply Hrd; eauto.
      * rewrite list_lookup_insert_eq in H by (apply lookup_lt_Some in Ei; lia).
        injection H as <-. eapply Hrd; eauto.
      * rewrite list_lookup_insert_ne in H by exact Hne. eapply Hrd; eauto.
    + intros r' [= <-]. split; [eapply Hrd; eauto | exact Ef].
    + intros j r' H. destruct (decide (i = j)) as [->|Hne].
      * rewrite list_lookup_insert_eq in H by (apply lookup_lt_Some in Ei; lia).
        injection H as <-. split; [exact Ef | eauto].
      * rewrite list_lookup_insert_ne in H by exact Hne.
        split; [eapply Hu; eauto | eauto].
Qed.

Lemma handle_invariant_run n schedule : forall s,
  invariant fails n s -> invariant fails n (run fails schedule s).
Proof.
  induction schedule as [|i schedule IH]; intros s Hs; [exact Hs|].
  simpl. apply IH. now apply handle_invariant_step.
Qed.

(** Calls that all test the handle before any open has completed. *)
Lemma handle_all_test_first_from m : forall k,
  run fails (seq k m)
    {| handle := None; opens := k;
       calls := (Opening <$> seq 0 k) ++ replicate m Waiting |}
  = {| handle := None; opens := k + m; calls := Opening <$> seq 0 (k + m) |}.
Proof.
  induction m as [|m IH]; intros k.
  - cbn [seq run fold_left]. now rewrite app_nil_r, Nat.add_0_r.
  - cbn [seq]. rewrite handle_run_cons.
    assert (Hlen : length (Opening <$> seq 0 k) = k)
      by now rewrite length_fmap, length_seq.
    assert (Hl : ((Opening <$> seq 0 k) ++ replicate (S m) Waiting) !! k
                 = Some Waiting).
    { rewrite lookup_app_r by lia. now rewrite Hlen, Nat.sub_diag. }
    rewrite handle_step_opens by (first [exact Hl | reflexivity]).
    cbn [calls handle opens].
    assert (Hi : <[k := Opening k]>
                   ((Opening <$> seq 0 k) ++ replicate (S m) Waiting)
                 = (Opening <$> seq 0 (S k)) ++ replicate m Waiting).
    { rewrite insert_app_r_alt by lia. rewrite Hlen, Nat.sub_diag.
      change (<[0 := Opening k]> (replicate (S m) Waiting))
        with ([Opening k] ++ replicate m Waiting).
      rewrite app_assoc. f_equal.
      rewrite seq_S, fmap_app. reflexivity. }
    rewrite Hi, IH. now replace (k + S m) with (S k + m) by lia.
Qed.

(** Calls one after the other whose opens are all rejected: each opens
    and throws. *)
Lemma sequential_rejected m : forall p rest,
  (forall x, length p <= x < length p + m -> fails x = true) ->
  run fails (flat_map (fun i => [i; i]) (seq (length p) m))
    {| handle := None; opens := length p;
       calls := p ++ replicate m Waiting ++ rest |}
  = {| handle := None; opens := length p + m;
       calls := p ++ replicate m Failed ++ rest |}.
Proof.
  induction m as [|m IH]; intros p rest Hf.
  - cbn [seq flat_map run fold_left replicate app]. now rewrite Nat.add_0_r.
  - cbn [seq flat_map app replicate]. rewrite handle_run_cons.
    rewrite handle_step_opens by (first [apply lookup_middle_at | reflexivity]).
    cbn [calls handle opens]. rewrite insert_middle_at, handle_run_cons.
    rewrite (handle_step_fails _ _ (length p))
      by (first [apply lookup_middle_at | apply Hf; lia]).
    cbn [calls handle opens]. rewrite insert_middle_at.
    specialize (IH (p ++ [Failed]) rest).
    rewrite length_app in IH. cbn [length] in IH.
    rewrite Nat.add_1_r, <- !app_assoc in IH. cbn [app] in IH.
    rewrite IH by (intros x Hx; apply Hf; lia).
    f_equal. lia.
Qed.

(** Calls one after the other once the handle is set: each reuses it. *)
Lemma sequential_reusing r o m : forall p rest,
  run fails (flat_map (fun i => [i; i]) (seq (length p) m))
    {| handle := Some r; opens := o;
       calls := p ++ replicate m Waiting ++ rest |}
  = {| handle := Some r; opens := o;
       calls := p ++ replicate m (Using r) ++ rest |}.
Proof.
  induction m as [|m IH]; intros p rest; [reflexivity|].
  cbn [seq flat_map app replicate]. rewrite handle_run_cons.
  rewrite (handle_step_reuses _ _ r)
    by (first [apply lookup_middle_at | reflexivity]).
  cbn [calls handle opens]. rewrite insert_middle_at, handle_run_cons.
  rewrite (handle_step_done _ _ r) by apply lookup_middle_at.
  specialize (IH (p ++ [Using r]) rest).
  rewrite length_app in IH. cbn [length] in IH.
  rewrite Nat.add_1_r, <- !app_assoc in IH. cbn [app] in IH.
  exact IH.
Qed.

(** Calls one after the other: the opens are rejected up to the first
    that succeeds, whose reader all later calls use. *)
Lemma sequential_first_success n k :
  k < n -> (forall j, j < k -> fails j = true) -> fails k = false ->
  run fails (sequential n) (init n)
  = {| handle := Some k; opens := S k;
       calls := replicate k Failed ++ replicate (n - k) (Using k) |}.
Proof.
  intros Hk Hbefore Hok. unfold sequential, init.
  replace n with (k + S (n - S k)) at 1 2 by lia.
  rewrite seq_app, flat_map_app, handle_run_app, replicate_add.
  pose proof (sequential_rejected k [] (replicate (S (n - S k)) Waiting)) as HA.
  cbn [length app] in HA. rewrite Nat.add_0_l in HA.
  rewrite HA by (intros x Hx; apply Hbefore; lia). clear HA.
  cbn [seq flat_map app replicate]. rewrite !Nat.add_0_l, handle_run_cons.
  assert (Hlen : length (replicate k Failed) = k) by apply length_replicate.
  rewrite handle_step_opens
    by (first [now apply lookup_middle_len | reflexivity]).
  cbn [calls handle opens].
  rewrite (insert_middle_len _ _ _ _ k Hlen), handle_run_cons.
  rewrite (handle_step_succeeds _ _ k)
    by (first [now apply lookup_middle_len | exact Hok]).
  cbn [calls handle opens]. rewrite (insert_middle_len _ _ _ _ k Hlen).
  pose proof (sequential_reusing k (S k) (n - S k)
                (replicate k Failed ++ [Using k]) []) as HB.
  rewrite length_app, Hlen in HB. cbn [length] in HB.
  rewrite Nat.add_1_r, <- !app_assoc, !app_nil_r in HB. cbn [app] in HB.
  rewrite HB. do 2 f_equal.
  replace (n - k) with (S (n - S k)) by lia. reflexivity.
Qed.

Lemma sequential_all_rejected n :
  (forall j, j < n -> fails j = true) ->
  run fails (sequential n) (init n)
  = {| handle := None; opens := n; calls := replicate n Failed |}.
Proof.
  intros Hall. unfold sequential, init.
  pose proof (sequential_rejected n [] []) as HA.
  cbn [length app] in HA. rewrite !app_nil_r, Nat.add_0_l in HA.
  apply HA. intros x Hx. apply Hall. lia.
Qed.

End Oracle.

(** With no rejected open the automaton is that of [Init]. *)
Lemma of_init_step s i :
  step (fun _ => false) (of_init s) i = of_init (Init.step s i).
Proof.
  unfold step, Init.step, of_init. cbn [calls handle opens].
  rewrite list_lookup_fmap.
  destruct (Init.calls s !! i) as [[| r | r]|]; cbn [fmap option_fmap option_map of_init_call];
    [destruct (Init.handle s) | | |];
    cbn [Init.handle Init.opens Init.calls]; try reflexivity;
    now rewrite list_fmap_insert.
Qed.

Lemma of_init_run schedule : forall s,
  run (fun _ => false) schedule (of_init s) = of_init (Init.run schedule s).
Proof.
  induction schedule as [|i schedule IH]; intros s; [reflexivity|].
  cbn [run Init.run fold_left]. rewrite of_init_step. apply IH.
Qed.

End HandleFacts.

(** One uninterrupted call of [getLocation] that reaches the database is
    the two pieces of the automaton run one after the other. *)
Lemma getLocation_is_two_pieces `{Runtime} `{GeoLib}
    (fails : nat -> bool) (env : Env) (ip : jsstring) (headers : Headers)
    (hasPayloadIP : bool) (w : World) (s : Handle.state) (i : nat) :
  isLocalhost ip = false ->
  location_from_headers env headers hasPayloadIP = None ->
  Handle.calls s !! i = Some Handle.Waiting ->
  agrees w s ->
  (fails (Handle.opens s) = true <-> maxmind_open (db_path env) = None) ->
  let out := getLocation env ip headers hasPayloadIP w in
  let s' := Handle.step fails (Handle.step fails s i) i in
  agrees (snd out) s'
  /\ (fst out = Throw <-> Handle.calls s' !! i = Some Handle.Failed)
  /\ (fst out <> Throw <-> exists r, Handle.calls s' !! i = Some (Handle.Using r)).
Proof.
  intros Hl Hh Hc [Hset Hcount] Hf out s'. subst out s'.
  assert (Hlt : (i < length (Handle.calls s))%nat)
    by now apply lookup_lt_Some in Hc.
  unfold getLocation, ensure_open, agrees. rewrite Hl, Hh.
  destruct (global_MAXMIND w) as [r0|] eqn:Hg.
  - destruct (Handle.handle s) as [h|] eqn:Eh;
      [|destruct Hset as [_ Hset]; specialize (Hset eq_refl); discriminate].
    rewrite (HandleFacts.handle_step_reuses fails s i h Hc Eh).
    rewrite (HandleFacts.handle_step_done fails _ i h)
      by (cbn [Handle.calls]; now apply list_lookup_insert_eq).
    destruct (reader_get r0 (cleanIp ip));
      cbn [fst snd global_MAXMIND db_log Handle.handle Handle.opens
           Handle.calls];
      rewrite Hg, opens_in_app, list_lookup_insert_eq by exact Hlt;
      (split; [split; [split; discriminate | simpl; lia]|];
       split; [split; discriminate|];
       split; [intros _; eexists; reflexivity | intros _; discriminate]).
  - destruct (Handle.handle s) as [h|] eqn:Eh;
      [destruct Hset as [Hset _]; specialize (Hset eq_refl); discriminate|].
    rewrite (HandleFacts.handle_step_opens fails s i Hc Eh).
    assert (Hop : <[i := Handle.Opening (Handle.opens s)]> (Handle.calls s) !! i
                  = Some (Handle.Opening (Handle.opens s)))
      by now apply list_lookup_insert_eq.
    destruct (maxmind_open (db_path env)) as [r|] eqn:Ho.
    + assert (Hok : fails (Handle.opens s) = false).
      { destruct (fails (Handle.opens s)); [|reflexivity].
        destruct Hf as [Hf _]. specialize (Hf eq_refl). discriminate. }
      rewrite HandleFacts.handle_step_succeeds with (r := Handle.opens s)
        by (first [exact Hop | exact Hok]).
      destruct (reader_get r (cleanIp ip));
        cbn [fst snd global_MAXMIND db_log Handle.handle Handle.opens
             Handle.calls];
        rewrite !opens_in_app, list_lookup_insert_eq
          by (rewrite length_insert; exact Hlt);
        (split; [split; [split; discriminate | simpl; lia]|];
         split; [split; discriminate|];
         split; [intros _; eexists; reflexivity | intros _; discriminate]).
    + assert (Hbad : fails (Handle.opens s) = true) by now apply Hf.
      rewrite HandleFacts.handle_step_fails with (r := Handle.opens s)
        by (first [exact Hop | exact Hbad]).
      cbn [fst snd global_MAXMIND db_log Handle.handle Handle.opens
           Handle.calls].
      rewrite opens_in_app, list_lookup_insert_eq
        by (rewrite length_insert; exact Hlt).
      split; [split; [tauto | simpl; lia]|].
      split; [tauto|].
      split; [intros Hx; now contradiction Hx | intros (r & Hr); discriminate].
Qed.

(** C8, as the code has it: the test of the handle and the assignment
    are separated by the [await] of [maxmind.open], and nothing guards
    them.  Whatever the interleaving of [n] calls and whichever opens are
    rejected: the database is opened at most once per call; a call that
    has done its lookup used the reader of an open that succeeded, and
    the handle is set from then on; while the handle is not set every
    call that reaches the test starts an open of its own, so [n] calls
    that all test first open the file [n] times; once the handle is set a
    call reuses it without opening; an open that succeeds stores its
    reader in the handle whatever the handle holds, so the handle is
    always the reader of the open that succeeded last, and a rejected
    open leaves the handle as it is and makes its call throw.  Calls
    handled one after the other open the file once each until an open
    succeeds, and all later calls use that reader: when no open is
    rejected the file is opened exactly once.  The automaton without
    rejected opens is that of [Init], and one uninterrupted call of
    [getLocation] that reaches the database is its two pieces run one
    after the other. *)
Theorem handle_initialisation_is_unguarded
    (fails : nat -> bool) (n : nat) (schedule : list nat) :
  let s := Handle.run fails schedule (Handle.init n) in
  (Handle.opens s <= n)%nat
  /\ (forall i r, Handle.calls s !! i = Some (Handle.Using r) ->
        (r < Handle.opens s)%nat /\ fails r = false
        /\ is_Some (Handle.handle s))
  /\ (Handle.handle s = None ->
      forall i, Handle.calls s !! i = Some Handle.Waiting ->
        Handle.step fails s i
        = {| Handle.handle := None; Handle.opens := S (Handle.opens s);
             Handle.calls :=
               <[i := Handle.Opening (Handle.opens s)]> (Handle.calls s) |})
  /\ (forall r i, Handle.handle s = Some r ->
        Handle.calls s !! i = Some Handle.Waiting ->
        Handle.step fails s i
        = {| Handle.handle := Some r; Handle.opens := Handle.opens s;
             Handle.calls := <[i := Handle.Using r]> (Handle.calls s) |})
  /\ (forall i r, Handle.calls s !! i = Some (Handle.Opening r) ->
        (fails r = false ->
         Handle.step fails s i
         = {| Handle.handle := Some r; Handle.opens := Handle.opens s;
              Handle.calls := <[i := Handle.Using r]> (Handle.calls s) |})
        /\ (fails r = true ->
            Handle.step fails s i
            = {| Handle.handle := Handle.handle s;
                 Handle.opens := Handle.opens s;
                 Handle.calls := <[i := Handle.Failed]> (Handle.calls s) |}))
  /\ (forall i, Handle.handle (Handle.step fails s i) <> Handle.handle s ->
        exists r, Handle.calls s !! i = Some (Handle.Opening r)
                  /\ fails r = false
                  /\ Handle.handle (Handle.step fails s i) = Some r)
  /\ Handle.run fails (seq 0 n) (Handle.init n)
     = {| Handle.handle := None; Handle.opens := n;
          Handle.calls := Handle.Opening <$> seq 0 n |}
  /\ (forall k, (k < n)%nat ->
        (forall j, (j < k)%nat -> fails j = true) -> fails k = false ->
        Handle.run fails (Handle.sequential n) (Handle.init n)
        = {| Handle.handle := Some k; Handle.opens := S k;
             Handle.calls := replicate k Handle.Failed
                             ++ replicate (n - k) (Handle.Using k) |})
  /\ ((forall j, (j < n)%nat -> fails j = true) ->
      Handle.run fails (Handle.sequential n) (Handle.init n)
      = {| Handle.handle := None; Handle.opens := n;
           Handle.calls := replicate n Handle.Failed |})
  /\ Handle.run (fun _ => false) schedule (Handle.init n)
     = Handle.of_init (Init.run schedule (Init.init n))
  /\ (forall (R : Runtime) (G : GeoLib) (env : Env) (ip : jsstring)
             (headers : Headers) (hasPayloadIP : bool) (w : World)
             (s0 : Handle.state) (i : nat),
        isLocalhost ip = false ->
        location_from_headers env headers hasPayloadIP = None ->
        Handle.calls s0 !! i = Some Handle.Waiting ->
        agrees w s0 ->
        (fails (Handle.opens s0) = true
         <-> maxmind_open (db_path env) = None) ->
        let out := getLocation env ip headers hasPayloadIP w in
        let s' := Handle.step fails (Handle.step fails s0 i) i in
        agrees (snd out) s'
        /\ (fst out = Throw <-> Handle.calls s' !! i = Some Handle.Failed)
        /\ (fst out <> Throw
            <-> exists r, Handle.calls s' !! i = Some (Handle.Using r))).
Proof.
  intros s.
  pose proof (HandleFacts.handle_invariant_run fails n schedule _
                (HandleFacts.handle_invariant_init fails n))
    as [Hlen Hop Hrd Hh Hu].
  fold s in Hlen, Hop, Hrd, Hh, Hu.
  split; [lia|].
  split.
  { intros i r Hc. destruct (Hu i r Hc) as [Hok Hset].
    split; [eapply Hrd; eauto | now split]. }
  split; [intros Hnone i Hc; now apply HandleFacts.handle_step_opens|].
  split; [intros r i Hsome Hc; now apply HandleFacts.handle_step_reuses|].
  split.
  { intros i r Hc. split; intros Hf.
    - now apply HandleFacts.handle_step_succeeds.
    - now apply (HandleFacts.handle_step_fails fails s i r). }
  split; [intros i; apply HandleFacts.handle_changes|].
  split; [exact (HandleFacts.handle_all_test_first_from fails n 0)|].
  split; [intros k; apply HandleFacts.sequential_first_success|].
  split; [apply HandleFacts.sequential_all_rejected|].
  split.
  { rewrite <- HandleFacts.of_init_run. f_equal.
    unfold Handle.of_init, Handle.init, Init.init. cbn.
    now rewrite fmap_replicate. }
  intros R G env ip headers hasPayloadIP w s0 i.
  apply getLocation_is_two_pieces.
Qed.

(** C8 as stated fails: two first calls that both test the handle before
    either open completes open the database twice, although no open is
    rejected; each uses the reader of its own open, and the handle, set
    by the first open to complete, is overwritten by the second. *)
Lemma two_first_calls_open_twice :
  Handle.run (fun _ => false) [0; 1; 0; 1]%nat (Handle.init 2)
  = {| Handle.handle := Some 1%nat; Handle.opens := 2;
       Handle.calls := [Handle.Using 0; Handle.Using 1] |}
  /\ Handle.handle (Handle.run (fun _ => false) [0; 1; 0]%nat (Handle.init 2))
     = Some 0%nat.
Proof. split; reflexivity. Qed.
